(** * NeuroTrack: region classification, overlays and session analytics

    A shallow embedding of the algorithmic parts of the NeuroTrack sources:
    the camera-aware head diagram ([Overlay], the component with per-region
    overlay meshes), the vertex-coloured head diagram ([Heatmap], the
    component taking [regionIntensities]), the zustand store ([Store])
    with its email pattern ([RegExp]), the log page's callbacks
    ([LogPage]), the dashboard's analytics ([Dashboard]) and the
    normalisation of the loaded mesh ([Mesh]).

    Numbers.  A JavaScript [number] is a double: a rational, when it is
    finite.  It is modelled by that rational, in [Q]; the only non-finite
    value the code manipulates on purpose is the [Infinity] that seeds the
    nearest-anchor search, modelled by [PosInf].  Comparisons on [Q] are
    up to [==] (two fractions denoting the same number).

    The two vertex classifiers compare distances that differ by less than
    a rounding error, so their arithmetic is modelled as the code performs
    it: [Double.round] rounds the exact result of each [+], [-] and [*] to
    the nearest double, and a decimal literal to the double it denotes.
    [Math.sqrt] and [**], which ECMAScript lets an implementation
    approximate, are parameters there, with the correctly rounded
    [Double.sqrt] and [Double.square] to run the classifiers on concrete
    vertices.  Elsewhere numbers are exact: the frame loop, where the
    division by 0.25 and the clamp are exact on doubles too; the colour
    ramp; the mesh normalisation; and the analytics of the store, whose
    rounded averages are those of the code on the whole-number intensities
    the log page saves.  [Vector3.normalize] and the conversion of a colour
    to the working colour space are not rational and are parameters. *)

From Stdlib Require Import QArith Qminmax Qround Qabs Lqa ZArith Lia.
From Stdlib Require Import Sorting.Sorted Sorting.Permutation.
From stdpp Require Import gmap strings list fin_maps.

Local Open Scope Q_scope.

(** ** JavaScript helpers *)

Module JS.

(** A [number] that may be [Infinity]. *)
Inductive Number : Type :=
| Finite (q : Q)
| PosInf.

(** [a < b] on finite numbers. *)
Definition ltb (a b : Q) : bool :=
  match a ?= b with Lt => true | _ => false end.

(** [d < m] where [d] is finite and [m] may be [Infinity]. *)
Definition lt (d : Q) (m : Number) : bool :=
  match m with
  | PosInf => true
  | Finite q => ltb d q
  end.

Definition Math_max (a b : Q) : Q := Qmax a b.
Definition Math_min (a b : Q) : Q := Qmin a b.

(** [Math.round]: the nearest integer, halves going up. *)
Definition Math_round (x : Q) : Z := Qfloor (x + (1 # 2)).

(** [x === 0] on numbers. *)
Definition is_zero (x : Q) : bool := Qeq_bool x 0.

(** [arr.includes(s)] on an array of strings. *)
Definition includes (arr : list string) (s : string) : bool :=
  bool_decide (s ∈ arr).

(** [arr[i]] for an index held in a signed integer: [undefined] ([None])
    when the index is negative or past the end. *)
Definition index {A : Type} (arr : list A) (i : Z) : option A :=
  if (i <? 0)%Z then None else arr !! Z.to_nat i.

(** Outcome of running a block of code: it completes with a value or
    throws. *)
Inductive completion (A : Type) : Type :=
| Normal (a : A)
| Throw (e : string).
Arguments Normal {A} a.
Arguments Throw {A} e.

Definition bind {A B : Type} (c : completion A) (k : A → completion B)
  : completion B :=
  match c with
  | Normal a => k a
  | Throw e => Throw e
  end.

Definition TypeError : string := "TypeError".

(** [o.field] where [o] may be [undefined]. *)
Definition member {A B : Type} (o : option A) (field : A → B) : completion B :=
  match o with
  | Some a => Normal (field a)
  | None => Throw TypeError
  end.

End JS.

(** ** Vectors *)

Record Vector3 : Type := mkVector3 { vx : Q; vy : Q; vz : Q }.

Definition vec (p : Q * Q * Q) : Vector3 :=
  let '(a, b, c) := p in mkVector3 a b c.

(** [Vector3.dot] *)
Definition dot (a b : Vector3) : Q :=
  vx a * vx b + vy a * vy b + vz a * vz b.

(** The square of the Euclidean distance between two points, in exact
    arithmetic. *)
Definition distanceToSquared (v a : Vector3) : Q :=
  (vx v - vx a) ^ 2 + (vy v - vy a) ^ 2 + (vz v - vz a) ^ 2.

(** A triangle of an index buffer: the indices of its three vertices. *)
Definition Face : Type := nat * nat * nat.

(** ** Double-precision arithmetic

    A finite double is [m * 2 ^ q] for integers [m] and [q] with
    [|m| <= 2 ^ 53] and [q >= -1074].  [round x] is the double nearest to
    the rational [x], ties going to the even [m] (IEEE 754 binary64,
    roundTiesToEven).  Overflow is not modelled: the operands met here are
    coordinates of a mesh and of the anchors, far from the largest
    double. *)

Module Double.

(** [floor (log2 x)], for [x > 0] *)
Definition exponent (x : Q) : Z :=
  let n := Qnum x in
  let d := Z.pos (Qden x) in
  let k := (Z.log2 n - Z.log2 d)%Z in
  if (0 <=? k)%Z
  then (if (d * 2 ^ k <=? n)%Z then k else k - 1)%Z
  else (if (d <=? n * 2 ^ (- k))%Z then k else k - 1)%Z.

(** [x / 2 ^ q] *)
Definition scale (x : Q) (q : Z) : Q :=
  if (0 <=? q)%Z then Qnum x # (Qden x * Z.to_pos (2 ^ q))
  else (Qnum x * 2 ^ (- q))%Z # Qden x.

(** [m * 2 ^ q] *)
Definition make (m q : Z) : Q :=
  if (0 <=? q)%Z then inject_Z (m * 2 ^ q) else m # Z.to_pos (2 ^ (- q)).

(** The nearest integer, ties going to the even one. *)
Definition nearest_even (y : Q) : Z :=
  let f := Qfloor y in
  match Qcompare (y - inject_Z f) (1 # 2) with
  | Lt => f
  | Gt => (f + 1)%Z
  | Eq => if Z.even f then f else (f + 1)%Z
  end.

Definition round (x : Q) : Q :=
  if Qeq_bool x 0 then 0
  else
    let q := Z.max (exponent (Qabs x) - 52) (-1074) in
    make (nearest_even (scale x q)) q.

(** [a + b], [a - b] and [a * b] on doubles *)
Definition add (a b : Q) : Q := round (a + b).
Definition sub (a b : Q) : Q := round (a - b).
Definition mul (a b : Q) : Q := round (a * b).

(** The double nearest to the square root of [x >= 0]: with [s] the
    integer part of the root of [x / 4 ^ q], the root is nearer to [s]
    than to [s + 1] when [x / 4 ^ q < (s + 1/2) ^ 2]. *)
Definition sqrt (x : Q) : Q :=
  if Qle_bool x 0 then 0
  else
    let q := Z.max (exponent x / 2 - 52) (-1074) in
    let y := scale x (2 * q) in
    let s := Z.sqrt (Qfloor y) in
    let m :=
      match Qcompare y (((2 * s + 1) ^ 2)%Z # 4) with
      | Lt => s
      | Gt => (s + 1)%Z
      | Eq => if Z.even s then s else (s + 1)%Z
      end in
    make m q.

(** [x ** 2] where the implementation rounds the exact square. *)
Definition square (x : Q) : Q := mul x x.

(** The doubles a triple of decimal literals denotes. *)
Definition literal (p : Vector3) : Vector3 :=
  mkVector3 (round (vx p)) (round (vy p)) (round (vz p)).

(** [Vector3.distanceToSquared]: [dx * dx + dy * dy + dz * dz] *)
Definition distanceToSquared (v a : Vector3) : Q :=
  let dx := sub (vx v) (vx a) in
  let dy := sub (vy v) (vy a) in
  let dz := sub (vz v) (vz a) in
  add (add (mul dx dx) (mul dy dy)) (mul dz dz).

End Double.

(** ** Nearest-anchor scan

    Both head diagrams classify a vertex with the same loop:
<<
      let minD = Infinity, best = init;
      anchors.forEach((r, a) => { const d = key(r);
                                  if (d < minD) { minD = d; best = a; } });
>>
    [scan key anchors a minD best] runs it from anchor index [a] on. *)

Section Scan.
Context {A : Type} (key : A → Q).

Fixpoint scan (anchors : list A) (a : nat) (minD : JS.Number) (best : Z) : Z :=
  match anchors with
  | [] => best
  | r :: rest =>
      let d := key r in
      if JS.lt d minD
      then scan rest (S a) (JS.Finite d) (Z.of_nat a)
      else scan rest (S a) minD best
  end.

Definition nearest (init : Z) (anchors : list A) : Z :=
  scan anchors 0 JS.PosInf init.
End Scan.

(** What the search is expected to return: [c] is the index of the first
    anchor of least [key]. *)
Definition first_nearest {A : Type} (key : A → Q) (anchors : list A) (c : Z)
  : Prop :=
  ∃ n r, c = Z.of_nat n
         ∧ anchors !! n = Some r
         ∧ (∀ a r', anchors !! a = Some r' → key r <= key r')
         ∧ (∀ a r', (a < n)%nat → anchors !! a = Some r' → key r < key r').

(** ** The camera-aware head diagram (overlay meshes) *)

Module Overlay.

(** An entry of [REGIONS]; colour and description play no part in the
    algorithms and are left out. *)
Record Region : Type := mkRegion {
  name : string;
  position : Vector3;
  facing : Vector3;
}.

Definition REGIONS : list Region := [
  mkRegion "Frontal (Forehead)" (vec (0, 0.70, 0.72)) (vec (0, 0.25, 1));
  mkRegion "Vertex (Crown)" (vec (0, 0.96, 0.10)) (vec (0, 1, 0));
  mkRegion "Left Temporal" (vec (0.76, 0.28, 0.30)) (vec (1, 0.1, 0.3));
  mkRegion "Right Temporal" (vec (-0.76, 0.28, 0.30)) (vec (-1, 0.1, 0.3));
  mkRegion "Left Parietal" (vec (0.65, 0.60, -0.20)) (vec (0.85, 0.5, -0.2));
  mkRegion "Right Parietal" (vec (-0.65, 0.60, -0.20)) (vec (-0.85, 0.5, -0.2));
  mkRegion "Left Periorbital" (vec (0.35, 0.12, 0.90)) (vec (0.25, 0, 1));
  mkRegion "Right Periorbital" (vec (-0.35, 0.12, 0.90)) (vec (-0.25, 0, 1));
  mkRegion "Left Sinus / Maxillary" (vec (0.30, -0.15, 0.90)) (vec (0.2, -0.15, 1));
  mkRegion "Right Sinus / Maxillary" (vec (-0.30, -0.15, 0.90)) (vec (-0.2, -0.15, 1));
  mkRegion "Left Auricular" (vec (0.86, 0.02, 0.08)) (vec (1, 0, 0.1));
  mkRegion "Right Auricular" (vec (-0.86, 0.02, 0.08)) (vec (-1, 0, 0.1));
  mkRegion "Occipital (Back of Skull)" (vec (0, 0.28, -0.92)) (vec (0, 0.2, -1));
  mkRegion "Suboccipital (Base of Skull)" (vec (0, -0.38, -0.82)) (vec (0, -0.35, -0.95));
  mkRegion "Cervicogenic (Neck)" (vec (0, -0.90, -0.10)) (vec (0, -0.8, -0.25))
].

Definition DUMMY : list Vector3 := vec <$> [
  (0, -0.12, 1.04); (0, -0.28, 1.00); (0, -0.48, 0.90); (0, -0.65, 0.72);
  (0, -0.78, 0.45); (0.42, -0.38, 0.74); (-0.42, -0.38, 0.74);
  (0.60, -0.10, 0.65); (-0.60, -0.10, 0.65); (0.92, 0.12, 0.22);
  (-0.92, 0.12, 0.22); (0.92, -0.10, 0.18); (-0.92, -0.10, 0.18);
  (0.55, -0.55, 0.35); (-0.55, -0.55, 0.35); (0.28, -0.55, -0.72);
  (-0.28, -0.55, -0.72); (0, 0.88, -0.55)
].

Record Anchor : Type := mkAnchor {
  pos : Vector3;
  regionIdx : Z;
  clickable : bool;
}.

Definition ALL_ANCHORS : list Anchor :=
  imap (fun i r => mkAnchor (position r) (Z.of_nat i) true) REGIONS
  ++ ((fun p => mkAnchor p (-1) false) <$> DUMMY).

(** *** Voronoi anchor map

    [vertexAnchorMap]: one anchor index per vertex of the position
    attribute; [anchors] stands for the module constant [ALL_ANCHORS],
    whose coordinates are written as decimal literals. *)
Section Classifier.
(** [x ** 2] *)
Variable pow2 : Q → Q.

(** [d2]: [(vx - ax) ** 2 + (vy - ay) ** 2 + (vz - az) ** 2], as the code
    computes it for the vertex [v] and the anchor position [a]. *)
Definition d2 (v a : Vector3) : Q :=
  let a := Double.literal a in
  Double.add (Double.add (pow2 (Double.sub (vx v) (vx a)))
                         (pow2 (Double.sub (vy v) (vy a))))
             (pow2 (Double.sub (vz v) (vz a))).

Definition nearestAnchor (anchors : list Anchor) (v : Vector3) : Z :=
  nearest (fun a => d2 v (pos a)) 0 anchors.

Definition vertexAnchorMap (anchors : list Anchor) (positions : list Vector3)
  : list Z :=
  nearestAnchor anchors <$> positions.

(** The memo computing the map has no [throw] and calls nothing that
    throws on a position attribute: it always completes. *)
Definition vertexAnchorMap_memo (anchors : list Anchor)
    (positions : list Vector3) : JS.completion (list Z) :=
  JS.Normal (vertexAnchorMap anchors positions).
End Classifier.

Definition rejects {A : Type} (c : JS.completion A) : Prop :=
  match c with JS.Throw _ => True | JS.Normal _ => False end.

(** *** Per-region sub-geometries

    A geometry is read through its attributes ([pos.getX(vi)], ...,
    [norm.getZ(vi)]) and its index buffer.  [P] is what the three reads of
    one attribute at one vertex return together.  An index buffer holds
    three entries per triangle, and so do [posArr] and [normArr] per
    vertex: they are modelled as lists of triangles and of vertices, so
    that [posArr.length / 3] is the length of [posArr]. *)

Section SubGeometry.
Context {P : Type}.

Record BufferGeometry : Type := mkGeometry {
  position_at : nat → P;
  normal_at : nat → P;
  index : list Face;
}.

(** The arrays built by [buildRegionGeo], with the [remap] table. *)
Record Builder : Type := mkBuilder {
  posArr : list P;
  normArr : list P;
  idxArr : list Face;
  remap : gmap nat nat;
}.

Definition addVert (fullGeo : BufferGeometry) (vi : nat) (st : Builder)
  : Builder * nat :=
  match remap st !! vi with
  | Some ni => (st, ni)
  | None =>
      let ni := length (posArr st) in
      (mkBuilder (posArr st ++ [position_at fullGeo vi])
                 (normArr st ++ [normal_at fullGeo vi])
                 (idxArr st)
                 (<[vi := ni]> (remap st)), ni)
  end.

(** [+(vertexAnchorMap[a] === targetIdx)] *)
Definition hit (vertexAnchorMap : list Z) (targetIdx : Z) (a : nat) : nat :=
  if bool_decide (vertexAnchorMap !! a = Some targetIdx) then 1 else 0.

Definition score (vertexAnchorMap : list Z) (targetIdx : Z) (f : Face) : nat :=
  let '(a, b, c) := f in
  hit vertexAnchorMap targetIdx a + hit vertexAnchorMap targetIdx b
  + hit vertexAnchorMap targetIdx c.

(** One iteration of the loop over the index buffer. *)
Definition buildStep (fullGeo : BufferGeometry) (vertexAnchorMap : list Z)
    (targetIdx : Z) (st : Builder) (f : Face) : Builder :=
  if bool_decide (2 ≤ score vertexAnchorMap targetIdx f)%nat then
    let '(a, b, c) := f in
    let '(st1, na) := addVert fullGeo a st in
    let '(st2, nb) := addVert fullGeo b st1 in
    let '(st3, nc) := addVert fullGeo c st2 in
    mkBuilder (posArr st3) (normArr st3) (idxArr st3 ++ [(na, nb, nc)])
              (remap st3)
  else st.

Definition buildRegionGeo (fullGeo : BufferGeometry)
    (vertexAnchorMap : list Z) (targetIdx : Z) : Builder :=
  foldl (buildStep fullGeo vertexAnchorMap targetIdx)
        (mkBuilder [] [] [] ∅) (index fullGeo).

(** [regionGeos]: one sub-geometry per entry of [REGIONS]. *)
Definition regionGeos (fullGeo : BufferGeometry) (vertexAnchorMap : list Z)
  : list Builder :=
  imap (fun ri _ => buildRegionGeo fullGeo vertexAnchorMap (Z.of_nat ri))
       REGIONS.

(** A triangle [(na, nb, nc)] of a sub-geometry shows the source
    triangle [(a, b, c)]: its corners carry the attributes of [a], [b]
    and [c]. *)
Definition shows_vertex (fullGeo : BufferGeometry) (out : Builder)
    (ni vi : nat) : Prop :=
  posArr out !! ni = Some (position_at fullGeo vi)
  ∧ normArr out !! ni = Some (normal_at fullGeo vi).

Definition shows (fullGeo : BufferGeometry) (out : Builder)
    (g f : Face) : Prop :=
  shows_vertex fullGeo out g.1.1 f.1.1
  ∧ shows_vertex fullGeo out g.1.2 f.1.2
  ∧ shows_vertex fullGeo out g.2 f.2.

(** The invariant of the construction: every remapped vertex carries the
    attributes of its source. *)
Definition remap_ok (fullGeo : BufferGeometry) (st : Builder) : Prop :=
  length (posArr st) = length (normArr st)
  ∧ ∀ vi ni, remap st !! vi = Some ni → shows_vertex fullGeo st ni vi.

(** [st'] only appends to the arrays of [st]. *)
Definition grows (st st' : Builder) : Prop :=
  posArr st `prefix_of` posArr st' ∧ normArr st `prefix_of` normArr st'.
End SubGeometry.
Arguments BufferGeometry : clear implicits.
Arguments Builder : clear implicits.

(** The majority rule in the spec's words: the number of vertices of a
    triangle that classify to [targetIdx], and the triangles of an index
    buffer in which at least 2 of the 3 do. *)
Definition agreeing (vertexAnchorMap : list Z) (targetIdx : Z) (f : Face)
  : nat :=
  length (filter (fun v => vertexAnchorMap !! v = Some targetIdx)
                 [f.1.1; f.1.2; f.2]).

Definition majority_faces (vertexAnchorMap : list Z) (targetIdx : Z)
    (faces : list Face) : list Face :=
  filter (fun f => (2 ≤ agreeing vertexAnchorMap targetIdx f)%nat) faces.

(** *** Frame loop *)

Record Material : Type := mkMaterial { visible : bool; opacity : Q }.

Definition visibility (dot : Q) : Q :=
  JS.Math_max 0 (JS.Math_min 1 (dot / 0.25)).

Definition baseOpacity (isSelected isHovered : bool) : Q :=
  if isSelected then (if isHovered then 0.75 else 0.60)
  else if isHovered then 0.40
  else 0.10.

(** The body of the loop for a region whose material is mounted. *)
Definition frameRegion (dot : Q) (isSelected isHovered : bool)
    (mat : Material) : Material :=
  let visibility := visibility dot in
  if JS.is_zero visibility then mkMaterial false (opacity mat)
  else mkMaterial true (baseOpacity isSelected isHovered * visibility).

Section Frame.
(** [Vector3.normalize] *)
Variable normalize : Vector3 → Vector3.

Definition REGION_FACING : list Vector3 :=
  (fun r => normalize (facing r)) <$> REGIONS.

(** One run of the [useFrame] callback over [matRefs.current], with
    [camera.position], [selectedRef.current] and [hoveredRef.current]. *)
Definition useFrame (cameraPosition : Vector3) (selected : list string)
    (hovered : Z) (matRefs : list (option Material))
  : list (option Material) :=
  let _camDir := normalize cameraPosition in
  imap (fun ri m =>
          match m, REGIONS !! ri, REGION_FACING !! ri with
          | Some mat, Some region, Some regionFacing =>
              Some (frameRegion (dot _camDir regionFacing)
                                (JS.includes selected (name region))
                                (bool_decide (hovered = Z.of_nat ri))
                                mat)
          | _, _, _ => m
          end) matRefs.
End Frame.

(** *** Picking and hovering

    A pointer event carries the face it hit, if any; [face.a] is the
    first vertex of the face. *)

(** [getRegionIdx]; reading [clickable] of an undefined anchor throws. *)
Definition getRegionIdx (anchors : list Anchor) (vertexAnchorMap : list Z)
    (face : option Face) : JS.completion Z :=
  match face with
  | None => JS.Normal (-1)%Z
  | Some f =>
      let anchor := vertexAnchorMap !! f.1.1 ≫= JS.index anchors in
      JS.bind (JS.member anchor clickable) (fun isClickable =>
      if isClickable then JS.member anchor regionIdx else JS.Normal (-1)%Z)
  end.

(** [handlePointerDown]: the name [onToggleRegion] is called with, if it
    is called. *)
Definition handlePointerDown (anchors : list Anchor)
    (vertexAnchorMap : list Z) (face : option Face)
  : JS.completion (option string) :=
  JS.bind (getRegionIdx anchors vertexAnchorMap face) (fun ri =>
  if (0 <=? ri)%Z
  then JS.bind (JS.member (JS.index REGIONS ri) name) (fun n =>
       JS.Normal (Some n))
  else JS.Normal None).

(** [hoveredRef.current] and [document.body.style.cursor]. *)
Record Pointer : Type := mkPointer { hovered : Z; cursor : string }.

Definition handlePointerMove (anchors : list Anchor)
    (vertexAnchorMap : list Z) (face : option Face) (p : Pointer)
  : JS.completion Pointer :=
  JS.bind (getRegionIdx anchors vertexAnchorMap face) (fun ri =>
  JS.Normal
    (if bool_decide (ri ≠ hovered p)
     then mkPointer ri (if (0 <=? ri)%Z then "pointer" else "auto")
     else p)).

Definition handlePointerOut (p : Pointer) : Pointer := mkPointer (-1) "auto".

(** Pointer events over the mesh, and a run of them. *)
Inductive PointerEvent : Type :=
| PointerMove (face : option Face)
| PointerOut.

Definition pointerStep (anchors : list Anchor) (vertexAnchorMap : list Z)
    (e : PointerEvent) (p : Pointer) : JS.completion Pointer :=
  match e with
  | PointerMove face => handlePointerMove anchors vertexAnchorMap face p
  | PointerOut => JS.Normal (handlePointerOut p)
  end.

Definition pointerRun (anchors : list Anchor) (vertexAnchorMap : list Z)
    (events : list PointerEvent) (p : Pointer) : JS.completion Pointer :=
  foldl (fun acc e =>
           JS.bind acc (pointerStep anchors vertexAnchorMap e))
        (JS.Normal p) events.

(** The cursor shows a pointer exactly while a region is hovered. *)
Definition pointer_ok (p : Pointer) : Prop :=
  cursor p = "pointer" ↔ (0 <= hovered p)%Z.

(** The face of a pointer event, if any, is a face of the mesh. *)
Definition on_mesh (vertexAnchorMap : list Z) (e : PointerEvent) : Prop :=
  match e with
  | PointerMove (Some f) => (f.1.1 < length vertexAnchorMap)%nat
  | _ => True
  end.

(** [order] lists the source vertices copied into a sub-geometry, in the
    order of their copies: each once, with [remap] sending a source
    vertex to the position of its copy. *)
Definition copies {P : Type} (fullGeo : BufferGeometry P) (st : Builder P)
    (order : list nat) : Prop :=
  NoDup order
  ∧ posArr st = position_at fullGeo <$> order
  ∧ normArr st = normal_at fullGeo <$> order
  ∧ ∀ vi ni, remap st !! vi = Some ni ↔ order !! ni = Some vi.

(** The triangle [g] of a sub-geometry is made of the copies of the
    vertices of the source triangle [f]. *)
Definition copy_of (order : list nat) (g f : Face) : Prop :=
  order !! g.1.1 = Some f.1.1
  ∧ order !! g.1.2 = Some f.1.2
  ∧ order !! g.2 = Some f.2.

(** What a run of the sub-geometry loop keeps: the copies are those of
    the vertices of the triangles taken so far, and each triangle written
    is made of the copies of the vertices of the triangle taken. *)
Definition compact {P : Type} (fullGeo : BufferGeometry P) (st : Builder P)
    (order : list nat) (taken : list Face) : Prop :=
  copies fullGeo st order
  ∧ Forall2 (copy_of order) (idxArr st) taken
  ∧ ∀ x, x ∈ order ↔ ∃ f, f ∈ taken ∧ x ∈ [f.1.1; f.1.2; f.2].

End Overlay.

(** ** The vertex-coloured head diagram (heatmap) *)

Module Heatmap.

Definition REGIONS : list (string * Vector3) := [
  ("Forehead", vec (0, 0.6, 0.8));
  ("Left temple", vec (0.6, 0.3, 0.4));
  ("Right temple", vec (-0.6, 0.3, 0.4));
  ("Behind left eye", vec (0.35, 0.15, 0.9));
  ("Behind right eye", vec (-0.35, 0.15, 0.9));
  ("Back of head", vec (0, 0.3, -0.9));
  ("Neck base", vec (0, -0.8, -0.2))
].

Definition DUMMY_REGIONS : list (string * Vector3) := [
  ("Nose", vec (0, -0.1, 1.0));
  ("Mouth", vec (0, -0.4, 0.9));
  ("Left cheek", vec (0.4, -0.3, 0.7));
  ("Right cheek", vec (-0.4, -0.3, 0.7));
  ("Left ear", vec (0.8, 0, 0));
  ("Right ear", vec (-0.8, 0, 0));
  ("Top of head", vec (0, 0.9, 0));
  ("Jaw", vec (0, -0.7, 0.5));
  ("Back of neck", vec (0, -0.6, -0.7))
].

Record VoronoiRegion : Type := mkVoronoi {
  name : string;
  position : Vector3;
  clickable : bool;
}.

Definition ALL_VORONOI_REGIONS : list VoronoiRegion :=
  ((fun r => mkVoronoi r.1 r.2 true) <$> REGIONS)
  ++ ((fun r => mkVoronoi r.1 r.2 false) <$> DUMMY_REGIONS).

(** *** Vertex regions *)

Section Classifier.
(** [Math.sqrt], as used by [Vector3.distanceTo]. *)
Variable Math_sqrt : Q → Q.

(** [v.distanceTo(new THREE.Vector3(...position))], as the code computes
    it for the vertex [v] and the position [a] of a region, which is
    written as decimal literals. *)
Definition distanceTo (v a : Vector3) : Q :=
  Math_sqrt (Double.distanceToSquared v (Double.literal a)).

Definition nearestRegion (regions : list VoronoiRegion) (v : Vector3) : Z :=
  nearest (fun r => distanceTo v (position r)) (-1) regions.

(** [vRegions], for [regions] standing for [ALL_VORONOI_REGIONS]. *)
Definition vertexRegions (regions : list VoronoiRegion)
    (positions : list Vector3) : list Z :=
  nearestRegion regions <$> positions.
End Classifier.

(** *** Boundary vertices

    [boundary] is a [Uint8Array] that only ever holds 0 and 1: a list of
    booleans, with one entry per vertex like [vRegions].  A write past its
    end is ignored, like [<[_:=_]>].  [ALL_VORONOI_REGIONS[vRegions[a]]] is
    [undefined] when [a] is no vertex or [vRegions[a]] no index of the
    table, and reading its [clickable] then throws. *)

(** The three classifications are not all the same. *)
Definition mixed (rA rB rC : option Z) : bool :=
  bool_decide (rA ≠ rB) || bool_decide (rB ≠ rC) || bool_decide (rA ≠ rC).

(** One iteration of the loop over the index buffer. *)
Definition markFace (regions : list VoronoiRegion) (vRegions : list Z)
    (boundary : list bool) (f : Face) : JS.completion (list bool) :=
  let '(a, b, c) := f in
  let rA := vRegions !! a in
  let rB := vRegions !! b in
  let rC := vRegions !! c in
  JS.bind (JS.member (rA ≫= JS.index regions) clickable) (fun isClickableA =>
  JS.bind (JS.member (rB ≫= JS.index regions) clickable) (fun isClickableB =>
  JS.bind (JS.member (rC ≫= JS.index regions) clickable) (fun isClickableC =>
  JS.Normal
    (if mixed rA rB rC && (isClickableA || isClickableB || isClickableC)
     then <[c := true]> (<[b := true]> (<[a := true]> boundary))
     else boundary)))).

(** [isBoundary]; the geometry's index may be [null]. *)
Definition isBoundary (regions : list VoronoiRegion) (vRegions : list Z)
    (index : option (list Face)) : JS.completion (list bool) :=
  let boundary := replicate (length vRegions) false in
  match index with
  | None => JS.Normal boundary
  | Some faces =>
      foldl (fun acc f => JS.bind acc (fun bd => markFace regions vRegions bd f))
            (JS.Normal boundary) faces
  end.

(** The marking rule in the spec's words: the three vertices of the
    triangle do not all share the same classification, and at least one
    of the three classifications is a clickable region. *)
Definition seam (regions : list VoronoiRegion) (vRegions : list Z) (f : Face)
  : Prop :=
  ∃ rA rB rC : Z,
    vRegions !! f.1.1 = Some rA
    ∧ vRegions !! f.1.2 = Some rB
    ∧ vRegions !! f.2 = Some rC
    ∧ ¬ (rA = rB ∧ rB = rC)
    ∧ ∃ r info, r ∈ [rA; rB; rC]
                ∧ JS.index regions r = Some info
                ∧ clickable info = true.

(** A vertex of a triangle. *)
Definition corner (v : nat) (f : Face) : Prop := v ∈ [f.1.1; f.1.2; f.2].

(** What the boundary pass relies on: every vertex is classified to an
    entry of [regions], and every triangle refers to vertices of the
    mesh. *)
Definition well_formed (regions : list VoronoiRegion) (vRegions : list Z)
    (faces : list Face) : Prop :=
  Forall (fun r => is_Some (JS.index regions r)) vRegions
  ∧ Forall (fun f => ∀ v, corner v f → (v < length vRegions)%nat) faces.

(** *** Vertex colours

    A [THREE.Color] holds three channels in the working colour space of
    the library.  [new THREE.Color('#rrggbb')] takes each channel of the
    string as a fraction of 255 and hands it to
    [ColorManagement.toWorkingColorSpace]: the conversion from sRGB to
    linear sRGB when colour management is enabled, and the identity when
    it is not.  That conversion of one channel is the parameter
    [toWorking]. *)

Record Color : Type := mkColor { cr : Q; cg : Q; cb : Q }.

(** [Color.lerp] *)
Definition lerp (c color : Color) (alpha : Q) : Color :=
  mkColor (cr c + (cr color - cr c) * alpha)
          (cg c + (cg color - cg c) * alpha)
          (cb c + (cb color - cb c) * alpha).

Definition Color_eq (c d : Color) : Prop :=
  cr c == cr d ∧ cg c == cg d ∧ cb c == cb d.

Section Colours.
Variable toWorking : Q → Q.

Definition hex (R G B : Z) : Color :=
  mkColor (toWorking (inject_Z R / 255)) (toWorking (inject_Z G / 255))
          (toWorking (inject_Z B / 255)).

Definition blue : Color := hex 147 197 253.     (* #93c5fd *)
Definition green : Color := hex 110 231 183.    (* #6ee7b7 *)
Definition yellow : Color := hex 253 224 71.    (* #fde047 *)
Definition orange : Color := hex 251 146 60.    (* #fb923c *)
Definition red : Color := hex 239 68 68.        (* #ef4444 *)

Definition intensityToColor (intensity : Q) : Color :=
  let t := JS.Math_max 0 (JS.Math_min 1 (intensity / 10)) in
  if JS.ltb t 0.25 then lerp blue green (t / 0.25)
  else if JS.ltb t 0.5 then lerp green yellow ((t - 0.25) / 0.25)
  else if JS.ltb t 0.75 then lerp yellow orange ((t - 0.5) / 0.25)
  else lerp orange red ((t - 0.75) / 0.25).

Definition baseColor : Color := hex 243 244 246.            (* #f3f4f6 *)
Definition selectedColor : Color := hex 252 165 165.        (* #fca5a5 *)
Definition hoveredColor : Color := hex 254 226 226.         (* #fee2e2 *)
Definition selectedHoveredColor : Color := hex 248 113 113. (* #f87171 *)
Definition boundaryColor : Color := hex 156 163 175.        (* #9ca3af *)

Record RegionIntensity : Type := mkRegionIntensity {
  region : string;
  intensity : Q;
}.

(** The lookup table built from the optional [regionIntensities]. *)
Definition intensityMap (regionIntensities : option (list RegionIntensity))
  : gmap string Q :=
  match regionIntensities with
  | None => ∅
  | Some l => foldl (fun m ri => <[region ri := intensity ri]> m) ∅ l
  end.

(** The colour chosen by the part of the loop that follows the read of
    [regionInfo]. *)
Definition regionColor (selectedRegions : list string)
    (hoveredRegion : option string) (intensities : gmap string Q)
    (regionInfo : VoronoiRegion) (isBoundary_i : bool) : Color :=
  if clickable regionInfo then
    let regionName := name regionInfo in
    let isSelected := JS.includes selectedRegions regionName in
    let isHovered := bool_decide (hoveredRegion = Some regionName) in
    let regionIntensity := intensities !! regionName in
    if isBoundary_i then boundaryColor
    else if match regionIntensity with
            | Some x => JS.ltb 0 x
            | None => false
            end
         then intensityToColor (default 0 regionIntensity)
    else if isSelected && isHovered then selectedHoveredColor
    else if isSelected then selectedColor
    else if isHovered then hoveredColor
    else baseColor
  else if isBoundary_i then boundaryColor
  else baseColor.

(** The body of the loop for vertex [i]; reading [.clickable] of an
    undefined [regionInfo] throws. *)
Definition vertexColor (regions : list VoronoiRegion)
    (selectedRegions : list string) (hoveredRegion : option string)
    (intensities : gmap string Q) (isBoundary : list bool)
    (i : nat) (rIdx : Z) : JS.completion Color :=
  match JS.index regions rIdx with
  | None => JS.Throw JS.TypeError
  | Some regionInfo =>
      JS.Normal (regionColor selectedRegions hoveredRegion intensities
                             regionInfo
                             (bool_decide (isBoundary !! i = Some true)))
  end.

Fixpoint collect {A : Type} (l : list (JS.completion A))
  : JS.completion (list A) :=
  match l with
  | [] => JS.Normal []
  | c :: rest =>
      JS.bind c (fun a => JS.bind (collect rest) (fun r => JS.Normal (a :: r)))
  end.

(** The [color] attribute of [coloredGeometry], one colour per vertex. *)
Definition coloredGeometry (regions : list VoronoiRegion)
    (vertexRegions : list Z) (isBoundary : list bool)
    (selectedRegions : list string) (hoveredRegion : option string)
    (regionIntensities : option (list RegionIntensity))
  : JS.completion (list Color) :=
  let intensities := intensityMap regionIntensities in
  collect (imap (vertexColor regions selectedRegions hoveredRegion
                             intensities isBoundary) vertexRegions).
End Colours.

(** The intensity supplied for a region: that of the last entry of
    [regionIntensities] that names it, if there is one. *)
Definition supplied (regionIntensities : option (list RegionIntensity))
    (regionName : string) : option Q :=
  match regionIntensities with
  | None => None
  | Some l => intensity <$> last (filter (fun ri => region ri = regionName) l)
  end.

(** *** Picking and hovering *)

(** [handlePointerDown]: the name [onToggleRegion] is called with, if it
    is called. *)
Definition handlePointerDown (regions : list VoronoiRegion)
    (vertexRegions : list Z) (face : option Face)
  : JS.completion (option string) :=
  match face with
  | None => JS.Normal None
  | Some f =>
      let regionInfo := vertexRegions !! f.1.1 ≫= JS.index regions in
      JS.bind (JS.member regionInfo clickable) (fun isClickable =>
      if isClickable
      then JS.bind (JS.member regionInfo name) (fun regionName =>
           JS.Normal (Some regionName))
      else JS.Normal None)
  end.

(** [hoveredRegion] and [document.body.style.cursor]. *)
Record Hover : Type := mkHover {
  hoveredRegion : option string;
  cursor : string;
}.

Definition handlePointerMove (regions : list VoronoiRegion)
    (vertexRegions : list Z) (face : option Face) (h : Hover)
  : JS.completion Hover :=
  match face with
  | None => JS.Normal h
  | Some f =>
      let regionInfo := vertexRegions !! f.1.1 ≫= JS.index regions in
      JS.bind (JS.member regionInfo clickable) (fun isClickable =>
      if isClickable then
        JS.bind (JS.member regionInfo name) (fun regionName =>
        JS.Normal (if bool_decide (hoveredRegion h ≠ Some regionName)
                   then mkHover (Some regionName) "pointer"
                   else h))
      else
        JS.Normal (if bool_decide (hoveredRegion h ≠ None)
                   then mkHover None "auto"
                   else h))
  end.

Definition handlePointerOut (h : Hover) : Hover := mkHover None "auto".

Inductive PointerEvent : Type :=
| PointerMove (face : option Face)
| PointerOut.

Definition pointerStep (regions : list VoronoiRegion) (vertexRegions : list Z)
    (e : PointerEvent) (h : Hover) : JS.completion Hover :=
  match e with
  | PointerMove face => handlePointerMove regions vertexRegions face h
  | PointerOut => JS.Normal (handlePointerOut h)
  end.

Definition pointerRun (regions : list VoronoiRegion) (vertexRegions : list Z)
    (events : list PointerEvent) (h : Hover) : JS.completion Hover :=
  foldl (fun acc e => JS.bind acc (pointerStep regions vertexRegions e))
        (JS.Normal h) events.

(** The face of a pointer event, if any, is a face of the mesh. *)
Definition on_mesh (vertexRegions : list Z) (e : PointerEvent) : Prop :=
  match e with
  | PointerMove (Some f) => (f.1.1 < length vertexRegions)%nat
  | _ => True
  end.

(** The cursor shows a pointer exactly while a region is hovered, and a
    hovered region is a clickable entry of the table. *)
Definition hover_ok (regions : list VoronoiRegion) (h : Hover) : Prop :=
  (cursor h = "pointer" ↔ is_Some (hoveredRegion h))
  ∧ ∀ regionName, hoveredRegion h = Some regionName →
      ∃ info, info ∈ regions ∧ name info = regionName
              ∧ clickable info = true.

End Heatmap.

(** ** Regular expressions

    A pattern of the shape [/^...$/] built from character classes,
    sequencing and repetition, tested on the UTF-16 code units of a string
    ([RegExp.prototype.test] without flags).  The matcher takes the
    derivative of the pattern by each code unit in turn. *)

Module RegExp.

Inductive t : Type :=
| Empty                      (* matches nothing *)
| Eps                        (* matches the empty string *)
| Class (p : N → bool)       (* one code unit of a class *)
| Seq (r s : t)
| Alt (r s : t)
| Star (r : t).

(** [r+] *)
Definition Plus (r : t) : t := Seq r (Star r).

Fixpoint nullable (r : t) : bool :=
  match r with
  | Empty => false
  | Eps => true
  | Class _ => false
  | Seq r s => nullable r && nullable s
  | Alt r s => nullable r || nullable s
  | Star _ => true
  end.

Fixpoint deriv (c : N) (r : t) : t :=
  match r with
  | Empty => Empty
  | Eps => Empty
  | Class p => if p c then Eps else Empty
  | Seq r s =>
      if nullable r then Alt (Seq (deriv c r) s) (deriv c s)
      else Seq (deriv c r) s
  | Alt r s => Alt (deriv c r) (deriv c s)
  | Star r => Seq (deriv c r) (Star r)
  end.

(** [/^r$/.test(s)] *)
Definition test (r : t) (s : list N) : bool :=
  nullable (foldl (fun r c => deriv c r) r s).

(** The strings a pattern matches. *)
Inductive lang : t → list N → Prop :=
| lang_eps : lang Eps []
| lang_class p c : p c = true → lang (Class p) [c]
| lang_seq r s u v : lang r u → lang s v → lang (Seq r s) (u ++ v)
| lang_alt_l r s u : lang r u → lang (Alt r s) u
| lang_alt_r r s u : lang s u → lang (Alt r s) u
| lang_star_nil r : lang (Star r) []
| lang_star_app r u v : lang r u → lang (Star r) v → lang (Star r) (u ++ v).

(** [\s]: the white space and line terminator code units. *)
Definition is_space (c : N) : bool :=
  bool_decide (c ∈ [9; 10; 11; 12; 13; 32; 160; 5760; 8232; 8233; 8239;
                    8287; 12288; 65279]%N)
  || ((8192 <=? c)%N && (c <=? 8202)%N).

(** The code units of a string of 8-bit characters. *)
Fixpoint code_units (s : string) : list N :=
  match s with
  | EmptyString => []
  | String a rest => Ascii.N_of_ascii a :: code_units rest
  end.

End RegExp.

(** ** The store *)

Module Store.

Record RegionLog : Type := mkRegionLog {
  region_name : string;
  intensity : Q;
}.

Record MigraineSession : Type := mkSession {
  id : string;
  user_id : string;
  start_time : string;
  end_time : string;
  notes : string;
  regions : list RegionLog;
}.

(** [Omit<MigraineSession, 'id' | 'user_id'>] *)
Module SessionData.
Record t : Type := mk {
  start_time : string;
  end_time : string;
  notes : string;
  regions : list RegionLog;
}.
End SessionData.

Module User.
Record t : Type := mk {
  id : string;
  email : string;
  created_at : string;
}.
End User.

Record RegionFrequency : Type := mkFrequency {
  region : string;
  count : nat;
  avgIntensity : Q;
}.

(** *** Region frequency

    [regionMap] is a [Map], which keeps its keys in insertion order: an
    association list in which [set] overwrites in place or appends. *)

(** A value of [regionMap]: [{ count, totalIntensity }]. *)
Record Tally : Type := mkTally { tcount : nat; totalIntensity : Q }.

Fixpoint Map_get {V : Type} (m : list (string * V)) (k : string) : option V :=
  match m with
  | [] => None
  | (k', v) :: rest => if bool_decide (k' = k) then Some v else Map_get rest k
  end.

Fixpoint Map_set {V : Type} (m : list (string * V)) (k : string) (v : V)
  : list (string * V) :=
  match m with
  | [] => [(k, v)]
  | (k', v') :: rest =>
      if bool_decide (k' = k) then (k, v) :: rest
      else (k', v') :: Map_set rest k v
  end.

(** The body of the inner [forEach]. *)
Definition tally (regionMap : list (string * Tally)) (r : RegionLog)
  : list (string * Tally) :=
  let existing := default (mkTally 0 0) (Map_get regionMap (region_name r)) in
  Map_set regionMap (region_name r)
          (mkTally (tcount existing + 1)
                   (totalIntensity existing + intensity r)).

(** [Array.prototype.sort] is stable: an insertion sort that puts [x]
    before the first later element [y] with [compareFn(x, y) <= 0]. *)
Section Sort.
Context {A : Type} (compareFn : A → A → Z).

Fixpoint sort_insert (x : A) (l : list A) : list A :=
  match l with
  | [] => [x]
  | y :: rest =>
      if (compareFn x y <=? 0)%Z then x :: y :: rest
      else y :: sort_insert x rest
  end.

Definition Array_sort (l : list A) : list A := foldr sort_insert [] l.
End Sort.

(** The entry of one region.  Sums, the quotient and the product by 10
    are exact here; the code computes them on doubles, with the same
    result when the intensities are whole numbers from 0 to 10, as the
    slider of the log page yields them, and the statement on
    [avgIntensity] is restricted to those. *)
Definition toFrequency (e : string * Tally) : RegionFrequency :=
  let '(region, data) := e in
  mkFrequency region (tcount data)
    (if bool_decide (0 < tcount data)%nat
     then inject_Z (JS.Math_round
                      (totalIntensity data / inject_Z (Z.of_nat (tcount data))
                       * 10)) / 10
     else 0).

Definition computeRegionFrequency (sessions : list MigraineSession)
  : list RegionFrequency :=
  let regionMap :=
    foldl (fun m session => foldl tally m (regions session)) [] sessions in
  Array_sort (fun a b => (Z.of_nat (count b) - Z.of_nat (count a))%Z)
             (toFrequency <$> regionMap).

(** What the analytics are expected to compute, in the spec's words: the
    occurrences of a region over all the logs of the sessions, and the
    mean of their intensities. *)
Definition allLogs (sessions : list MigraineSession) : list RegionLog :=
  concat (regions <$> sessions).

Definition occurrences (name : string) (logs : list RegionLog)
  : list RegionLog :=
  filter (fun r => region_name r = name) logs.

Definition Qsum (l : list Q) : Q := foldr Qplus 0 l.

Definition mean (name : string) (logs : list RegionLog) : Q :=
  Qsum (intensity <$> occurrences name logs)
  / inject_Z (Z.of_nat (length (occurrences name logs))).

(** An intensity as the log page saves it: a whole number from 0 to
    10. *)
Definition slider_value (x : Q) : Prop :=
  ∃ n : Z, (0 <= n <= 10)%Z ∧ x == inject_Z n.

(** [a] is [x] rounded to one decimal place: a whole number of tenths,
    at most half a tenth away from [x]. *)
Definition rounded_to_tenth (x a : Q) : Prop :=
  (∃ n : Z, a == inject_Z n / 10)
  ∧ x - (1 # 20) < a ∧ a <= x + (1 # 20).

(** The invariant of the tallying loop, after the logs [logs]: the keys
    of [regionMap] are distinct, and a region has an entry exactly when it
    occurs, holding the number of its occurrences and the sum of their
    intensities. *)
Definition tally_ok (regionMap : list (string * Tally))
    (logs : list RegionLog) : Prop :=
  NoDup regionMap.*1
  ∧ ∀ name,
      match Map_get regionMap name with
      | None => occurrences name logs = []
      | Some t =>
          occurrences name logs ≠ []
          ∧ tcount t = length (occurrences name logs)
          ∧ totalIntensity t == Qsum (intensity <$> occurrences name logs)
      end.

(** *** State and actions *)

Record AppState : Type := mkState {
  currentUser : option User.t;
  sessions : list MigraineSession;
}.

(** A partial state handed to zustand's [set], which merges it into the
    current state. *)
Record Partial : Type := mkPartial {
  set_currentUser : option (option User.t);
  set_sessions : option (list MigraineSession);
}.

Definition set (p : Partial) (st : AppState) : AppState :=
  mkState (default (currentUser st) (set_currentUser p))
          (default (sessions st) (set_sessions p)).

(** [addSession]; [uuid] is the identifier [uuidv4()] returns when it is
    called. *)
Definition addSession (uuid : string) (sessionData : SessionData.t)
    (st : AppState) : AppState :=
  match currentUser st with
  | None => st
  | Some user =>
      let newSession :=
        mkSession uuid (User.id user)
                  (SessionData.start_time sessionData)
                  (SessionData.end_time sessionData)
                  (SessionData.notes sessionData)
                  (SessionData.regions sessionData) in
      set (mkPartial None (Some (sessions st ++ [newSession]))) st
  end.

(** *** Email validation and the other actions *)

Definition at_sign : N := 64.
Definition full_stop : N := 46.

(** [[^\s@]] *)
Definition email_char (c : N) : bool :=
  negb (RegExp.is_space c) && negb (c =? at_sign)%N.

(** [/^[^\s@]+@[^\s@]+\.[^\s@]+$/] *)
Definition EMAIL : RegExp.t :=
  RegExp.Seq (RegExp.Plus (RegExp.Class email_char))
    (RegExp.Seq (RegExp.Class (fun c => (c =? at_sign)%N))
       (RegExp.Seq (RegExp.Plus (RegExp.Class email_char))
          (RegExp.Seq (RegExp.Class (fun c => (c =? full_stop)%N))
             (RegExp.Plus (RegExp.Class email_char))))).

Definition isValidEmail (email : string) : bool :=
  RegExp.test EMAIL (RegExp.code_units email).

(** [login]; [uuid] and [now] are what [uuidv4()] and
    [new Date().toISOString()] return when they are called.  The result
    pairs the new state with the returned message ([None] for [null]). *)
Definition login (uuid now : string) (email : string) (st : AppState)
  : AppState * option string :=
  if negb (isValidEmail email)
  then (st, Some "Please enter a valid email address.")
  else
    let user := User.mk uuid email now in
    (set (mkPartial (Some (Some user)) None) st, None).

Definition logout (st : AppState) : AppState :=
  set (mkPartial (Some None) None) st.

Definition deleteSession (id' : string) (st : AppState) : AppState :=
  set (mkPartial None (Some (filter (fun s => id s ≠ id') (sessions st)))) st.

(** The actions of the store, to speak of any one of them. *)
Inductive Action : Type :=
| Login (uuid now email : string)
| Logout
| AddSession (uuid : string) (sessionData : SessionData.t)
| DeleteSession (id' : string).

Definition step (a : Action) (st : AppState) : AppState :=
  match a with
  | Login uuid now email => (login uuid now email st).1
  | Logout => logout st
  | AddSession uuid sessionData => addSession uuid sessionData st
  | DeleteSession id' => deleteSession id' st
  end.

End Store.

(** ** The log page *)

Module LogPage.

(** The component state touched by the toggle callback.  The page exists
    in two versions, with and without [painTypes]; the updater of
    [selectedRegions] is the same in both. *)
Record State : Type := mkState {
  selectedRegions : list string;
  intensities : gmap string Q;
  painTypes : gmap string (list string);
}.

(** The updater passed to [setSelectedRegions]. *)
Definition toggle (region : string) (prev : list string) : list string :=
  if JS.includes prev region
  then filter (fun r => r ≠ region) prev
  else prev ++ [region].

(** [handleToggleRegion], as one state transition. *)
Definition handleToggleRegion (region : string) (st : State) : State :=
  if JS.includes (selectedRegions st) region
  then mkState (toggle region (selectedRegions st))
               (delete region (intensities st))
               (delete region (painTypes st))
  else mkState (toggle region (selectedRegions st))
               (<[region := 5]> (intensities st))
               (<[region := []]> (painTypes st)).

(** [handleIntensityChange] *)
Definition handleIntensityChange (region : string) (value : Q) (st : State)
  : State :=
  mkState (selectedRegions st) (<[region := value]> (intensities st))
          (painTypes st).

(** [handleTogglePainType] *)
Definition handleTogglePainType (region type : string) (st : State) : State :=
  let currentTypes := default [] (painTypes st !! region) in
  let newTypes :=
    if JS.includes currentTypes type
    then filter (fun t => t ≠ type) currentTypes
    else currentTypes ++ [type] in
  mkState (selectedRegions st) (intensities st)
          (<[region := newTypes]> (painTypes st)).

(** What the user can do to the selection: press a region (on the head
    or in the side list), and, for a region that is selected and so has
    its controls on the page, move its intensity slider or press one of
    its pain types. *)
Inductive Event : Type :=
| ToggleRegion (region : string)
| ChangeIntensity (region : string) (value : Q)
| TogglePainType (region type : string).

Definition handle (e : Event) (st : State) : State :=
  match e with
  | ToggleRegion region => handleToggleRegion region st
  | ChangeIntensity region value => handleIntensityChange region value st
  | TogglePainType region type => handleTogglePainType region type st
  end.

Definition offered (e : Event) (st : State) : Prop :=
  match e with
  | ToggleRegion _ => True
  | ChangeIntensity region _ | TogglePainType region _ =>
      region ∈ selectedRegions st
  end.

(** The states the page can be in: it starts with nothing selected. *)
Inductive reachable : State → Prop :=
| reachable_initial : reachable (mkState [] ∅ ∅)
| reachable_handle e st :
    reachable st → offered e st → reachable (handle e st).

(** [intensities[name] || 5]: a missing intensity and an intensity of 0
    are both replaced by 5. *)
Definition intensityOr5 (intensities : gmap string Q) (name : string) : Q :=
  match intensities !! name with
  | Some v => if JS.is_zero v then 5 else v
  | None => 5
  end.

(** What [handleSubmit] ends in: an [alert], or a call of [addSession]
    followed by the move to the dashboard. *)
Inductive Submission : Type :=
| Alert (message : string)
| Submitted (sessionData : Store.SessionData.t).

Definition RangeError : string := "RangeError".

Section Submit.
(** [new Date(s).getTime()], [None] for an invalid date, and
    [Date.prototype.toISOString] on a valid one. *)
Variable Date_parse : string → option Z.
Variable toISOString : Z → string.

(** [end < start] on dates: false when either is invalid. *)
Definition date_lt (d1 d2 : option Z) : bool :=
  match d1, d2 with
  | Some t1, Some t2 => (t1 <? t2)%Z
  | _, _ => false
  end.

(** [handleSubmit] (in the version of the page without pain types), for
    the form fields [startTime], [endTime] and [notes]. *)
Definition handleSubmit (st : State) (startTime endTime notes : string)
  : JS.completion Submission :=
  if bool_decide (length (selectedRegions st) = 0%nat) then
    JS.Normal (Alert "Please select at least one region.")
  else if bool_decide (startTime = "") || bool_decide (endTime = "") then
    JS.Normal (Alert "Please select start and end times.")
  else
    let start := Date_parse startTime in
    let end_ := Date_parse endTime in
    if date_lt end_ start then
      JS.Normal (Alert "End time cannot be before start time.")
    else
      let regions :=
        (fun name => Store.mkRegionLog name (intensityOr5 (intensities st) name))
        <$> selectedRegions st in
      match start, end_ with
      | Some t1, Some t2 =>
          JS.Normal (Submitted (Store.SessionData.mk (toISOString t1)
                                  (toISOString t2) notes regions))
      | _, _ => JS.Throw RangeError
      end.
End Submit.

(** The selection holds no region twice, and the regions with an
    intensity, like those with pain types, are the selected ones. *)
Definition consistent (st : State) : Prop :=
  NoDup (selectedRegions st)
  ∧ dom (intensities st) =@{gset string} list_to_set (selectedRegions st)
  ∧ dom (painTypes st) =@{gset string} list_to_set (selectedRegions st).

End LogPage.

(** ** The dashboard *)

Module Dashboard.

(** [sessions.filter(s => s.user_id === currentUser.id)] *)
Definition userSessions (currentUser : Store.User.t)
    (sessions : list Store.MigraineSession) : list Store.MigraineSession :=
  filter (fun s => Store.user_id s = Store.User.id currentUser) sessions.

(** The three accumulators of the summary loop. *)
Record Totals : Type := mkTotals {
  totalDurationMinutes : Z;
  totalIntensity : Q;
  totalRegionsLogged : nat;
}.

Section Summary.
(** [differenceInMinutes(parseISO(end_time), parseISO(start_time))], a
    whole number of minutes. *)
Variable minutesBetween : string → string → Z.

(** The body of the outer [forEach]. *)
Definition addToTotals (acc : Totals) (session : Store.MigraineSession)
  : Totals :=
  let minutes :=
    Z.max 0 (minutesBetween (Store.end_time session)
                            (Store.start_time session)) in
  foldl (fun acc r =>
           mkTotals (totalDurationMinutes acc)
                    (totalIntensity acc + Store.intensity r)
                    (totalRegionsLogged acc + 1))
        (mkTotals (totalDurationMinutes acc + minutes)
                  (totalIntensity acc) (totalRegionsLogged acc))
        (Store.regions session).

Definition totals (userSessions : list Store.MigraineSession) : Totals :=
  foldl addToTotals (mkTotals 0 0 0) userSessions.

Definition avgDuration (userSessions : list Store.MigraineSession) : Z :=
  let totalLogs := length userSessions in
  if bool_decide (0 < totalLogs)%nat
  then JS.Math_round (inject_Z (totalDurationMinutes (totals userSessions))
                      / inject_Z (Z.of_nat totalLogs))
  else 0%Z.
End Summary.

Definition regionFrequency (currentUser : Store.User.t)
    (sessions : list Store.MigraineSession) : list Store.RegionFrequency :=
  Store.computeRegionFrequency (userSessions currentUser sessions).

(** [regionFrequency.length > 0 ? regionFrequency[0] : null] *)
Definition mostAffectedRegion (regionFrequency : list Store.RegionFrequency)
  : option Store.RegionFrequency :=
  head regionFrequency.

Definition heatmapIntensities (regionFrequency : list Store.RegionFrequency)
  : list Heatmap.RegionIntensity :=
  (fun rf => Heatmap.mkRegionIntensity (Store.region rf)
                                       (Store.avgIntensity rf))
  <$> regionFrequency.

End Dashboard.

(** ** Mesh normalisation

    Both head diagrams bring the loaded mesh to a standard size before
    classifying its vertices:
<<
      geo.computeBoundingBox();
      const box = geo.boundingBox!;
      const center = new THREE.Vector3();
      box.getCenter(center);
      geo.translate(-center.x, -center.y, -center.z);
      const height = box.max.y - box.min.y;
      geo.scale(2 / height, 2 / height, 2 / height);
>>
    The geometry is modelled by its position buffer.  The three.js calls
    are modelled by what they do to it: [computeBoundingBox] expands an
    empty box by every vertex, [getCenter] is the midpoint of the box,
    [translate] and [scale] act on every vertex, and both recompute the
    bounding box of the geometry in place, so that [box] holds the box of
    the translated mesh when [height] is read. *)

Module Mesh.

Record Box3 : Type := mkBox3 { min : Vector3; max : Vector3 }.

(** [Box3.expandByPoint] *)
Definition expandByPoint (box : Box3) (p : Vector3) : Box3 :=
  mkBox3 (mkVector3 (JS.Math_min (vx (min box)) (vx p))
                    (JS.Math_min (vy (min box)) (vy p))
                    (JS.Math_min (vz (min box)) (vz p)))
         (mkVector3 (JS.Math_max (vx (max box)) (vx p))
                    (JS.Math_max (vy (max box)) (vy p))
                    (JS.Math_max (vz (max box)) (vz p))).

(** [computeBoundingBox].  The empty box, whose corners are infinite, is
    [None]; expanding it by a first vertex [p] gives the box from [p] to
    [p]. *)
Definition computeBoundingBox (positions : list Vector3) : option Box3 :=
  match positions with
  | [] => None
  | p :: rest => Some (foldl expandByPoint (mkBox3 p p) rest)
  end.

(** [Box3.getCenter] of a box that is not empty *)
Definition getCenter (box : Box3) : Vector3 :=
  mkVector3 ((vx (min box) + vx (max box)) * 0.5)
            ((vy (min box) + vy (max box)) * 0.5)
            ((vz (min box) + vz (max box)) * 0.5).

(** [geo.translate(x, y, z)] *)
Definition translate (x y z : Q) (positions : list Vector3) : list Vector3 :=
  (fun p => mkVector3 (vx p + x) (vy p + y) (vz p + z)) <$> positions.

(** [geo.scale(x, y, z)] *)
Definition scale (x y z : Q) (positions : list Vector3) : list Vector3 :=
  (fun p => mkVector3 (vx p * x) (vy p * y) (vz p * z)) <$> positions.

(** The normalised position buffer.  A mesh without vertices stays as it
    is.  A mesh of height zero is scaled by [2 / 0], which leaves no
    finite coordinates: that outcome is [None]. *)
Definition normalizedGeometry (positions : list Vector3)
  : option (list Vector3) :=
  match computeBoundingBox positions with
  | None => Some positions
  | Some box =>
      let center := getCenter box in
      let translated :=
        translate (- vx center) (- vy center) (- vz center) positions in
      match computeBoundingBox translated with
      | None => Some translated
      | Some box =>
          let height := vy (max box) - vy (min box) in
          if JS.is_zero height then None
          else Some (scale (2 / height) (2 / height) (2 / height) translated)
      end
  end.

(** [lo] and [hi] are the least and the greatest value of the coordinate
    [f] over the vertices. *)
Definition extent (f : Vector3 → Q) (positions : list Vector3) (lo hi : Q)
  : Prop :=
  (∀ p, p ∈ positions → lo <= f p ∧ f p <= hi)
  ∧ (∃ p, p ∈ positions ∧ f p == lo)
  ∧ (∃ p, p ∈ positions ∧ f p == hi).

End Mesh.

(** * Properties *)

(** ** Numbers *)

Lemma ltb_lt (a b : Q) : JS.ltb a b = true ↔ a < b.
Proof.
  unfold JS.ltb. rewrite Qlt_alt. destruct (a ?= b); split; congruence.
Qed.

Lemma ltb_ge (a b : Q) : JS.ltb a b = false ↔ b <= a.
Proof.
  split; intros H.
  - apply Qnot_lt_le. intros Hlt. apply ltb_lt in Hlt. congruence.
  - destruct (JS.ltb a b) eqn:E; [|done].
    apply ltb_lt in E. apply Qle_not_lt in H. contradiction.
Qed.

Lemma is_zero_eq (x : Q) : JS.is_zero x = true ↔ x == 0.
Proof. apply Qeq_bool_iff. Qed.

Lemma div_quarter (x : Q) : x / 0.25 == 4 * x.
Proof. field. Qed.

(** The clamp [Math.max(0, Math.min(1, x))]. *)
Lemma clamp_cases (x : Q) :
  (x <= 0 ∧ JS.Math_max 0 (JS.Math_min 1 x) == 0)
  ∨ (0 < x ∧ x < 1 ∧ JS.Math_max 0 (JS.Math_min 1 x) == x)
  ∨ (1 <= x ∧ JS.Math_max 0 (JS.Math_min 1 x) == 1).
Proof.
  unfold JS.Math_max, JS.Math_min.
  destruct (Q.min_spec 1 x) as [[H1 E1]|[H1 E1]];
    destruct (Q.max_spec 0 (Qmin 1 x)) as [[H2 E2]|[H2 E2]];
    rewrite E2; rewrite E1 in *.
  - right; right. split; [lra | reflexivity].
  - lra.
  - destruct (Qlt_le_dec x 1); [right; left; lra | right; right; lra].
  - left. lra.
Qed.

(** ** Camera visibility and overlay opacity *)

Lemma visibility_cases (d : Q) :
  (d <= 0 ∧ Overlay.visibility d == 0)
  ∨ (0 < d ∧ d < 0.25 ∧ Overlay.visibility d == d / 0.25)
  ∨ (0.25 <= d ∧ Overlay.visibility d == 1).
Proof.
  unfold Overlay.visibility.
  pose proof (div_quarter d) as Hq.
  destruct (clamp_cases (d / 0.25)) as [[H E]|[(H1 & H2 & E)|[H E]]].
  - left. split; [lra | exact E].
  - right; left. repeat split; [lra | lra | exact E].
  - right; right. split; [lra | exact E].
Qed.

Lemma visibility_mono (d1 d2 : Q) :
  d1 <= d2 → Overlay.visibility d1 <= Overlay.visibility d2.
Proof.
  intros Hle.
  pose proof (div_quarter d1) as Hq1. pose proof (div_quarter d2) as Hq2.
  destruct (visibility_cases d1) as [[H E]|[(H1 & H2 & E)|[H E]]];
    destruct (visibility_cases d2) as [[H' E']|[(H1' & H2' & E')|[H' E']]];
    rewrite E, E'; lra.
Qed.

Lemma frameRegion_hidden (d : Q) (isSelected isHovered : bool)
    (mat : Overlay.Material) :
  Overlay.visibility d == 0 →
  Overlay.frameRegion d isSelected isHovered mat
  = Overlay.mkMaterial false (Overlay.opacity mat).
Proof.
  intros Hz. unfold Overlay.frameRegion.
  apply is_zero_eq in Hz. by rewrite Hz.
Qed.

Lemma frameRegion_shown (d : Q) (isSelected isHovered : bool)
    (mat : Overlay.Material) :
  0 < Overlay.visibility d →
  Overlay.frameRegion d isSelected isHovered mat
  = Overlay.mkMaterial true
      (Overlay.baseOpacity isSelected isHovered * Overlay.visibility d).
Proof.
  intros Hpos. unfold Overlay.frameRegion.
  destruct (JS.is_zero (Overlay.visibility d)) eqn:E; [|done].
  apply is_zero_eq in E. lra.
Qed.

Lemma useFrame_lookup (normalize : Vector3 → Vector3) (cameraPosition : Vector3)
    (selected : list string) (hovered : Z)
    (matRefs : list (option Overlay.Material)) (ri : nat)
    (mat : Overlay.Material) (region : Overlay.Region) :
  matRefs !! ri = Some (Some mat) →
  Overlay.REGIONS !! ri = Some region →
  Overlay.useFrame normalize cameraPosition selected hovered matRefs !! ri
  = Some (Some (Overlay.frameRegion
                  (dot (normalize cameraPosition)
                       (normalize (Overlay.facing region)))
                  (JS.includes selected (Overlay.name region))
                  (bool_decide (hovered = Z.of_nat ri))
                  mat)).
Proof.
  intros Hm Hr.
  assert (Hf : Overlay.REGION_FACING normalize !! ri
               = Some (normalize (Overlay.facing region))).
  { unfold Overlay.REGION_FACING. by rewrite list_lookup_fmap, Hr. }
  unfold Overlay.useFrame. rewrite list_lookup_imap, Hm.
  cbn [fmap option_fmap option_map]. by rewrite Hr, Hf.
Qed.

(** C2. The visibility score is the clamp of [dot / 0.25] to [0, 1]: it
    is non-decreasing in [dot], 0 for [dot <= 0], 1 for [dot >= 0.25] and
    [dot / 0.25] in between; and in a frame where a region's visibility
    is 0 its overlay material is made invisible, its opacity untouched,
    whatever the selection and the hovered region are. *)
Theorem visibility_ramp_and_culling :
  (∀ d1 d2 : Q, d1 <= d2 → Overlay.visibility d1 <= Overlay.visibility d2)
  ∧ (∀ d : Q, d <= 0 → Overlay.visibility d == 0)
  ∧ (∀ d : Q, 0.25 <= d → Overlay.visibility d == 1)
  ∧ (∀ d : Q, 0 <= d <= 0.25 → Overlay.visibility d == d / 0.25)
  ∧ (∀ (normalize : Vector3 → Vector3) (cameraPosition : Vector3)
       (selected : list string) (hovered : Z)
       (matRefs : list (option Overlay.Material)) (ri : nat)
       (mat : Overlay.Material) (region : Overlay.Region),
        matRefs !! ri = Some (Some mat) →
        Overlay.REGIONS !! ri = Some region →
        Overlay.visibility (dot (normalize cameraPosition)
                                (normalize (Overlay.facing region))) == 0 →
        Overlay.useFrame normalize cameraPosition selected hovered matRefs !! ri
        = Some (Some (Overlay.mkMaterial false (Overlay.opacity mat)))).
Proof.
  split; [exact visibility_mono|].
  split.
  { intros d Hd. destruct (visibility_cases d) as [[H E]|[(H1 & H2 & E)|[H E]]];
      [exact E | lra | lra]. }
  split.
  { intros d Hd. destruct (visibility_cases d) as [[H E]|[(H1 & H2 & E)|[H E]]];
      [lra | lra | exact E]. }
  split.
  { intros d [Hd0 Hd1]. pose proof (div_quarter d) as Hq.
    destruct (visibility_cases d) as [[H E]|[(H1 & H2 & E)|[H E]]];
      [|exact E|]; rewrite E; lra. }
  intros normalize cameraPosition selected hovered matRefs ri mat region Hm Hr Hz.
  rewrite (useFrame_lookup _ _ _ _ _ _ _ _ Hm Hr).
  by rewrite (frameRegion_hidden _ _ _ _ Hz).
Qed.

(** A camera behind the head, at (0,0,-1), with the forehead overlay
    mounted, selected and hovered; [normalize] here projects on the z axis,
    so that the forehead faces (0,0,1) and [dot] is -1: the overlay is
    hidden. *)
Lemma visibility_ramp_and_culling_witness :
  Overlay.visibility (-1) == 0
  ∧ Overlay.visibility 1 == 1
  ∧ Overlay.visibility (1 # 10) <= Overlay.visibility (2 # 10)
  ∧ Overlay.useFrame (fun v => mkVector3 0 0 (vz v / Qabs (vz v)))
                     (mkVector3 0 0 (-1)) ["Frontal (Forehead)"] 0
                     [Some (Overlay.mkMaterial true 0.1)] !! 0%nat
    = Some (Some (Overlay.mkMaterial false 0.1)).
Proof.
  destruct visibility_ramp_and_culling as (Hmono & H0 & H1 & _ & Hcull).
  split; [apply H0; lra|].
  split; [apply H1; lra|].
  split; [apply Hmono; lra|].
  eapply (Hcull _ _ _ _ _ 0%nat (Overlay.mkMaterial true 0.1));
    [reflexivity | reflexivity | vm_compute; reflexivity].
Defined.

(** C3. In a frame in which a region's visibility is positive, the frame
    loop shows the region's overlay and sets its opacity to
    [baseOpacity * visibility], with [baseOpacity] 0.75 when the region is
    selected and hovered, 0.60 when selected only, 0.40 when hovered only
    and 0.10 otherwise; selected meaning that the region's name is in
    [selectedRef.current], hovered that [hoveredRef.current] is the
    region's index.  So for one camera position, hence at equal
    visibility, the opacities the loop writes in those four states are
    strictly ordered. *)
Theorem opacity_table_and_ordering (normalize : Vector3 → Vector3)
    (cameraPosition : Vector3) (matRefs : list (option Overlay.Material))
    (ri : nat) (mat : Overlay.Material) (region : Overlay.Region) :
  matRefs !! ri = Some (Some mat) →
  Overlay.REGIONS !! ri = Some region →
  let visibility :=
    Overlay.visibility (dot (normalize cameraPosition)
                            (normalize (Overlay.facing region))) in
  0 < visibility →
  let written := fun (selected : list string) (hovered : Z) (op : Q) =>
    Overlay.useFrame normalize cameraPosition selected hovered matRefs !! ri
    = Some (Some (Overlay.mkMaterial true op)) in
  (∀ (selected : list string) (hovered : Z),
      ∃ op : Q,
        written selected hovered op
        ∧ (Overlay.name region ∈ selected → hovered = Z.of_nat ri →
           op == 0.75 * visibility)
        ∧ (Overlay.name region ∈ selected → hovered ≠ Z.of_nat ri →
           op == 0.60 * visibility)
        ∧ (Overlay.name region ∉ selected → hovered = Z.of_nat ri →
           op == 0.40 * visibility)
        ∧ (Overlay.name region ∉ selected → hovered ≠ Z.of_nat ri →
           op == 0.10 * visibility))
  ∧ (∀ (s1 s2 s3 s4 : list string) (h1 h2 h3 h4 : Z) (op1 op2 op3 op4 : Q),
        written s1 h1 op1 → written s2 h2 op2 →
        written s3 h3 op3 → written s4 h4 op4 →
        Overlay.name region ∈ s1 → h1 = Z.of_nat ri →
        Overlay.name region ∈ s2 → h2 ≠ Z.of_nat ri →
        Overlay.name region ∉ s3 → h3 = Z.of_nat ri →
        Overlay.name region ∉ s4 → h4 ≠ Z.of_nat ri →
        op2 < op1 ∧ op3 < op2 ∧ op4 < op3).
Proof.
  intros Hm Hr visibility Hpos written.
  assert (Hw : ∀ selected hovered,
             written selected hovered
               (Overlay.baseOpacity
                  (JS.includes selected (Overlay.name region))
                  (bool_decide (hovered = Z.of_nat ri)) * visibility)).
  { intros selected hovered. unfold written.
    rewrite (useFrame_lookup _ _ _ _ _ _ _ _ Hm Hr).
    by rewrite (frameRegion_shown _ _ _ _ Hpos). }
  assert (Hbase : ∀ selected hovered,
             (Overlay.name region ∈ selected → hovered = Z.of_nat ri →
              Overlay.baseOpacity
                (JS.includes selected (Overlay.name region))
                (bool_decide (hovered = Z.of_nat ri)) = 0.75)
             ∧ (Overlay.name region ∈ selected → hovered ≠ Z.of_nat ri →
                Overlay.baseOpacity
                  (JS.includes selected (Overlay.name region))
                  (bool_decide (hovered = Z.of_nat ri)) = 0.60)
             ∧ (Overlay.name region ∉ selected → hovered = Z.of_nat ri →
                Overlay.baseOpacity
                  (JS.includes selected (Overlay.name region))
                  (bool_decide (hovered = Z.of_nat ri)) = 0.40)
             ∧ (Overlay.name region ∉ selected → hovered ≠ Z.of_nat ri →
                Overlay.baseOpacity
                  (JS.includes selected (Overlay.name region))
                  (bool_decide (hovered = Z.of_nat ri)) = 0.10)).
  { intros selected hovered. unfold JS.includes.
    repeat split; intros Hs Hh.
    - by rewrite !bool_decide_eq_true_2.
    - by rewrite bool_decide_eq_true_2, bool_decide_eq_false_2.
    - by rewrite bool_decide_eq_false_2, bool_decide_eq_true_2.
    - by rewrite !bool_decide_eq_false_2. }
  split.
  - intros selected hovered.
    destruct (Hbase selected hovered) as (H1 & H2 & H3 & H4).
    eexists. split; [apply Hw|].
    repeat split; intros Hs Hh.
    + by rewrite H1.
    + by rewrite H2.
    + by rewrite H3.
    + by rewrite H4.
  - intros s1 s2 s3 s4 h1 h2 h3 h4 op1 op2 op3 op4 W1 W2 W3 W4
           Hs1 Hh1 Hs2 Hh2 Hs3 Hh3 Hs4 Hh4.
    unfold written in W1, W2, W3, W4.
    rewrite (Hw s1 h1) in W1. rewrite (Hw s2 h2) in W2.
    rewrite (Hw s3 h3) in W3. rewrite (Hw s4 h4) in W4.
    injection W1 as <-. injection W2 as <-.
    injection W3 as <-. injection W4 as <-.
    destruct (Hbase s1 h1) as (E1 & _).
    destruct (Hbase s2 h2) as (_ & E2 & _).
    destruct (Hbase s3 h3) as (_ & _ & E3 & _).
    destruct (Hbase s4 h4) as (_ & _ & _ & E4).
    rewrite (E1 Hs1 Hh1), (E2 Hs2 Hh2), (E3 Hs3 Hh3), (E4 Hs4 Hh4).
    repeat split; lra.
Qed.

(** A camera in front of the head, at (0,0,1), with the forehead overlay
    mounted; [normalize] here projects on the z axis, so that the forehead
    faces (0,0,1) and its visibility is 1.  Selected and hovered, the
    overlay gets opacity 0.75. *)
Lemma opacity_table_and_ordering_witness :
  ∃ op : Q,
    Overlay.useFrame (fun v => mkVector3 0 0 (vz v / Qabs (vz v)))
                     (mkVector3 0 0 1) ["Frontal (Forehead)"] 0
                     [Some (Overlay.mkMaterial false 0.1)] !! 0%nat
    = Some (Some (Overlay.mkMaterial true op))
    ∧ op == 0.75 * 1.
Proof.
  destruct (opacity_table_and_ordering
              (fun v => mkVector3 0 0 (vz v / Qabs (vz v)))
              (mkVector3 0 0 1) [Some (Overlay.mkMaterial false 0.1)] 0%nat
              (Overlay.mkMaterial false 0.1)
              (Overlay.mkRegion "Frontal (Forehead)" (vec (0, 0.70, 0.72))
                                (vec (0, 0.25, 1)))
              eq_refl eq_refl) as [Htable _].
  - vm_compute. reflexivity.
  - destruct (Htable ["Frontal (Forehead)"] 0%Z) as (op & Hw & H1 & _).
    exists op. split; [exact Hw|].
    rewrite H1; [|apply list_elem_of_here | reflexivity].
    vm_compute. reflexivity.
Defined.

(** ** Nearest-anchor classification *)

Section ScanFacts.
Context {A : Type} (key : A → Q).

(** Either no anchor from index [a] on beats [minD], and [best] is
    kept; or the result is the index of the first anchor of least key
    among those, and it beats [minD]. *)
Lemma scan_spec (anchors : list A) :
  ∀ (a : nat) (minD : JS.Number) (best : Z),
    (scan key anchors a minD best = best
     ∧ ∀ j r, anchors !! j = Some r → JS.lt (key r) minD = false)
    ∨ (∃ j r, scan key anchors a minD best = Z.of_nat (a + j)
              ∧ anchors !! j = Some r
              ∧ JS.lt (key r) minD = true
              ∧ (∀ j' r', anchors !! j' = Some r' → key r <= key r')
              ∧ (∀ j' r', (j' < j)%nat → anchors !! j' = Some r' →
                          key r < key r')).
Proof.
  induction anchors as [|r rest IH]; intros a minD best.
  { left. split; [done|]. intros j r Hj. by rewrite lookup_nil in Hj. }
  cbn [scan]. destruct (JS.lt (key r) minD) eqn:Hlt.
  - right.
    destruct (IH (S a) (JS.Finite (key r)) (Z.of_nat a))
      as [[Hres Hnone]|(j & r1 & Hres & Hj & Hbeat & Hmin & Hfirst)].
    + exists 0%nat, r. rewrite Hres, Nat.add_0_r.
      split; [done|]. split; [done|]. split; [done|]. split.
      * intros [|j'] r' Hj'; simpl in Hj'.
        -- injection Hj' as <-. apply Qle_refl.
        -- apply ltb_ge. exact (Hnone _ _ Hj').
      * intros j' r' Hlt'. lia.
    + exists (S j), r1. rewrite Hres.
      simpl in Hbeat. apply ltb_lt in Hbeat.
      split; [f_equal; lia|]. split; [done|]. split.
      { destruct minD as [m|]; [|done]. simpl in Hlt |- *.
        apply ltb_lt in Hlt. apply ltb_lt. lra. }
      split.
      * intros [|j'] r' Hj'; simpl in Hj'.
        -- injection Hj' as <-. lra.
        -- exact (Hmin _ _ Hj').
      * intros [|j'] r' Hlt' Hj'; simpl in Hj'.
        -- injection Hj' as <-. exact Hbeat.
        -- apply (Hfirst j'); [lia | done].
  - destruct (IH (S a) minD best)
      as [[Hres Hnone]|(j & r1 & Hres & Hj & Hbeat & Hmin & Hfirst)].
    + left. split; [done|].
      intros [|j'] r' Hj'; simpl in Hj'.
      * by injection Hj' as <-.
      * exact (Hnone _ _ Hj').
    + right. exists (S j), r1. rewrite Hres.
      destruct minD as [m|]; [|done]. simpl in Hlt, Hbeat.
      apply ltb_ge in Hlt. apply ltb_lt in Hbeat.
      split; [f_equal; lia|]. split; [done|]. split.
      { simpl. apply ltb_lt. done. }
      split.
      * intros [|j'] r' Hj'; simpl in Hj'.
        -- injection Hj' as <-. lra.
        -- exact (Hmin _ _ Hj').
      * intros [|j'] r' Hlt' Hj'; simpl in Hj'.
        -- injection Hj' as <-. lra.
        -- apply (Hfirst j'); [lia | done].
Qed.

(** On a non-empty anchor list the search returns the first anchor of
    least key, whatever [init] is. *)
Lemma nearest_spec (init : Z) (anchors : list A) :
  anchors ≠ [] →
  ∃ c r, nearest key init anchors = Z.of_nat c
         ∧ anchors !! c = Some r
         ∧ (∀ a r', anchors !! a = Some r' → key r <= key r')
         ∧ (∀ a r', (a < c)%nat → anchors !! a = Some r' → key r < key r').
Proof.
  intros Hne. unfold nearest.
  destruct (scan_spec anchors 0 JS.PosInf init)
    as [[_ Hnone]|(j & r & Hres & Hj & _ & Hmin & Hfirst)].
  - destruct anchors as [|r rest]; [done|].
    specialize (Hnone 0%nat r eq_refl). done.
  - exists j, r. by rewrite Hres.
Qed.

Lemma nearest_nil (init : Z) : nearest key init [] = init.
Proof. reflexivity. Qed.
End ScanFacts.

(** [Double.round] on a literal, a sum in which it matters, a tie that
    goes to the even neighbour, and [Double.sqrt] of 2. *)
Example Double_run :
  Double.round 0.1 == 3602879701896397 # 36028797018963968
  ∧ Double.add (Double.round 0.1) (Double.round 0.2)
    == 1351079888211149 # 4503599627370496
  ∧ ¬ Double.add (Double.round 0.1) (Double.round 0.2) == Double.round 0.3
  ∧ Double.round (inject_Z (2 ^ 53 + 1)) == inject_Z (2 ^ 53)
  ∧ Double.round (inject_Z (2 ^ 53 + 3)) == inject_Z (2 ^ 53 + 4)
  ∧ Double.sqrt 2 == 6369051672525773 # 4503599627370496.
Proof. repeat split; vm_compute; congruence. Qed.

(** C1, as stated, fails: the anchor stored is not always one of least
    Euclidean distance, first declared among those.  At the vertex
    (0.375, 0.6875, 0.21875) the heatmap diagram stores 13, the dummy
    region "Top of head", though region 1, "Left temple", is declared
    before it and is no farther: the two are at the same distance from the
    vertex when the positions are read as the decimals written in the
    table, and the temple is strictly nearer when they are read as the
    doubles the literals denote.  The rounded sums of the rounded squares
    come out the other way. *)
Lemma nearest_by_exact_distance_counterexample :
  ¬ (∀ (positions : list Vector3) (i : nat) (v : Vector3),
        positions !! i = Some v →
        ∃ c, Heatmap.vertexRegions Double.sqrt Heatmap.ALL_VORONOI_REGIONS
                                   positions !! i = Some c
             ∧ first_nearest
                 (fun r => distanceToSquared v (Heatmap.position r))
                 Heatmap.ALL_VORONOI_REGIONS c)
  ∧ ¬ (∀ (positions : list Vector3) (i : nat) (v : Vector3),
          positions !! i = Some v →
          ∃ c, Heatmap.vertexRegions Double.sqrt Heatmap.ALL_VORONOI_REGIONS
                                     positions !! i = Some c
               ∧ first_nearest
                   (fun r => distanceToSquared
                               v (Double.literal (Heatmap.position r)))
                   Heatmap.ALL_VORONOI_REGIONS c).
Proof.
  split; intros H.
  all: destruct (H [vec (0.375, 0.6875, 0.21875)] 0%nat
                   (vec (0.375, 0.6875, 0.21875)) eq_refl)
         as (c & Hc & n & r & Hn & Hr & _ & Hfirst).
  all: vm_compute in Hc; injection Hc as <-.
  all: assert (n = 13%nat) as -> by lia.
  all: injection Hr as <-.
  all: specialize (Hfirst 1%nat _ ltac:(lia) eq_refl).
  all: vm_compute in Hfirst; discriminate Hfirst.
Qed.

(** The vertices of three near ties, as the two diagrams classify them
    when [**] rounds the exact square. *)
Example classify_near_ties :
  Overlay.vertexAnchorMap Double.square Overlay.ALL_ANCHORS
    [vec (0, -0.8125, -0.96875); vec (-0.46875, -0.9375, 1)]
  = [30%Z; 18%Z]
  ∧ Heatmap.vertexRegions Double.sqrt Heatmap.ALL_VORONOI_REGIONS
      [vec (-0.5625, -0.125, -0.6875); vec (-1, 1, -0.25);
       vec (0.375, 0.6875, 0.21875)]
    = [15%Z; 2%Z; 13%Z].
Proof. split; vm_compute; reflexivity. Qed.

(** C1, amended. For every vertex, each classifier stores the index of
    an anchor whose distance to the vertex, as the code computes it in
    double arithmetic, is least among all the anchors, and strictly less
    than that of every anchor declared before it (of anchors at the same
    computed distance the first declared wins): the overlay diagram
    comparing the sums [d2] of the squared differences over its anchor
    list, the heatmap diagram comparing [distanceTo] over its region list;
    whatever [**] and [Math.sqrt] return. *)
Theorem classification_is_first_nearest_anchor
    (pow2 Math_sqrt : Q → Q)
    (anchors : list Overlay.Anchor) (regions : list Heatmap.VoronoiRegion)
    (positions : list Vector3) (i : nat) (v : Vector3) :
  anchors ≠ [] → regions ≠ [] →
  positions !! i = Some v →
  (∃ c, Overlay.vertexAnchorMap pow2 anchors positions !! i = Some c
        ∧ first_nearest (fun a => Overlay.d2 pow2 v (Overlay.pos a))
                        anchors c)
  ∧ (∃ c, Heatmap.vertexRegions Math_sqrt regions positions !! i = Some c
          ∧ first_nearest
              (fun r => Heatmap.distanceTo Math_sqrt v (Heatmap.position r))
              regions c).
Proof.
  intros Ha Hr Hv. split.
  - destruct (nearest_spec (fun a => Overlay.d2 pow2 v (Overlay.pos a))
                0 anchors Ha) as (c & r & Hres & Hc & Hmin & Hfirst).
    exists (Z.of_nat c). unfold Overlay.vertexAnchorMap.
    rewrite list_lookup_fmap, Hv. cbn [fmap option_fmap option_map].
    unfold Overlay.nearestAnchor. rewrite Hres.
    split; [done|]. by exists c, r.
  - destruct (nearest_spec
                (fun r => Heatmap.distanceTo Math_sqrt v (Heatmap.position r))
                (-1) regions Hr) as (c & r & Hres & Hc & Hmin & Hfirst).
    exists (Z.of_nat c). unfold Heatmap.vertexRegions.
    rewrite list_lookup_fmap, Hv. cbn [fmap option_fmap option_map].
    unfold Heatmap.nearestRegion. rewrite Hres.
    split; [done|]. by exists c, r.
Qed.

(** A vertex on the forehead, classified against the two anchor tables. *)
Lemma classification_is_first_nearest_anchor_witness :
  let v := vec (0, 0.6875, 0.6875) in
  (∃ c, Overlay.vertexAnchorMap Double.square Overlay.ALL_ANCHORS [v] !! 0%nat
        = Some c
        ∧ first_nearest (fun a => Overlay.d2 Double.square v (Overlay.pos a))
                        Overlay.ALL_ANCHORS c)
  ∧ (∃ c, Heatmap.vertexRegions Double.sqrt Heatmap.ALL_VORONOI_REGIONS [v]
          !! 0%nat = Some c
          ∧ first_nearest
              (fun r => Heatmap.distanceTo Double.sqrt v (Heatmap.position r))
              Heatmap.ALL_VORONOI_REGIONS c).
Proof.
  intros v.
  apply (classification_is_first_nearest_anchor Double.square Double.sqrt
           Overlay.ALL_ANCHORS Heatmap.ALL_VORONOI_REGIONS [v] 0 v);
    [discriminate | discriminate | reflexivity].
Defined.

(** The spec's scenario: anchors at (0,0,1) and (0,0,-1), a vertex at
    (0,0,0.875). *)
Example classify_front_vertex :
  Overlay.vertexAnchorMap Double.square
    [Overlay.mkAnchor (vec (0, 0, 1)) 0 true;
     Overlay.mkAnchor (vec (0, 0, -1)) 1 true]
    [vec (0, 0, 0.875)] = [0%Z].
Proof. vm_compute. reflexivity. Qed.

(** Two anchors at the same computed distance: the first declared wins. *)
Example classify_tie :
  Overlay.vertexAnchorMap Double.square
    [Overlay.mkAnchor (vec (0, 0, -1)) 0 true;
     Overlay.mkAnchor (vec (0, 0, 1)) 1 true]
    [vec (0, 0, 0)] = [0%Z]
  ∧ Heatmap.vertexRegions Double.sqrt
      [Heatmap.mkVoronoi "Nose" (vec (0, 0, 1)) false;
       Heatmap.mkVoronoi "Forehead" (vec (0, 0, -1)) true]
      [vec (0, 0, 0)] = [0%Z].
Proof. split; vm_compute; reflexivity. Qed.

Example classify_forehead :
  Overlay.vertexAnchorMap Double.square Overlay.ALL_ANCHORS
    [vec (0, 0.6875, 0.6875)] = [0%Z]
  ∧ Heatmap.vertexRegions Double.sqrt Heatmap.ALL_VORONOI_REGIONS
      [vec (0, 0.6875, 0.6875)] = [0%Z].
Proof. split; vm_compute; reflexivity. Qed.

(** ** The classifier never rejects its input *)

Lemma vertexAnchorMap_length (pow2 : Q → Q) (anchors : list Overlay.Anchor)
    (positions : list Vector3) :
  length (Overlay.vertexAnchorMap pow2 anchors positions) = length positions.
Proof. unfold Overlay.vertexAnchorMap. by rewrite length_fmap. Qed.

Lemma vertexAnchorMap_no_anchor (pow2 : Q → Q) (positions : list Vector3) :
  Overlay.vertexAnchorMap pow2 [] positions
  = replicate (length positions) 0%Z.
Proof.
  induction positions as [|v rest IH]; [done|].
  change (Overlay.vertexAnchorMap pow2 [] (v :: rest))
    with (Overlay.nearestAnchor pow2 [] v
          :: Overlay.vertexAnchorMap pow2 [] rest).
  rewrite IH. reflexivity.
Qed.

(** C8, as stated, fails: the classifier rejects neither a mesh without
    vertices (it returns an empty map) nor an empty anchor list (it
    returns a map of zeros). *)
Lemma classifier_fails_fast_counterexample :
  ¬ (∀ (anchors : list Overlay.Anchor) (positions : list Vector3),
        Overlay.rejects
          (Overlay.vertexAnchorMap_memo Double.square anchors positions)
        ↔ (positions = [] ∨ anchors = [])).
Proof.
  intros H.
  destruct (H Overlay.ALL_ANCHORS []) as [_ Hrej].
  exact (Hrej (or_introl eq_refl)).
Qed.

Example classify_empty_mesh :
  Overlay.vertexAnchorMap_memo Double.square Overlay.ALL_ANCHORS []
  = JS.Normal [].
Proof. reflexivity. Qed.

Example classify_without_anchors :
  Overlay.vertexAnchorMap_memo Double.square []
    [vec (0, 0, 0.9); vec (1, 0, 0)]
  = JS.Normal [0%Z; 0%Z].
Proof. reflexivity. Qed.

(** C8, amended. The classifier completes on every anchor list and every
    mesh, with one entry per vertex: the empty map for a mesh without
    vertices, and a map of zeros for an empty anchor list; whatever [**]
    returns. *)
Theorem classifier_always_completes (pow2 : Q → Q)
    (anchors : list Overlay.Anchor) (positions : list Vector3) :
  ∃ map : list Z,
    Overlay.vertexAnchorMap_memo pow2 anchors positions = JS.Normal map
    ∧ ¬ Overlay.rejects (Overlay.vertexAnchorMap_memo pow2 anchors positions)
    ∧ length map = length positions
    ∧ (positions = [] → map = [])
    ∧ (anchors = [] → map = replicate (length positions) 0%Z).
Proof.
  exists (Overlay.vertexAnchorMap pow2 anchors positions).
  split; [done|]. split; [by intros []|].
  split; [apply vertexAnchorMap_length|].
  split.
  - by intros ->.
  - intros ->. apply vertexAnchorMap_no_anchor.
Qed.

(** ** Per-region sub-geometries *)

Section SubGeometryFacts.
Context {P : Type} (fullGeo : Overlay.BufferGeometry P).
Implicit Types (st : Overlay.Builder P) (f : Face).

Lemma grows_refl st : Overlay.grows st st.
Proof. split; reflexivity. Qed.

Lemma grows_trans st1 st2 st3 : Overlay.grows st1 st2 → Overlay.grows st2 st3 → Overlay.grows st1 st3.
Proof. intros [? ?] [? ?]. split; etrans; eauto. Qed.

Lemma shows_vertex_grows st st' ni vi :
  Overlay.grows st st' →
  Overlay.shows_vertex fullGeo st ni vi →
  Overlay.shows_vertex fullGeo st' ni vi.
Proof.
  intros [Hp Hn] [H1 H2]. split; eapply prefix_lookup_Some; eauto.
Qed.

Lemma shows_grows st st' g f :
  Overlay.grows st st' → Overlay.shows fullGeo st g f → Overlay.shows fullGeo st' g f.
Proof.
  intros Hg (H1 & H2 & H3).
  repeat split; eapply shows_vertex_grows; eauto; apply H1 || apply H2 || apply H3.
Qed.

Lemma addVert_spec vi st st' ni :
  Overlay.remap_ok fullGeo st →
  Overlay.addVert fullGeo vi st = (st', ni) →
  Overlay.remap_ok fullGeo st' ∧ Overlay.grows st st'
  ∧ Overlay.idxArr st' = Overlay.idxArr st
  ∧ Overlay.shows_vertex fullGeo st' ni vi.
Proof.
  intros [Hlen Hok]. unfold Overlay.addVert.
  destruct (Overlay.remap st !! vi) as [n|] eqn:Hre; intros [= <- <-].
  - split; [by split|]. split; [apply grows_refl|]. split; [done|].
    by apply Hok.
  - assert (Hnew : Overlay.shows_vertex fullGeo
              (Overlay.mkBuilder
                 (Overlay.posArr st ++ [Overlay.position_at fullGeo vi])
                 (Overlay.normArr st ++ [Overlay.normal_at fullGeo vi])
                 (Overlay.idxArr st)
                 (<[vi := length (Overlay.posArr st)]> (Overlay.remap st)))
              (length (Overlay.posArr st)) vi).
    { split; simpl.
      - by rewrite lookup_app_r, Nat.sub_diag.
      - rewrite Hlen. by rewrite lookup_app_r, Nat.sub_diag. }
    assert (Hgrow : Overlay.grows st
              (Overlay.mkBuilder
                 (Overlay.posArr st ++ [Overlay.position_at fullGeo vi])
                 (Overlay.normArr st ++ [Overlay.normal_at fullGeo vi])
                 (Overlay.idxArr st)
                 (<[vi := length (Overlay.posArr st)]> (Overlay.remap st)))).
    { split; simpl; apply prefix_app_r; reflexivity. }
    split; [|done]. split.
    + simpl. rewrite !length_app. simpl. lia.
    + simpl. intros vj nj. rewrite lookup_insert.
      case_decide as Hd.
      * subst vj. intros [= <-]. exact Hnew.
      * intros Hj. eapply shows_vertex_grows; [exact Hgrow|]. by apply Hok.
Qed.

Lemma score_agreeing (vertexAnchorMap : list Z) (targetIdx : Z) f :
  Overlay.score vertexAnchorMap targetIdx f
  = Overlay.agreeing vertexAnchorMap targetIdx f.
Proof.
  destruct f as [[a b] c]. unfold Overlay.score, Overlay.agreeing, Overlay.hit.
  simpl. rewrite !filter_cons, filter_nil.
  repeat case_bool_decide; repeat case_decide; simpl; done.
Qed.

Lemma buildStep_spec (vertexAnchorMap : list Z) (targetIdx : Z) st f
    (shown : list Face) :
  Overlay.remap_ok fullGeo st →
  Forall2 (Overlay.shows fullGeo st) (Overlay.idxArr st) shown →
  let st' := Overlay.buildStep fullGeo vertexAnchorMap targetIdx st f in
  Overlay.remap_ok fullGeo st'
  ∧ Forall2 (Overlay.shows fullGeo st') (Overlay.idxArr st')
            (shown ++ Overlay.majority_faces vertexAnchorMap targetIdx [f]).
Proof.
  intros Hok Hshown. unfold Overlay.buildStep, Overlay.majority_faces.
  rewrite filter_cons, filter_nil, <- score_agreeing.
  case_bool_decide as Hmaj; case_decide; try done; cbv zeta.
  2: { rewrite app_nil_r. done. }
  destruct f as [[a b] c].
  destruct (Overlay.addVert fullGeo a st) as [st1 na] eqn:E1.
  destruct (Overlay.addVert fullGeo b st1) as [st2 nb] eqn:E2.
  destruct (Overlay.addVert fullGeo c st2) as [st3 nc] eqn:E3.
  destruct (addVert_spec _ _ _ _ Hok E1) as (Hok1 & Hg1 & Hi1 & Hs1).
  destruct (addVert_spec _ _ _ _ Hok1 E2) as (Hok2 & Hg2 & Hi2 & Hs2).
  destruct (addVert_spec _ _ _ _ Hok2 E3) as (Hok3 & Hg3 & Hi3 & Hs3).
  split; [exact Hok3|]. simpl.
  apply Forall2_app.
  - rewrite Hi3, Hi2, Hi1.
    eapply Forall2_impl; [exact Hshown|].
    intros g f' Hgf. eapply shows_grows; [|exact Hgf].
    eauto using grows_trans.
  - constructor; [|constructor].
    split; [|split]; simpl.
    + destruct Hs1; split; eapply prefix_lookup_Some; eauto;
        etrans; (apply Hg2 || apply Hg3).
    + destruct Hs2; split; eapply prefix_lookup_Some; eauto; apply Hg3.
    + exact Hs3.
Qed.

Lemma majority_faces_app (vertexAnchorMap : list Z) (targetIdx : Z)
    (l1 l2 : list Face) :
  Overlay.majority_faces vertexAnchorMap targetIdx (l1 ++ l2)
  = Overlay.majority_faces vertexAnchorMap targetIdx l1
    ++ Overlay.majority_faces vertexAnchorMap targetIdx l2.
Proof. apply filter_app. Qed.

Lemma build_loop_spec (vertexAnchorMap : list Z) (targetIdx : Z)
    (faces : list Face) :
  ∀ st (shown : list Face),
    Overlay.remap_ok fullGeo st →
    Forall2 (Overlay.shows fullGeo st) (Overlay.idxArr st) shown →
    let st' := foldl (Overlay.buildStep fullGeo vertexAnchorMap targetIdx)
                     st faces in
    Forall2 (Overlay.shows fullGeo st') (Overlay.idxArr st')
            (shown ++ Overlay.majority_faces vertexAnchorMap targetIdx faces).
Proof.
  induction faces as [|f rest IH]; intros st shown Hok Hshown.
  { simpl. by rewrite app_nil_r. }
  destruct (buildStep_spec vertexAnchorMap targetIdx st f shown Hok Hshown)
    as [Hok' Hshown'].
  specialize (IH _ _ Hok' Hshown'). cbv zeta in IH |- *.
  replace (Overlay.majority_faces vertexAnchorMap targetIdx (f :: rest))
    with (Overlay.majority_faces vertexAnchorMap targetIdx [f]
          ++ Overlay.majority_faces vertexAnchorMap targetIdx rest)
    by (symmetry; apply (majority_faces_app _ _ [f] rest)).
  rewrite app_assoc. exact IH.
Qed.

Lemma buildRegionGeo_spec (vertexAnchorMap : list Z) (targetIdx : Z) :
  let out := Overlay.buildRegionGeo fullGeo vertexAnchorMap targetIdx in
  Forall2 (Overlay.shows fullGeo out) (Overlay.idxArr out)
          (Overlay.majority_faces vertexAnchorMap targetIdx
                                  (Overlay.index fullGeo)).
Proof.
  apply (build_loop_spec vertexAnchorMap targetIdx (Overlay.index fullGeo)
           (Overlay.mkBuilder [] [] [] ∅) []).
  - split; [done|]. intros vi ni. simpl. by rewrite lookup_empty.
  - constructor.
Qed.
End SubGeometryFacts.

Lemma agreeing_exclusive (vertexAnchorMap : list Z) (t t' : Z) (f : Face) :
  (2 ≤ Overlay.agreeing vertexAnchorMap t f)%nat → t' ≠ t →
  (Overlay.agreeing vertexAnchorMap t' f ≤ 1)%nat.
Proof.
  destruct f as [[a b] c]. unfold Overlay.agreeing. simpl.
  rewrite !filter_cons, !filter_nil. intros Hmaj Hne.
  repeat case_decide; simpl in *; try lia; congruence.
Qed.

Lemma agreeing_even_split (vertexAnchorMap : list Z) (a b c : nat)
    (rA rB rC t : Z) :
  vertexAnchorMap !! a = Some rA →
  vertexAnchorMap !! b = Some rB →
  vertexAnchorMap !! c = Some rC →
  rA ≠ rB → rB ≠ rC → rA ≠ rC →
  (Overlay.agreeing vertexAnchorMap t (a, b, c) ≤ 1)%nat.
Proof.
  intros Ha Hb Hc Hab Hbc Hac. unfold Overlay.agreeing. simpl.
  rewrite !filter_cons, !filter_nil, Ha, Hb, Hc.
  repeat case_decide; simpl; try lia; congruence.
Qed.

Lemma regionGeos_lookup {P : Type} (fullGeo : Overlay.BufferGeometry P)
    (vertexAnchorMap : list Z) (ri : nat) (region : Overlay.Region) :
  Overlay.REGIONS !! ri = Some region →
  Overlay.regionGeos fullGeo vertexAnchorMap !! ri
  = Some (Overlay.buildRegionGeo fullGeo vertexAnchorMap (Z.of_nat ri)).
Proof.
  intros Hr. unfold Overlay.regionGeos. by rewrite list_lookup_imap, Hr.
Qed.

(** C4. The sub-geometry built for an anchor consists of exactly the
    triangles of the index buffer in which at least 2 of the 3 vertices
    classify to that anchor, in their order, each corner carrying the
    position and normal of its source vertex; [regionGeos] holds the one
    of each clickable region.  Hence a triangle with a majority for a
    region is in that region's sub-geometry and in no other, and a
    triangle whose vertices classify to three different anchors is in
    none. *)
Theorem sub_geometry_majority_rule {P : Type}
    (fullGeo : Overlay.BufferGeometry P) (vertexAnchorMap : list Z) :
  (∀ targetIdx : Z,
      let out := Overlay.buildRegionGeo fullGeo vertexAnchorMap targetIdx in
      Forall2 (Overlay.shows fullGeo out) (Overlay.idxArr out)
              (Overlay.majority_faces vertexAnchorMap targetIdx
                                      (Overlay.index fullGeo)))
  ∧ (∀ (ri : nat) (region : Overlay.Region),
        Overlay.REGIONS !! ri = Some region →
        Overlay.regionGeos fullGeo vertexAnchorMap !! ri
        = Some (Overlay.buildRegionGeo fullGeo vertexAnchorMap (Z.of_nat ri)))
  ∧ (∀ (f : Face) (ri : nat),
        f ∈ Overlay.index fullGeo →
        (2 ≤ Overlay.agreeing vertexAnchorMap (Z.of_nat ri) f)%nat →
        f ∈ Overlay.majority_faces vertexAnchorMap (Z.of_nat ri)
                                   (Overlay.index fullGeo)
        ∧ ∀ ri' : nat, ri' ≠ ri →
            f ∉ Overlay.majority_faces vertexAnchorMap (Z.of_nat ri')
                                       (Overlay.index fullGeo))
  ∧ (∀ (a b c : nat) (rA rB rC targetIdx : Z),
        vertexAnchorMap !! a = Some rA →
        vertexAnchorMap !! b = Some rB →
        vertexAnchorMap !! c = Some rC →
        rA ≠ rB → rB ≠ rC → rA ≠ rC →
        (a, b, c) ∉ Overlay.majority_faces vertexAnchorMap targetIdx
                                           (Overlay.index fullGeo)).
Proof.
  split; [intros t; apply buildRegionGeo_spec|].
  split; [intros ri region; apply regionGeos_lookup|].
  split.
  - intros f ri Hin Hmaj. unfold Overlay.majority_faces. split.
    + apply list_elem_of_filter. done.
    + intros ri' Hne [Hmaj' _]%list_elem_of_filter.
      assert (Z.of_nat ri' ≠ Z.of_nat ri) as Hz by lia.
      pose proof (agreeing_exclusive _ _ _ _ Hmaj Hz). lia.
  - intros a b c rA rB rC t Ha Hb Hc Hab Hbc Hac
           [Hmaj _]%list_elem_of_filter.
    pose proof (agreeing_even_split _ _ _ _ _ _ _ t Ha Hb Hc Hab Hbc Hac). lia.
Qed.

(** Five vertices classified 0, 0, 1, 1, 2 and three triangles: the first
    has a majority for anchor 0, the second for anchor 1, the third is an
    even split. *)
Lemma sub_geometry_majority_rule_witness :
  let geo := Overlay.mkGeometry (fun vi => vi) (fun vi => (10 + vi)%nat)
                                [(0, 1, 2); (1, 2, 3); (0, 3, 4)]%nat in
  let vertexAnchorMap := [0; 0; 1; 1; 2]%Z in
  ((0, 1, 2)%nat ∈ Overlay.majority_faces vertexAnchorMap 0 (Overlay.index geo)
   ∧ ∀ ri' : nat, ri' ≠ 0%nat →
       (0, 1, 2)%nat ∉ Overlay.majority_faces vertexAnchorMap (Z.of_nat ri')
                                              (Overlay.index geo))
  ∧ (0, 3, 4)%nat ∉ Overlay.majority_faces vertexAnchorMap 1 (Overlay.index geo).
Proof.
  intros geo vertexAnchorMap.
  destruct (sub_geometry_majority_rule geo vertexAnchorMap)
    as (_ & _ & Hone & Hnone).
  split.
  - apply (Hone (0, 1, 2)%nat 0%nat); [apply list_elem_of_here | vm_compute; lia].
  - apply (Hnone 0%nat 3%nat 4%nat 0%Z 1%Z 2%Z 1%Z); (reflexivity || discriminate).
Defined.

Example buildRegionGeo_run :
  let geo := Overlay.mkGeometry (fun vi => vi) (fun vi => (10 + vi)%nat)
                                [(0, 1, 2); (1, 2, 3); (0, 3, 4)]%nat in
  let out := fun t => Overlay.buildRegionGeo geo [0; 0; 1; 1; 2]%Z t in
  (Overlay.idxArr (out 0%Z), Overlay.posArr (out 0%Z), Overlay.normArr (out 0%Z))
  = ([(0, 1, 2)]%nat, [0; 1; 2]%nat, [10; 11; 12]%nat)
  ∧ (Overlay.idxArr (out 1%Z), Overlay.posArr (out 1%Z), Overlay.normArr (out 1%Z))
    = ([(0, 1, 2)]%nat, [1; 2; 3]%nat, [11; 12; 13]%nat)
  ∧ Overlay.idxArr (out 2%Z) = [].
Proof. repeat split; vm_compute; reflexivity. Qed.

(** ** Boundary vertices *)

Lemma index_of_nat {A : Type} (l : list A) (n : nat) :
  JS.index l (Z.of_nat n) = l !! n.
Proof.
  unfold JS.index. destruct (Z.ltb_spec (Z.of_nat n) 0); [lia|].
  by rewrite Nat2Z.id.
Qed.

(** The classifier only yields indices of regions. *)
Lemma vertexRegions_valid (Math_sqrt : Q → Q)
    (regions : list Heatmap.VoronoiRegion) (positions : list Vector3) :
  regions ≠ [] →
  Forall (fun r => is_Some (JS.index regions r))
         (Heatmap.vertexRegions Math_sqrt regions positions).
Proof.
  intros Hne. unfold Heatmap.vertexRegions. apply Forall_fmap, Forall_forall.
  intros v _. simpl. unfold Heatmap.nearestRegion.
  destruct (nearest_spec
              (fun r => Heatmap.distanceTo Math_sqrt v (Heatmap.position r))
              (-1) regions Hne) as (c & r & -> & Hc & _).
  rewrite index_of_nat, Hc. by eexists.
Qed.

Lemma mark_lookup (boundary : list bool) (a b c v : nat) :
  (a < length boundary)%nat → (b < length boundary)%nat →
  (c < length boundary)%nat →
  <[c := true]> (<[b := true]> (<[a := true]> boundary)) !! v = Some true
  ↔ boundary !! v = Some true ∨ v ∈ [a; b; c].
Proof.
  intros Ha Hb Hc.
  destruct (decide (v = c)) as [->|Hvc].
  { rewrite list_lookup_insert_eq by (rewrite !length_insert; lia).
    split; [intros _; right; set_solver | done]. }
  rewrite list_lookup_insert_ne by done.
  destruct (decide (v = b)) as [->|Hvb].
  { rewrite list_lookup_insert_eq by (rewrite !length_insert; lia).
    split; [intros _; right; set_solver | done]. }
  rewrite list_lookup_insert_ne by done.
  destruct (decide (v = a)) as [->|Hva].
  { rewrite list_lookup_insert_eq by lia.
    split; [intros _; right; set_solver | done]. }
  rewrite list_lookup_insert_ne by done.
  split; [by left|]. intros [Hv|Hv]; [done|].
  rewrite !elem_of_cons in Hv. destruct Hv as [?|[?|[?|Hv]]]; try done.
  by apply not_elem_of_nil in Hv.
Qed.

(** On a triangle of a well-formed mesh [markFace] completes, and marks
    the three vertices exactly when the triangle is a seam. *)
Lemma markFace_spec (regions : list Heatmap.VoronoiRegion) (vRegions : list Z)
    (boundary : list bool) (f : Face) :
  Forall (fun r => is_Some (JS.index regions r)) vRegions →
  (∀ v, Heatmap.corner v f → (v < length vRegions)%nat) →
  length boundary = length vRegions →
  ∃ boundary',
    Heatmap.markFace regions vRegions boundary f = JS.Normal boundary'
    ∧ length boundary' = length vRegions
    ∧ ∀ v, boundary' !! v = Some true
           ↔ boundary !! v = Some true
             ∨ (Heatmap.corner v f ∧ Heatmap.seam regions vRegions f).
Proof.
  intros Hvalid Hrange Hlen. destruct f as [[a b] c].
  unfold Heatmap.corner in Hrange. simpl in Hrange.
  assert (Ha : (a < length vRegions)%nat) by (apply Hrange; set_solver).
  assert (Hb : (b < length vRegions)%nat) by (apply Hrange; set_solver).
  assert (Hc : (c < length vRegions)%nat) by (apply Hrange; set_solver).
  destruct (lookup_lt_is_Some_2 _ _ Ha) as [rA HrA].
  destruct (lookup_lt_is_Some_2 _ _ Hb) as [rB HrB].
  destruct (lookup_lt_is_Some_2 _ _ Hc) as [rC HrC].
  rewrite Forall_lookup in Hvalid.
  destruct (Hvalid _ _ HrA) as [iA HiA].
  destruct (Hvalid _ _ HrB) as [iB HiB].
  destruct (Hvalid _ _ HrC) as [iC HiC].
  unfold Heatmap.markFace. rewrite HrA, HrB, HrC. simpl.
  rewrite HiA, HiB, HiC. simpl.
  destruct (Heatmap.mixed (Some rA) (Some rB) (Some rC)
            && (Heatmap.clickable iA || Heatmap.clickable iB
                || Heatmap.clickable iC)) eqn:Hcond.
  - eexists. split; [done|]. split; [by rewrite !length_insert|].
    intros v. rewrite mark_lookup by lia.
    apply andb_prop in Hcond as [Hmix Hclick].
    assert (Hseam : Heatmap.seam regions vRegions (a, b, c)).
    { exists rA, rB, rC. simpl. do 3 (split; [done|]). split.
      - intros [-> ->]. unfold Heatmap.mixed in Hmix.
        repeat case_bool_decide; simpl in *; congruence.
      - apply orb_prop in Hclick as [Hclick|Hclick];
          [apply orb_prop in Hclick as [Hclick|Hclick]|].
        + exists rA, iA. split; [set_solver|done].
        + exists rB, iB. split; [set_solver|done].
        + exists rC, iC. split; [set_solver|done]. }
    unfold Heatmap.corner. simpl. tauto.
  - exists boundary. split; [done|]. split; [done|].
    intros v. split; [by left|]. intros [H|[_ Hseam]]; [done|].
    exfalso.
    destruct Hseam as (rA' & rB' & rC' & H1 & H2 & H3 & Hmix & r & info
                       & Hr & Hinfo & Hclick). simpl in H1, H2, H3.
    rewrite HrA in H1. rewrite HrB in H2. rewrite HrC in H3.
    injection H1 as <-. injection H2 as <-. injection H3 as <-.
    apply andb_false_iff in Hcond as [Hcond|Hcond].
    + apply Hmix. unfold Heatmap.mixed in Hcond.
      repeat case_bool_decide; simpl in *; try discriminate.
      split; congruence.
    + apply orb_false_iff in Hcond as [Hcond HC].
      apply orb_false_iff in Hcond as [HA HB].
      apply elem_of_cons in Hr as [->|Hr]; [congruence|].
      apply elem_of_cons in Hr as [->|Hr]; [congruence|].
      apply elem_of_cons in Hr as [->|Hr]; [congruence|].
      by apply not_elem_of_nil in Hr.
Qed.

Lemma boundary_loop_spec (regions : list Heatmap.VoronoiRegion)
    (vRegions : list Z) (faces : list Face) :
  Forall (fun r => is_Some (JS.index regions r)) vRegions →
  Forall (fun f => ∀ v, Heatmap.corner v f → (v < length vRegions)%nat) faces →
  ∀ boundary : list bool,
    length boundary = length vRegions →
    ∃ boundary',
      foldl (fun acc f =>
               JS.bind acc (fun bd => Heatmap.markFace regions vRegions bd f))
            (JS.Normal boundary) faces = JS.Normal boundary'
      ∧ length boundary' = length vRegions
      ∧ ∀ v, boundary' !! v = Some true
             ↔ boundary !! v = Some true
               ∨ ∃ f, f ∈ faces ∧ Heatmap.corner v f
                      ∧ Heatmap.seam regions vRegions f.
Proof.
  intros Hvalid Hrange.
  induction Hrange as [|f rest Hf Hrest IH]; intros boundary Hlen.
  { exists boundary. split; [done|]. split; [done|].
    intros v. split; [by left|]. intros [H|(f & Hin & _)]; [done|].
    by apply not_elem_of_nil in Hin. }
  destruct (markFace_spec regions vRegions boundary f Hvalid Hf Hlen)
    as (bd1 & Hrun & Hlen1 & Hmark).
  destruct (IH bd1 Hlen1) as (bd2 & Hrun2 & Hlen2 & Hmark2).
  exists bd2. simpl. rewrite Hrun. split; [exact Hrun2|]. split; [done|].
  intros v. rewrite Hmark2, Hmark. split.
  - intros [[H|[Hc Hs]]|(f' & Hin & Hc & Hs)].
    + by left.
    + right. exists f. split; [apply list_elem_of_here|done].
    + right. exists f'. split; [by apply list_elem_of_further|done].
  - intros [H|(f' & Hin & Hc & Hs)]; [by left; left|].
    apply elem_of_cons in Hin as [->|Hin].
    + left; right. done.
    + right. exists f'. done.
Qed.

(** C5. On a mesh whose vertices are all classified to regions and whose
    triangles refer to vertices of the mesh, the boundary pass completes
    with one flag per vertex, and a vertex is flagged exactly when it is a
    vertex of some triangle whose three vertices do not all share the same
    classification and of which at least one classification is clickable.
    Without an index buffer no vertex is flagged. *)
Theorem boundary_iff_on_a_seam (regions : list Heatmap.VoronoiRegion)
    (vRegions : list Z) (faces : list Face) :
  Heatmap.well_formed regions vRegions faces →
  (∃ boundary : list bool,
      Heatmap.isBoundary regions vRegions (Some faces) = JS.Normal boundary
      ∧ length boundary = length vRegions
      ∧ ∀ v : nat,
          boundary !! v = Some true
          ↔ ∃ f, f ∈ faces ∧ Heatmap.corner v f
                 ∧ Heatmap.seam regions vRegions f)
  ∧ Heatmap.isBoundary regions vRegions None
    = JS.Normal (replicate (length vRegions) false).
Proof.
  intros [Hvalid Hrange]. split; [|done].
  destruct (boundary_loop_spec regions vRegions faces Hvalid Hrange
              (replicate (length vRegions) false))
    as (bd & Hrun & Hlen & Hmark); [by rewrite length_replicate|].
  exists bd. split; [exact Hrun|]. split; [done|].
  intros v. rewrite Hmark. split; [|by right].
  intros [H|H]; [|done].
  apply lookup_replicate in H as [? _]. done.
Qed.

(** Six vertices classified Forehead, Forehead, Left temple, Nose, Mouth,
    Nose: the first triangle is a seam touching clickable regions, the
    second is mixed among dummy regions only. *)
Lemma boundary_iff_on_a_seam_witness :
  let vRegions := [0; 0; 1; 7; 8; 7]%Z in
  let faces := [(0, 1, 2); (3, 4, 5)]%nat in
  (∃ boundary : list bool,
      Heatmap.isBoundary Heatmap.ALL_VORONOI_REGIONS vRegions (Some faces)
      = JS.Normal boundary
      ∧ length boundary = length vRegions
      ∧ ∀ v : nat,
          boundary !! v = Some true
          ↔ ∃ f, f ∈ faces ∧ Heatmap.corner v f
                 ∧ Heatmap.seam Heatmap.ALL_VORONOI_REGIONS vRegions f)
  ∧ Heatmap.isBoundary Heatmap.ALL_VORONOI_REGIONS vRegions None
    = JS.Normal (replicate (length vRegions) false).
Proof.
  intros vRegions faces.
  apply (boundary_iff_on_a_seam Heatmap.ALL_VORONOI_REGIONS vRegions faces).
  split.
  - repeat constructor; by eexists.
  - apply Forall_cons_2; [|apply Forall_cons_2; [|apply Forall_nil_2]].
    all: intros v Hv; unfold Heatmap.corner in Hv; simpl in Hv;
      rewrite !elem_of_cons in Hv;
      destruct Hv as [->|[->|[->|Hv]]]; simpl; try lia;
      by apply not_elem_of_nil in Hv.
Defined.

Example isBoundary_run :
  Heatmap.isBoundary Heatmap.ALL_VORONOI_REGIONS [0; 0; 1; 7; 8; 7]%Z
                     (Some [(0, 1, 2); (3, 4, 5)]%nat)
  = JS.Normal [true; true; true; false; false; false].
Proof. vm_compute. reflexivity. Qed.

(** A vertex left unclassified (-1, as when there is no region at all)
    makes the pass throw. *)
Example isBoundary_unclassified :
  Heatmap.isBoundary Heatmap.ALL_VORONOI_REGIONS [(-1); 0; 1]%Z
                     (Some [(0, 1, 2)]%nat)
  = JS.Throw JS.TypeError.
Proof. vm_compute. reflexivity. Qed.

(** ** Heatmap colouring *)

Lemma lerp_proper (c d : Heatmap.Color) (alpha alpha' : Q) :
  alpha == alpha' →
  Heatmap.Color_eq (Heatmap.lerp c d alpha) (Heatmap.lerp c d alpha').
Proof.
  intros E. unfold Heatmap.Color_eq, Heatmap.lerp. simpl.
  rewrite E. repeat split; reflexivity.
Qed.

(** The ramp: four bands of [t = intensity / 10], each a linear
    interpolation between two consecutive stops. *)
Lemma intensityToColor_bands (toWorking : Q → Q) (x : Q) :
  0 <= x → x <= 10 →
  let t := x / 10 in
  (t < 0.25 →
   Heatmap.Color_eq (Heatmap.intensityToColor toWorking x)
                    (Heatmap.lerp (Heatmap.blue toWorking) (Heatmap.green toWorking) (t / 0.25)))
  ∧ (0.25 <= t → t < 0.5 →
     Heatmap.Color_eq (Heatmap.intensityToColor toWorking x)
                      (Heatmap.lerp (Heatmap.green toWorking) (Heatmap.yellow toWorking)
                                    ((t - 0.25) / 0.25)))
  ∧ (0.5 <= t → t < 0.75 →
     Heatmap.Color_eq (Heatmap.intensityToColor toWorking x)
                      (Heatmap.lerp (Heatmap.yellow toWorking) (Heatmap.orange toWorking)
                                    ((t - 0.5) / 0.25)))
  ∧ (0.75 <= t →
     Heatmap.Color_eq (Heatmap.intensityToColor toWorking x)
                      (Heatmap.lerp (Heatmap.orange toWorking) (Heatmap.red toWorking)
                                    ((t - 0.75) / 0.25))).
Proof.
  intros H0 H10 t.
  assert (Ht : t == x * (1 # 10)) by (unfold t; field).
  assert (Hclamp : JS.Math_max 0 (JS.Math_min 1 t) == t).
  { destruct (clamp_cases t) as [[H E]|[(H1 & H2 & E)|[H E]]];
      rewrite E; lra. }
  unfold Heatmap.intensityToColor. fold t.
  set (t' := JS.Math_max 0 (JS.Math_min 1 t)) in *.
  destruct (JS.ltb t' 0.25) eqn:E1;
    [apply ltb_lt in E1 | apply ltb_ge in E1;
     destruct (JS.ltb t' 0.5) eqn:E2;
     [apply ltb_lt in E2 | apply ltb_ge in E2;
      destruct (JS.ltb t' 0.75) eqn:E3;
      [apply ltb_lt in E3 | apply ltb_ge in E3]]].
  all: repeat split; intros; try lra.
  all: apply lerp_proper; rewrite Hclamp; reflexivity.
Qed.

Lemma collect_spec {A : Type} (l : list (JS.completion A)) (vs : list A) :
  l = JS.Normal <$> vs → Heatmap.collect l = JS.Normal vs.
Proof.
  intros ->. induction vs as [|v vs IH]; [done|].
  rewrite fmap_cons. cbn [Heatmap.collect JS.bind]. by rewrite IH.
Qed.

(** When every vertex is classified to a region, [coloredGeometry]
    completes, and the colour of a vertex is the one [regionColor] picks
    for its region. *)
Lemma coloredGeometry_spec (toWorking : Q → Q)
    (regions : list Heatmap.VoronoiRegion)
    (vertexRegions : list Z) (isBoundary : list bool)
    (selectedRegions : list string) (hoveredRegion : option string)
    (regionIntensities : option (list Heatmap.RegionIntensity)) :
  Forall (fun r => is_Some (JS.index regions r)) vertexRegions →
  ∃ colors,
    Heatmap.coloredGeometry toWorking regions vertexRegions isBoundary selectedRegions
                            hoveredRegion regionIntensities
    = JS.Normal colors
    ∧ length colors = length vertexRegions
    ∧ ∀ i rIdx regionInfo,
        vertexRegions !! i = Some rIdx →
        JS.index regions rIdx = Some regionInfo →
        colors !! i
        = Some (Heatmap.regionColor toWorking selectedRegions hoveredRegion
                  (Heatmap.intensityMap regionIntensities) regionInfo
                  (bool_decide (isBoundary !! i = Some true))).
Proof.
  intros Hvalid. unfold Heatmap.coloredGeometry.
  set (m := Heatmap.intensityMap regionIntensities).
  set (pick := fun (i : nat) (rIdx : Z) =>
         match JS.index regions rIdx with
         | Some regionInfo =>
             Heatmap.regionColor toWorking selectedRegions hoveredRegion m regionInfo
               (bool_decide (isBoundary !! i = Some true))
         | None => (Heatmap.baseColor toWorking)
         end).
  exists (imap pick vertexRegions).
  split; [|split].
  - apply collect_spec, list_eq. intros i.
    rewrite list_lookup_fmap, !list_lookup_imap.
    destruct (vertexRegions !! i) as [rIdx|] eqn:Hi; [|done]. simpl.
    rewrite Forall_lookup in Hvalid. destruct (Hvalid _ _ Hi) as [info Hinfo].
    unfold Heatmap.vertexColor, pick. by rewrite Hinfo.
  - by rewrite length_imap.
  - intros i rIdx info Hi Hinfo.
    rewrite list_lookup_imap, Hi. simpl. unfold pick. by rewrite Hinfo.
Qed.

(** A region listed once in [regionIntensities] is looked up with its
    intensity. *)
Lemma intensityMap_lookup (l : list Heatmap.RegionIntensity)
    (ri : Heatmap.RegionIntensity) :
  NoDup (Heatmap.region <$> l) → ri ∈ l →
  Heatmap.intensityMap (Some l) !! Heatmap.region ri
  = Some (Heatmap.intensity ri).
Proof.
  unfold Heatmap.intensityMap.
  induction l as [|x l IH] using rev_ind; intros Hnd Hin.
  { by apply not_elem_of_nil in Hin. }
  rewrite foldl_app. simpl.
  rewrite fmap_app in Hnd. apply NoDup_app in Hnd as (Hnd & Hdisj & _).
  apply elem_of_app in Hin as [Hin|Hin].
  - rewrite lookup_insert_ne; [by apply IH|].
    intros Heq. apply (Hdisj (Heatmap.region ri)).
    + apply list_elem_of_fmap. by exists ri.
    + rewrite <- Heq. simpl. apply list_elem_of_here.
  - apply list_elem_of_singleton in Hin as ->. apply lookup_insert_eq.
Qed.

(** The lookup table holds, for each region, the intensity supplied
    last. *)
Lemma intensityMap_supplied
    (regionIntensities : option (list Heatmap.RegionIntensity))
    (regionName : string) :
  Heatmap.intensityMap regionIntensities !! regionName
  = Heatmap.supplied regionIntensities regionName.
Proof.
  destruct regionIntensities as [l|]; [|done].
  unfold Heatmap.intensityMap, Heatmap.supplied.
  induction l as [|x l IH] using rev_ind; [done|].
  rewrite foldl_snoc, filter_app, filter_cons, filter_nil.
  case_decide as Hx.
  - rewrite last_snoc, <- Hx. apply lookup_insert_eq.
  - rewrite app_nil_r, lookup_insert_ne by done. exact IH.
Qed.

(** Colours that differ in their red channel. *)
Lemma Color_eq_cr (c d : Heatmap.Color) :
  Heatmap.Color_eq c d → Heatmap.cr c == Heatmap.cr d.
Proof. by intros (H & _). Qed.

(** C6 fails for every conversion to the working colour space that
    keeps different channels apart. *)
Lemma bypass_fails_for_every_conversion (toWorking : Q → Q) :
  (∀ a b : Q, a < b → toWorking a < toWorking b) →
  let forehead := Heatmap.mkVoronoi "Forehead" (vec (0, 0.6, 0.8)) true in
  ¬ Heatmap.Color_eq
      (Heatmap.regionColor toWorking ["Forehead"] None
         (Heatmap.intensityMap (Some [Heatmap.mkRegionIntensity "Forehead" 0]))
         forehead false)
      (Heatmap.intensityToColor toWorking 0)
  ∧ ¬ Heatmap.Color_eq
        (Heatmap.regionColor toWorking [] None
           (Heatmap.intensityMap
              (Some [Heatmap.mkRegionIntensity "Forehead" 7]))
           forehead true)
        (Heatmap.intensityToColor toWorking 7).
Proof.
  intros Hmono forehead.
  assert (Hsel : Heatmap.regionColor toWorking ["Forehead"] None
                   (Heatmap.intensityMap
                      (Some [Heatmap.mkRegionIntensity "Forehead" 0]))
                   forehead false
                 = Heatmap.selectedColor toWorking)
    by (vm_compute; reflexivity).
  assert (Hseam : Heatmap.regionColor toWorking [] None
                    (Heatmap.intensityMap
                       (Some [Heatmap.mkRegionIntensity "Forehead" 7]))
                    forehead true
                  = Heatmap.boundaryColor toWorking)
    by (vm_compute; reflexivity).
  rewrite Hsel, Hseam.
  destruct (intensityToColor_bands toWorking 0) as (Hb0 & _); [lra | lra |].
  specialize (Hb0 eq_refl).
  destruct (intensityToColor_bands toWorking 7) as (_ & _ & Hb7 & _);
    [lra | lra |].
  assert (Hb7' := Hb7 ltac:(discriminate) eq_refl). clear Hb7.
  pose proof (Hmono (147 # 255) (252 # 255) eq_refl) as H1.
  pose proof (Hmono (156 # 255) (251 # 255) eq_refl) as H2.
  pose proof (Hmono (156 # 255) (253 # 255) eq_refl) as H3.
  split; intros Heq%Color_eq_cr.
  - rewrite (Color_eq_cr _ _ Hb0) in Heq. revert Heq H1.
    unfold Heatmap.selectedColor, Heatmap.lerp, Heatmap.blue, Heatmap.green,
      Heatmap.hex. cbn [Heatmap.cr].
    change (inject_Z 252 / 255) with (252 # 255).
    change (inject_Z 147 / 255) with (147 # 255).
    assert (E : 0 / 10 / 0.25 == 0) by reflexivity.
    rewrite E. intros Heq H1. lra.
  - rewrite (Color_eq_cr _ _ Hb7') in Heq. revert Heq H2 H3.
    unfold Heatmap.boundaryColor, Heatmap.lerp, Heatmap.yellow,
      Heatmap.orange, Heatmap.hex. cbn [Heatmap.cr].
    change (inject_Z 156 / 255) with (156 # 255).
    change (inject_Z 253 / 255) with (253 # 255).
    change (inject_Z 251 / 255) with (251 # 255).
    assert (E : (7 / 10 - 0.5) / 0.25 == 4 # 5) by reflexivity.
    rewrite E. intros Heq H2 H3. lra.
Qed.

(** C6, as stated, fails, in two ways, whatever conversion to the working
    colour space keeps different channels apart (here, the identity).
    For a vertex off the boundary, a supplied intensity of 0 leaves the
    region on selection colouring (here the colour of a selected region),
    not on the first stop of the ramp; and for a positive intensity, a
    boundary vertex gets the seam colour, not the colour of the ramp. *)
Lemma heatmap_bypass_counterexample :
  ¬ (∀ (toWorking : Q → Q)
       (selectedRegions : list string) (hoveredRegion : option string)
       (regionIntensities : list Heatmap.RegionIntensity)
       (ri : Heatmap.RegionIntensity) (regionInfo : Heatmap.VoronoiRegion),
        (∀ a b : Q, a < b → toWorking a < toWorking b) →
        Heatmap.clickable regionInfo = true →
        NoDup (Heatmap.region <$> regionIntensities) →
        ri ∈ regionIntensities →
        Heatmap.region ri = Heatmap.name regionInfo →
        0 <= Heatmap.intensity ri <= 10 →
        Heatmap.Color_eq
          (Heatmap.regionColor toWorking selectedRegions hoveredRegion
             (Heatmap.intensityMap (Some regionIntensities)) regionInfo false)
          (Heatmap.intensityToColor toWorking (Heatmap.intensity ri)))
  ∧ ¬ (∀ (toWorking : Q → Q)
         (selectedRegions : list string) (hoveredRegion : option string)
         (regionIntensities : list Heatmap.RegionIntensity)
         (ri : Heatmap.RegionIntensity) (regionInfo : Heatmap.VoronoiRegion)
         (isBoundary_i : bool),
          (∀ a b : Q, a < b → toWorking a < toWorking b) →
          Heatmap.clickable regionInfo = true →
          NoDup (Heatmap.region <$> regionIntensities) →
          ri ∈ regionIntensities →
          Heatmap.region ri = Heatmap.name regionInfo →
          0 < Heatmap.intensity ri <= 10 →
          Heatmap.Color_eq
            (Heatmap.regionColor toWorking selectedRegions hoveredRegion
               (Heatmap.intensityMap (Some regionIntensities)) regionInfo
               isBoundary_i)
            (Heatmap.intensityToColor toWorking (Heatmap.intensity ri))).
Proof.
  assert (Hid : ∀ a b : Q, a < b → (fun c : Q => c) a < (fun c : Q => c) b)
    by (intros a b Hab; exact Hab).
  destruct (bypass_fails_for_every_conversion (fun c => c) Hid) as [N0 N7].
  split; intros H.
  - apply N0.
    apply (H (fun c => c) ["Forehead"] None
             [Heatmap.mkRegionIntensity "Forehead" 0]
             (Heatmap.mkRegionIntensity "Forehead" 0)
             (Heatmap.mkVoronoi "Forehead" (vec (0, 0.6, 0.8)) true)).
    + exact Hid.
    + reflexivity.
    + apply NoDup_singleton.
    + apply list_elem_of_here.
    + reflexivity.
    + cbn [Heatmap.intensity]. split; lra.
  - apply N7.
    apply (H (fun c => c) [] None [Heatmap.mkRegionIntensity "Forehead" 7]
             (Heatmap.mkRegionIntensity "Forehead" 7)
             (Heatmap.mkVoronoi "Forehead" (vec (0, 0.6, 0.8)) true) true).
    + exact Hid.
    + reflexivity.
    + apply NoDup_singleton.
    + apply list_elem_of_here.
    + reflexivity.
    + cbn [Heatmap.intensity]. split; [reflexivity | discriminate].
Qed.

(** The same on the whole colour attribute, with a second vertex on a
    seam and two intensities supplied for the forehead, of which the last
    counts: intensity 0 gives the selection colour, and a boundary vertex
    gets the seam colour whatever the intensity of its region. *)
Example coloredGeometry_run (toWorking : Q → Q) :
  Heatmap.coloredGeometry toWorking Heatmap.ALL_VORONOI_REGIONS
    [0; 1]%Z [false; true] ["Forehead"] None
    (Some [Heatmap.mkRegionIntensity "Forehead" 4;
           Heatmap.mkRegionIntensity "Forehead" 0;
           Heatmap.mkRegionIntensity "Left temple" 7])
  = JS.Normal [Heatmap.selectedColor toWorking;
               Heatmap.boundaryColor toWorking].
Proof. vm_compute. reflexivity. Qed.

(** C6, amended. With every vertex classified to a region, the colour
    attribute holds one colour per vertex.  A boundary vertex has the seam
    colour.  A vertex off the boundary whose region is clickable has the
    colour of the ramp at the intensity supplied for its region (the one
    supplied last), when that intensity is greater than 0, whatever is
    selected or hovered; and when no intensity is supplied for the region,
    or one that is not greater than 0, it has the colour of its selection
    and hover state.  A vertex off the boundary of a region that is not
    clickable has the base colour.  The ramp interpolates linearly between
    consecutive stops of blue, green, yellow, orange, red within each
    quarter of [intensity / 10], for an intensity between 0 and 10. *)
Theorem heatmap_colouring (toWorking : Q → Q)
    (regions : list Heatmap.VoronoiRegion)
    (vertexRegions : list Z) (isBoundary : list bool)
    (selectedRegions : list string) (hoveredRegion : option string)
    (regionIntensities : option (list Heatmap.RegionIntensity))
    (i : nat) (rIdx : Z) (regionInfo : Heatmap.VoronoiRegion) :
  Forall (fun r => is_Some (JS.index regions r)) vertexRegions →
  vertexRegions !! i = Some rIdx →
  JS.index regions rIdx = Some regionInfo →
  let regionName := Heatmap.name regionInfo in
  let regionIntensity := Heatmap.supplied regionIntensities regionName in
  (∃ (colors : list Heatmap.Color) (c : Heatmap.Color),
      Heatmap.coloredGeometry toWorking regions vertexRegions isBoundary
                              selectedRegions hoveredRegion regionIntensities
      = JS.Normal colors
      ∧ length colors = length vertexRegions
      ∧ colors !! i = Some c
      ∧ (isBoundary !! i = Some true → c = Heatmap.boundaryColor toWorking)
      ∧ (isBoundary !! i ≠ Some true →
         Heatmap.clickable regionInfo = true →
         (∀ x, regionIntensity = Some x → 0 < x →
               c = Heatmap.intensityToColor toWorking x)
         ∧ (regionIntensity = None
            ∨ (∃ x, regionIntensity = Some x ∧ x <= 0) →
            (regionName ∈ selectedRegions →
             hoveredRegion = Some regionName →
             c = Heatmap.selectedHoveredColor toWorking)
            ∧ (regionName ∈ selectedRegions →
               hoveredRegion ≠ Some regionName →
               c = Heatmap.selectedColor toWorking)
            ∧ (regionName ∉ selectedRegions →
               hoveredRegion = Some regionName →
               c = Heatmap.hoveredColor toWorking)
            ∧ (regionName ∉ selectedRegions →
               hoveredRegion ≠ Some regionName →
               c = Heatmap.baseColor toWorking)))
      ∧ (isBoundary !! i ≠ Some true →
         Heatmap.clickable regionInfo = false →
         c = Heatmap.baseColor toWorking))
  ∧ (∀ x : Q, 0 <= x → x <= 10 →
       let t := x / 10 in
       (t < 0.25 →
        Heatmap.Color_eq (Heatmap.intensityToColor toWorking x)
                         (Heatmap.lerp (Heatmap.blue toWorking)
                                       (Heatmap.green toWorking) (t / 0.25)))
       ∧ (0.25 <= t → t < 0.5 →
          Heatmap.Color_eq (Heatmap.intensityToColor toWorking x)
                           (Heatmap.lerp (Heatmap.green toWorking)
                                         (Heatmap.yellow toWorking)
                                         ((t - 0.25) / 0.25)))
       ∧ (0.5 <= t → t < 0.75 →
          Heatmap.Color_eq (Heatmap.intensityToColor toWorking x)
                           (Heatmap.lerp (Heatmap.yellow toWorking)
                                         (Heatmap.orange toWorking)
                                         ((t - 0.5) / 0.25)))
       ∧ (0.75 <= t →
          Heatmap.Color_eq (Heatmap.intensityToColor toWorking x)
                           (Heatmap.lerp (Heatmap.orange toWorking)
                                         (Heatmap.red toWorking)
                                         ((t - 0.75) / 0.25)))).
Proof.
  intros Hvalid Hi Hinfo regionName regionIntensity.
  split; [|intros x; apply intensityToColor_bands].
  destruct (coloredGeometry_spec toWorking regions vertexRegions isBoundary
              selectedRegions hoveredRegion regionIntensities Hvalid)
    as (colors & Hrun & Hlen & Hcol).
  exists colors. eexists. split; [exact Hrun|]. split; [exact Hlen|].
  split; [exact (Hcol _ _ _ Hi Hinfo)|].
  unfold Heatmap.regionColor. rewrite intensityMap_supplied.
  fold regionName. fold regionIntensity.
  split; [|split].
  - intros Hb. rewrite (bool_decide_eq_true_2 _ Hb).
    by destruct (Heatmap.clickable regionInfo).
  - intros Hb Hclick. rewrite (bool_decide_eq_false_2 _ Hb), Hclick.
    split.
    + intros x -> Hx. apply ltb_lt in Hx. by rewrite Hx.
    + intros Hnone.
      assert (Hguard : match regionIntensity with
                       | Some x => JS.ltb 0 x
                       | None => false
                       end = false).
      { destruct Hnone as [->|(x & -> & Hx)]; [done|]. by apply ltb_ge. }
      rewrite Hguard. unfold JS.includes.
      repeat split; intros Hs Hh.
      * by rewrite !bool_decide_eq_true_2.
      * by rewrite bool_decide_eq_true_2, bool_decide_eq_false_2.
      * by rewrite bool_decide_eq_false_2, bool_decide_eq_true_2.
      * by rewrite !bool_decide_eq_false_2.
  - intros Hb Hclick. by rewrite (bool_decide_eq_false_2 _ Hb), Hclick.
Qed.

(** A forehead vertex off the boundary, with the forehead selected and
    hovered and two intensities supplied for it: the one supplied last,
    7, colours it. *)
Lemma heatmap_colouring_witness :
  let regionIntensities :=
    Some [Heatmap.mkRegionIntensity "Forehead" 3;
          Heatmap.mkRegionIntensity "Forehead" 7] in
  ∃ colors,
    Heatmap.coloredGeometry (fun c => c) Heatmap.ALL_VORONOI_REGIONS [0%Z]
                            [false] ["Forehead"] (Some "Forehead")
                            regionIntensities
    = JS.Normal colors
    ∧ colors !! 0%nat = Some (Heatmap.intensityToColor (fun c => c) 7)
    ∧ Heatmap.Color_eq
        (Heatmap.intensityToColor (fun c => c) 7)
        (Heatmap.lerp (Heatmap.yellow (fun c => c))
                      (Heatmap.orange (fun c => c))
                      ((7 / 10 - 0.5) / 0.25)).
Proof.
  intros regionIntensities.
  destruct (heatmap_colouring (fun c => c) Heatmap.ALL_VORONOI_REGIONS
              [0%Z] [false] ["Forehead"] (Some "Forehead") regionIntensities
              0 0%Z (Heatmap.mkVoronoi "Forehead" (vec (0, 0.6, 0.8)) true))
    as [(colors & c & Hrun & _ & Hc & _ & Hoff & _) Hramp].
  - repeat constructor. by eexists.
  - reflexivity.
  - reflexivity.
  - exists colors. split; [exact Hrun|].
    destruct Hoff as [Hheat _]; [discriminate | reflexivity |].
    rewrite Hc, (Hheat 7 eq_refl eq_refl). split; [reflexivity|].
    destruct (Hramp 7) as (_ & _ & Hband & _); [lra | lra |].
    apply Hband; [discriminate | reflexivity].
Defined.

(** ** Toggling a region on the log page *)

Lemma includes_true (arr : list string) (s : string) :
  JS.includes arr s = true ↔ s ∈ arr.
Proof. unfold JS.includes. apply bool_decide_eq_true. Qed.

Lemma includes_false (arr : list string) (s : string) :
  JS.includes arr s = false ↔ s ∉ arr.
Proof. unfold JS.includes. apply bool_decide_eq_false. Qed.

Lemma toggle_absent (region : string) (prev : list string) :
  region ∉ prev → LogPage.toggle region prev = prev ++ [region].
Proof.
  intros H. unfold LogPage.toggle. apply includes_false in H. by rewrite H.
Qed.

Lemma toggle_present (region : string) (prev : list string) :
  region ∈ prev →
  LogPage.toggle region prev = filter (fun r => r ≠ region) prev.
Proof.
  intros H. unfold LogPage.toggle. apply includes_true in H. by rewrite H.
Qed.

Lemma filter_absent (region : string) (prev : list string) :
  region ∉ prev → filter (fun r => r ≠ region) prev = prev.
Proof.
  induction prev as [|x prev IH]; [done|].
  intros [Hx Hprev]%not_elem_of_cons.
  rewrite filter_cons_True by done. by rewrite IH.
Qed.

Lemma handleToggleRegion_selected (region : string) (st : LogPage.State) :
  LogPage.selectedRegions (LogPage.handleToggleRegion region st)
  = LogPage.toggle region (LogPage.selectedRegions st).
Proof.
  unfold LogPage.handleToggleRegion.
  by destruct (JS.includes (LogPage.selectedRegions st) region).
Qed.

Lemma toggle_twice_elem (region : string) (prev : list string) (r : string) :
  r ∈ LogPage.toggle region (LogPage.toggle region prev) ↔ r ∈ prev.
Proof.
  destruct (decide (region ∈ prev)) as [Hin|Hnin].
  - rewrite (toggle_present _ _ Hin).
    rewrite toggle_absent by (rewrite list_elem_of_filter; tauto).
    rewrite elem_of_app, list_elem_of_filter, list_elem_of_singleton.
    split.
    + intros [[_ H]| ->]; done.
    + intros H. destruct (decide (r = region)); [by right | by left].
  - rewrite (toggle_absent _ _ Hnin).
    rewrite toggle_present by (rewrite elem_of_app, list_elem_of_singleton; tauto).
    rewrite filter_app, (filter_absent _ _ Hnin).
    rewrite filter_cons_False, filter_nil, app_nil_r by (intros H; by apply H).
    done.
Qed.

(** C7. The toggle callback appends an absent region to the selection and
    removes a present one; toggling the same region twice leaves the set
    of selected regions as it was.  (The list itself comes back unchanged
    when the region was absent, and rearranged, the region moved to the
    end, when it was present.) *)
Theorem toggle_twice_restores_selection (region : string)
    (st : LogPage.State) :
  let selected := LogPage.selectedRegions st in
  let once := LogPage.selectedRegions (LogPage.handleToggleRegion region st) in
  let twice :=
    LogPage.selectedRegions
      (LogPage.handleToggleRegion region
         (LogPage.handleToggleRegion region st)) in
  (region ∉ selected → once = selected ++ [region])
  ∧ (region ∈ selected →
     (region ∉ once) ∧ ∀ r, r ≠ region → (r ∈ once ↔ r ∈ selected))
  ∧ (∀ r, r ∈ twice ↔ r ∈ selected)
  ∧ list_to_set twice =@{gset string} list_to_set selected
  ∧ (region ∉ selected → twice = selected)
  ∧ (NoDup selected → twice ≡ₚ selected).
Proof.
  intros selected once twice. subst once twice.
  rewrite !handleToggleRegion_selected. fold selected.
  split; [apply toggle_absent|].
  split.
  { intros Hin. rewrite (toggle_present _ _ Hin). split.
    - rewrite list_elem_of_filter. tauto.
    - intros r Hr. rewrite list_elem_of_filter. tauto. }
  split; [apply toggle_twice_elem|].
  split.
  { apply set_eq. intros r. rewrite !elem_of_list_to_set.
    apply toggle_twice_elem. }
  split.
  { intros Hnin. rewrite (toggle_absent _ _ Hnin).
    rewrite toggle_present by (rewrite elem_of_app, list_elem_of_singleton; tauto).
    rewrite filter_app, (filter_absent _ _ Hnin).
    rewrite filter_cons_False, filter_nil, app_nil_r by (intros H; by apply H).
    done. }
  intros Hnd. apply NoDup_Permutation; [|done|apply toggle_twice_elem].
  destruct (decide (region ∈ selected)) as [Hin|Hnin].
  - rewrite (toggle_present _ _ Hin).
    rewrite toggle_absent by (rewrite list_elem_of_filter; tauto).
    apply NoDup_app. split; [by apply NoDup_filter|]. split.
    + intros r [Hr _]%list_elem_of_filter Hr'%list_elem_of_singleton. done.
    + apply NoDup_singleton.
  - rewrite (toggle_absent _ _ Hnin).
    rewrite toggle_present by (rewrite elem_of_app, list_elem_of_singleton; tauto).
    rewrite filter_app, (filter_absent _ _ Hnin).
    rewrite filter_cons_False, filter_nil, app_nil_r by (intros H; by apply H).
    done.
Qed.

Lemma toggle_twice_restores_selection_witness :
  let st := LogPage.mkState ["Forehead"; "Neck base"]
                            {[ "Forehead" := 7; "Neck base" := 5 ]}
                            {[ "Forehead" := []; "Neck base" := [] ]} in
  let twice :=
    LogPage.selectedRegions
      (LogPage.handleToggleRegion "Forehead"
         (LogPage.handleToggleRegion "Forehead" st)) in
  ("Forehead" ∉ LogPage.selectedRegions
                  (LogPage.handleToggleRegion "Forehead" st))
  ∧ twice ≡ₚ ["Forehead"; "Neck base"]
  ∧ LogPage.selectedRegions
      (LogPage.handleToggleRegion "Back of head"
         (LogPage.handleToggleRegion "Back of head" st))
    = ["Forehead"; "Neck base"].
Proof.
  intros st twice.
  destruct (toggle_twice_restores_selection "Forehead" st)
    as (_ & Hrem & _ & _ & _ & Hperm).
  destruct (toggle_twice_restores_selection "Back of head" st)
    as (_ & _ & _ & _ & Hsame & _).
  split; [apply Hrem; apply list_elem_of_here|].
  split.
  - apply Hperm. simpl. apply NoDup_cons_2; [|apply NoDup_singleton].
    intros Hin%list_elem_of_singleton. discriminate Hin.
  - apply Hsame. simpl. intros Hin.
    apply elem_of_cons in Hin as [Hin|Hin]; [discriminate Hin|].
    apply list_elem_of_singleton in Hin. discriminate Hin.
Defined.

Example toggle_absent_twice :
  LogPage.toggle "Forehead" (LogPage.toggle "Forehead" ["Neck base"])
  = ["Neck base"].
Proof. vm_compute. reflexivity. Qed.

(** A present region toggled twice moves to the end of the list. *)
Example toggle_present_twice :
  LogPage.toggle "Forehead"
    (LogPage.toggle "Forehead" ["Forehead"; "Neck base"])
  = ["Neck base"; "Forehead"].
Proof. vm_compute. reflexivity. Qed.

(** ** Adding a session *)

(** C10. Without a logged-in user [addSession] changes nothing.  With
    one, it appends to the sessions exactly one session, which carries the
    user's id and the fields of the input, and leaves the earlier sessions
    and the current user as they were. *)
Theorem addSession_appends_for_current_user (uuid : string)
    (sessionData : Store.SessionData.t) (st : Store.AppState) :
  (Store.currentUser st = None → Store.addSession uuid sessionData st = st)
  ∧ (∀ user : Store.User.t,
        Store.currentUser st = Some user →
        ∃ newSession : Store.MigraineSession,
          Store.sessions (Store.addSession uuid sessionData st)
          = Store.sessions st ++ [newSession]
          ∧ Store.user_id newSession = Store.User.id user
          ∧ Store.id newSession = uuid
          ∧ Store.start_time newSession
            = Store.SessionData.start_time sessionData
          ∧ Store.end_time newSession = Store.SessionData.end_time sessionData
          ∧ Store.notes newSession = Store.SessionData.notes sessionData
          ∧ Store.regions newSession = Store.SessionData.regions sessionData
          ∧ Store.currentUser (Store.addSession uuid sessionData st)
            = Store.currentUser st).
Proof.
  unfold Store.addSession. split.
  - intros Hnone. by rewrite Hnone.
  - intros user Hsome. rewrite Hsome. eexists. split; [reflexivity|].
    simpl. by rewrite Hsome.
Qed.

Lemma addSession_appends_for_current_user_witness :
  let data := Store.SessionData.mk "2024-01-01T10:00" "2024-01-01T11:00" "aura"
                [Store.mkRegionLog "Forehead" 6] in
  let user := Store.User.mk "u1" "a@b.c" "2024-01-01" in
  let earlier := Store.mkSession "s0" "u0" "t0" "t1" "" [] in
  Store.addSession "s1" data (Store.mkState None [earlier])
  = Store.mkState None [earlier]
  ∧ ∃ newSession : Store.MigraineSession,
      Store.sessions
        (Store.addSession "s1" data (Store.mkState (Some user) [earlier]))
      = [earlier] ++ [newSession]
      ∧ Store.user_id newSession = "u1"
      ∧ Store.id newSession = "s1"
      ∧ Store.regions newSession = [Store.mkRegionLog "Forehead" 6].
Proof.
  intros data user earlier. split.
  - apply (addSession_appends_for_current_user "s1" data
             (Store.mkState None [earlier])). reflexivity.
  - destruct (addSession_appends_for_current_user "s1" data
                (Store.mkState (Some user) [earlier])) as [_ H].
    destruct (H user eq_refl) as (new & H1 & H2 & H3 & _ & _ & _ & H7 & _).
    exists new. done.
Defined.

(** ** Region frequency *)

Section MapFacts.
Context {V : Type}.
Implicit Types (m : list (string * V)) (k : string) (v : V).

Lemma Map_get_set_eq m k v : Store.Map_get (Store.Map_set m k v) k = Some v.
Proof.
  induction m as [|[k' v'] m IH]; simpl.
  - by rewrite bool_decide_eq_true_2.
  - case_bool_decide as Hk; simpl.
    + by rewrite bool_decide_eq_true_2.
    + by rewrite bool_decide_eq_false_2.
Qed.

Lemma Map_get_set_ne m k k' v :
  k ≠ k' → Store.Map_get (Store.Map_set m k v) k' = Store.Map_get m k'.
Proof.
  intros Hne. induction m as [|[k1 v1] m IH]; simpl.
  - by rewrite bool_decide_eq_false_2.
  - case_bool_decide as Hk; simpl.
    + subst k1. by rewrite !bool_decide_eq_false_2.
    + by rewrite IH.
Qed.

Lemma Map_get_None m k : Store.Map_get m k = None ↔ k ∉ m.*1.
Proof.
  induction m as [|[k' v'] m IH]; simpl.
  - split; [intros _; apply not_elem_of_nil | done].
  - rewrite not_elem_of_cons. case_bool_decide as Hk.
    + split; [done | intros [Hne _]; by destruct Hne].
    + rewrite IH. split; [intros ?; split; [by intros ->|done] | tauto].
Qed.

Lemma Map_get_Some m k v :
  NoDup m.*1 → (Store.Map_get m k = Some v ↔ (k, v) ∈ m).
Proof.
  induction m as [|[k' v'] m IH]; simpl; intros Hnd.
  - split; [done | intros H; by apply not_elem_of_nil in H].
  - apply NoDup_cons in Hnd as [Hk' Hnd]. rewrite elem_of_cons.
    case_bool_decide as Hk.
    + subst k'. split; [intros [= ->]; by left|].
      intros [[= ->]|Hin]; [done|]. exfalso. apply Hk'.
      apply list_elem_of_fmap. by exists (k, v).
    + rewrite (IH Hnd). split; [by right|].
      intros [[= -> ->]|Hin]; [done|done].
Qed.

Lemma Map_set_keys m k v :
  (Store.Map_set m k v).*1
  = if bool_decide (k ∈ m.*1) then m.*1 else m.*1 ++ [k].
Proof.
  induction m as [|[k' v'] m IH].
  - by rewrite bool_decide_eq_false_2 by apply not_elem_of_nil.
  - cbn [Store.Map_set]. rewrite !fmap_cons. cbn [fst].
    destruct (bool_decide (k' = k)) eqn:Hk.
    + apply bool_decide_eq_true in Hk as ->.
      by rewrite fmap_cons, bool_decide_eq_true_2 by apply list_elem_of_here.
    + apply bool_decide_eq_false in Hk.
      rewrite fmap_cons, IH. cbn [fst].
      destruct (bool_decide (k ∈ m.*1)) eqn:Hin.
      * apply bool_decide_eq_true in Hin.
        by rewrite bool_decide_eq_true_2 by by apply list_elem_of_further.
      * apply bool_decide_eq_false in Hin.
        rewrite bool_decide_eq_false_2; [done|].
        rewrite not_elem_of_cons. split; [by intros ->|done].
Qed.

Lemma Map_set_NoDup m k v : NoDup m.*1 → NoDup (Store.Map_set m k v).*1.
Proof.
  intros Hnd. rewrite Map_set_keys. case_bool_decide as Hin; [done|].
  apply NoDup_app. split; [done|]. split; [|apply NoDup_singleton].
  intros x Hx ->%list_elem_of_singleton. done.
Qed.
End MapFacts.

Lemma Qsum_snoc (l : list Q) (x : Q) :
  Store.Qsum (l ++ [x]) == Store.Qsum l + x.
Proof.
  unfold Store.Qsum. induction l as [|y l IH]; simpl; [lra|].
  rewrite IH. lra.
Qed.

Lemma occurrences_snoc (name : string) (logs : list Store.RegionLog)
    (r : Store.RegionLog) :
  Store.occurrences name (logs ++ [r])
  = Store.occurrences name logs
    ++ (if decide (Store.region_name r = name) then [r] else []).
Proof.
  unfold Store.occurrences. rewrite filter_app. reflexivity.
Qed.

Lemma tally_step (regionMap : list (string * Store.Tally))
    (logs : list Store.RegionLog) (r : Store.RegionLog) :
  Store.tally_ok regionMap logs →
  Store.tally_ok (Store.tally regionMap r) (logs ++ [r]).
Proof.
  intros [Hnd Hinv]. unfold Store.tally. split; [by apply Map_set_NoDup|].
  intros name. rewrite occurrences_snoc.
  destruct (decide (Store.region_name r = name)) as [Heq|Hne].
  - subst name. rewrite Map_get_set_eq. simpl.
    specialize (Hinv (Store.region_name r)).
    destruct (Store.Map_get regionMap (Store.region_name r)) as [t|]; simpl.
    + destruct Hinv as (_ & Hc & Ht).
      split; [by intros [? ?]%app_eq_nil|]. split.
      * rewrite length_app. simpl. lia.
      * rewrite fmap_app.
        change (Store.intensity <$> [r]) with [Store.intensity r].
        rewrite Qsum_snoc, Ht. reflexivity.
    + rewrite Hinv. simpl. split; [done|]. split; [done|].
      unfold Store.Qsum. simpl. lra.
  - rewrite Map_get_set_ne by done. rewrite app_nil_r. apply Hinv.
Qed.

Lemma tally_loop (logs : list Store.RegionLog) :
  Store.tally_ok (foldl Store.tally [] logs) logs.
Proof.
  induction logs as [|r logs IH] using rev_ind.
  - split; [constructor|]. intros name. done.
  - rewrite foldl_app. simpl. by apply tally_step.
Qed.

Lemma regionMap_allLogs (sessions : list Store.MigraineSession) :
  ∀ m, foldl (fun m session => foldl Store.tally m (Store.regions session))
             m sessions
       = foldl Store.tally m (Store.allLogs sessions).
Proof.
  unfold Store.allLogs.
  induction sessions as [|s sessions IH]; intros m; [done|].
  rewrite fmap_cons. simpl. rewrite foldl_app. apply IH.
Qed.

Lemma elem_of_allLogs (sessions : list Store.MigraineSession)
    (r : Store.RegionLog) :
  r ∈ Store.allLogs sessions ↔ ∃ s, s ∈ sessions ∧ r ∈ Store.regions s.
Proof.
  unfold Store.allLogs. induction sessions as [|s sessions IH].
  - split; [intros H; by apply not_elem_of_nil in H|].
    intros (s & H & _). by apply not_elem_of_nil in H.
  - rewrite fmap_cons. simpl. rewrite elem_of_app, IH. split.
    + intros [H|(s' & Hs' & H)].
      * exists s. split; [apply list_elem_of_here | done].
      * exists s'. split; [by apply list_elem_of_further | done].
    + intros (s' & [->|Hs']%elem_of_cons & H); [by left|].
      right. by exists s'.
Qed.

Lemma occurrences_nonempty (name : string) (logs : list Store.RegionLog) :
  Store.occurrences name logs ≠ []
  ↔ ∃ r, r ∈ logs ∧ Store.region_name r = name.
Proof.
  unfold Store.occurrences. split.
  - intros Hne. destruct (filter _ logs) as [|r l] eqn:E; [done|].
    assert (Hin : r ∈ filter (fun r => Store.region_name r = name) logs)
      by (rewrite E; apply list_elem_of_here).
    apply list_elem_of_filter in Hin as [Hn Hin]. by exists r.
  - intros (r & Hin & Hn) E.
    assert (Hin' : r ∈ filter (fun r => Store.region_name r = name) logs)
      by by apply list_elem_of_filter.
    rewrite E in Hin'. by apply not_elem_of_nil in Hin'.
Qed.

(** *** The stable sort *)

Section SortFacts.
Context {A : Type} (compareFn : A → A → Z).
Hypothesis compareFn_total :
  ∀ a b, (0 < compareFn a b)%Z → (compareFn b a <= 0)%Z.
Hypothesis compareFn_trans :
  ∀ a b c, (compareFn a b <= 0)%Z → (compareFn b c <= 0)%Z →
           (compareFn a c <= 0)%Z.

Lemma sort_insert_perm (x : A) (l : list A) :
  Store.sort_insert compareFn x l ≡ₚ x :: l.
Proof.
  induction l as [|y l IH]; simpl; [done|].
  destruct (compareFn x y <=? 0)%Z; [done|].
  rewrite IH. apply perm_swap.
Qed.

Lemma Array_sort_perm (l : list A) : Store.Array_sort compareFn l ≡ₚ l.
Proof.
  unfold Store.Array_sort. induction l as [|x l IH]; simpl; [done|].
  by rewrite sort_insert_perm, IH.
Qed.

Lemma sort_insert_sorted (x : A) (l : list A) :
  StronglySorted (fun a b => (compareFn a b <= 0)%Z) l →
  StronglySorted (fun a b => (compareFn a b <= 0)%Z)
                 (Store.sort_insert compareFn x l).
Proof.
  induction 1 as [|y l Hsorted IH Hall]; simpl.
  { repeat constructor. }
  destruct (Z.leb_spec (compareFn x y) 0) as [Hle|Hgt].
  - constructor; [by constructor|].
    constructor; [done|].
    eapply Forall_impl; [exact Hall|]. intros z Hz. simpl in Hz.
    by apply (compareFn_trans x y z).
  - constructor; [exact IH|].
    rewrite sort_insert_perm. constructor; [|done].
    by apply compareFn_total.
Qed.

Lemma Array_sort_sorted (l : list A) :
  StronglySorted (fun a b => (compareFn a b <= 0)%Z)
                 (Store.Array_sort compareFn l).
Proof.
  unfold Store.Array_sort. induction l as [|x l IH]; simpl; [constructor|].
  by apply sort_insert_sorted.
Qed.
End SortFacts.

Lemma StronglySorted_weaken {A : Type} (R R' : A → A → Prop) (l : list A) :
  (∀ a b, R a b → R' a b) → StronglySorted R l → StronglySorted R' l.
Proof.
  intros Himp. induction 1 as [|x l Hs IH Hall]; constructor; [done|].
  eapply Forall_impl; [exact Hall|]. intros y. apply Himp.
Qed.

Lemma toFrequency_region (regionMap : list (string * Store.Tally)) :
  Store.region <$> (Store.toFrequency <$> regionMap) = regionMap.*1.
Proof.
  rewrite <- list_fmap_compose. apply list_fmap_ext.
  intros i [k t] _. reflexivity.
Qed.

Lemma round_to_tenth (x : Q) :
  Store.rounded_to_tenth x (inject_Z (JS.Math_round (x * 10)) / 10).
Proof.
  unfold Store.rounded_to_tenth, JS.Math_round.
  set (n := Qfloor (x * 10 + (1 # 2))).
  pose proof (Qfloor_le (x * 10 + (1 # 2))) as Hlo.
  pose proof (Qlt_floor (x * 10 + (1 # 2))) as Hhi.
  fold n in Hlo, Hhi. rewrite inject_Z_plus in Hhi.
  assert (Hdiv : inject_Z n / 10 == inject_Z n * (1 # 10)) by field.
  split; [by exists n|]. rewrite Hdiv.
  change (inject_Z 1) with 1 in Hhi. split; lra.
Qed.

Lemma toFrequency_spec (regionMap : list (string * Store.Tally))
    (logs : list Store.RegionLog) (e : Store.RegionFrequency) :
  Store.tally_ok regionMap logs →
  e ∈ Store.toFrequency <$> regionMap →
  Store.count e = length (Store.occurrences (Store.region e) logs)
  ∧ (0 < Store.count e)%nat
  ∧ Store.avgIntensity e
    == inject_Z (JS.Math_round (Store.mean (Store.region e) logs * 10)) / 10.
Proof.
  intros [Hnd Hinv] (kt & -> & Hin)%list_elem_of_fmap.
  destruct kt as [k t]. apply (Map_get_Some _ _ _ Hnd) in Hin.
  specialize (Hinv k). rewrite Hin in Hinv. destruct Hinv as (Hne & Hc & Ht).
  assert (Hpos : (0 < Store.tcount t)%nat).
  { rewrite Hc. destruct (Store.occurrences k logs); [done|simpl; lia]. }
  simpl. split; [done|]. split; [done|].
  rewrite bool_decide_eq_true_2 by done.
  unfold Store.mean. rewrite <- Hc.
  assert (Hmean : Store.totalIntensity t / inject_Z (Z.of_nat (Store.tcount t)) * 10
                  == Store.Qsum (Store.intensity <$> Store.occurrences k logs)
                     / inject_Z (Z.of_nat (Store.tcount t)) * 10)
    by (rewrite Ht; reflexivity).
  unfold JS.Math_round. rewrite Hmean. reflexivity.
Qed.

(** C9. [computeRegionFrequency] returns one entry per region occurring
    in the logs of the sessions and none for any other; an entry's
    [count] is the number of occurrences of its region over all the
    sessions; when the intensities logged for the region are whole numbers
    from 0 to 10, as the log page saves them, its [avgIntensity] is the
    mean of those intensities rounded to one decimal place (halves up);
    the entries are in non-increasing order of [count]; and no session
    gives no entry. *)
Theorem computeRegionFrequency_spec (sessions : list Store.MigraineSession) :
  let result := Store.computeRegionFrequency sessions in
  let logs := Store.allLogs sessions in
  NoDup (Store.region <$> result)
  ∧ (∀ name : string,
        name ∈ Store.region <$> result
        ↔ ∃ s r, s ∈ sessions ∧ r ∈ Store.regions s
                 ∧ Store.region_name r = name)
  ∧ (∀ e : Store.RegionFrequency,
        e ∈ result →
        Store.count e = length (Store.occurrences (Store.region e) logs)
        ∧ (0 < Store.count e)%nat
        ∧ (Forall (fun r => Store.slider_value (Store.intensity r))
                  (Store.occurrences (Store.region e) logs) →
           Store.avgIntensity e
           == inject_Z (JS.Math_round
                          (Store.mean (Store.region e) logs * 10)) / 10
           ∧ Store.rounded_to_tenth (Store.mean (Store.region e) logs)
                                    (Store.avgIntensity e)))
  ∧ StronglySorted (fun a b => (Store.count b ≤ Store.count a)%nat) result
  ∧ Store.computeRegionFrequency [] = [].
Proof.
  intros result logs. subst result. unfold Store.computeRegionFrequency.
  rewrite regionMap_allLogs. fold logs.
  pose proof (tally_loop logs) as Hok.
  set (regionMap := foldl Store.tally [] logs) in *.
  set (compareFn := fun a b : Store.RegionFrequency =>
         (Z.of_nat (Store.count b) - Z.of_nat (Store.count a))%Z).
  pose proof (Array_sort_perm compareFn (Store.toFrequency <$> regionMap))
    as Hperm.
  assert (Hkeys : ∀ name, name ∈ regionMap.*1
                          ↔ Store.occurrences name logs ≠ []).
  { intros name. destruct Hok as [_ Hinv]. specialize (Hinv name).
    destruct (Store.Map_get regionMap name) as [t|] eqn:Hget.
    - split; [intros _; apply Hinv|]. intros _.
      destruct (decide (name ∈ regionMap.*1)) as [|Hn]; [done|].
      apply Map_get_None in Hn. congruence.
    - apply Map_get_None in Hget. split; [done|]. by rewrite Hinv. }
  split.
  { rewrite Hperm, toFrequency_region. apply Hok. }
  split.
  { intros name. rewrite Hperm, toFrequency_region, Hkeys.
    rewrite occurrences_nonempty. split.
    - intros (r & (s & Hs & Hr)%elem_of_allLogs & Hn). by exists s, r.
    - intros (s & r & Hs & Hr & Hn). exists r. split; [|done].
      apply elem_of_allLogs. by exists s. }
  split.
  { intros e He. rewrite Hperm in He.
    destruct (toFrequency_spec regionMap logs e Hok He) as (Hc & Hpos & Havg).
    split; [done|]. split; [done|]. intros _. split; [done|].
    unfold Store.rounded_to_tenth.
    destruct (round_to_tenth (Store.mean (Store.region e) logs))
      as ((n & Hn) & Hlo & Hhi).
    split; [exists n; by rewrite Havg|]. rewrite Havg. done. }
  split; [|done].
  eapply StronglySorted_weaken;
    [|apply (Array_sort_sorted compareFn); unfold compareFn; intros; lia].
  intros a b. unfold compareFn. simpl. lia.
Qed.

(** Two sessions: the neck base is logged three times (3, 4, 8), the
    forehead twice (6, 7). *)
Example computeRegionFrequency_run :
  Store.computeRegionFrequency
    [Store.mkSession "s1" "u1" "t0" "t1" ""
       [Store.mkRegionLog "Forehead" 6; Store.mkRegionLog "Neck base" 3];
     Store.mkSession "s2" "u1" "t2" "t3" ""
       [Store.mkRegionLog "Neck base" 4; Store.mkRegionLog "Forehead" 7;
        Store.mkRegionLog "Neck base" 8]]
  = [Store.mkFrequency "Neck base" 3 5.0;
     Store.mkFrequency "Forehead" 2 6.5].
Proof. vm_compute. reflexivity. Qed.

(** A mean of 20/3 is reported as 6.7. *)
Example computeRegionFrequency_rounds :
  Store.computeRegionFrequency
    [Store.mkSession "s1" "u1" "t0" "t1" ""
       [Store.mkRegionLog "Forehead" 6; Store.mkRegionLog "Forehead" 7;
        Store.mkRegionLog "Forehead" 7]]
  = [Store.mkFrequency "Forehead" 3 6.7].
Proof. vm_compute. reflexivity. Qed.

Lemma computeRegionFrequency_spec_witness :
  let sessions :=
    [Store.mkSession "s1" "u1" "t0" "t1" ""
       [Store.mkRegionLog "Forehead" 6; Store.mkRegionLog "Neck base" 3];
     Store.mkSession "s2" "u1" "t2" "t3" ""
       [Store.mkRegionLog "Neck base" 4; Store.mkRegionLog "Forehead" 7;
        Store.mkRegionLog "Neck base" 8]] in
  let e := Store.mkFrequency "Neck base" 3 5.0 in
  Store.count e
  = length (Store.occurrences (Store.region e) (Store.allLogs sessions))
  ∧ Store.rounded_to_tenth
      (Store.mean (Store.region e) (Store.allLogs sessions))
      (Store.avgIntensity e)
  ∧ ("Forehead" ∈ Store.region <$> Store.computeRegionFrequency sessions).
Proof.
  intros sessions e.
  destruct (computeRegionFrequency_spec sessions) as (_ & Hdom & Hentry & _).
  assert (Hin : e ∈ Store.computeRegionFrequency sessions)
    by (vm_compute; apply list_elem_of_here).
  destruct (Hentry e Hin) as (Hcount & _ & Havg).
  destruct Havg as [_ Hround].
  { repeat apply Forall_cons_2; try apply Forall_nil_2.
    - by exists 3%Z.
    - by exists 4%Z.
    - by exists 8%Z. }
  split; [exact Hcount|]. split; [exact Hround|].
  apply Hdom. eexists _, (Store.mkRegionLog "Forehead" 6).
  split; [apply list_elem_of_here|].
  split; [apply list_elem_of_here | reflexivity].
Defined.

(** * Further properties *)

(** ** Regular expressions: the matcher decides the language *)

Lemma lang_seq_inv (r s : RegExp.t) (w : list N) :
  RegExp.lang (RegExp.Seq r s) w
  ↔ ∃ u v, w = u ++ v ∧ RegExp.lang r u ∧ RegExp.lang s v.
Proof.
  split.
  - inversion 1; subst. by eexists _, _.
  - intros (u & v & -> & Hu & Hv). by constructor.
Qed.

Lemma lang_alt_inv (r s : RegExp.t) (w : list N) :
  RegExp.lang (RegExp.Alt r s) w ↔ RegExp.lang r w ∨ RegExp.lang s w.
Proof.
  split.
  - inversion 1; subst; [by left | by right].
  - intros [H|H]; [by apply RegExp.lang_alt_l | by apply RegExp.lang_alt_r].
Qed.

Lemma lang_class_inv (p : N → bool) (w : list N) :
  RegExp.lang (RegExp.Class p) w ↔ ∃ c, w = [c] ∧ p c = true.
Proof.
  split.
  - inversion 1; subst. by eexists.
  - intros (c & -> & Hc). by constructor.
Qed.

Lemma nullable_spec (r : RegExp.t) :
  RegExp.nullable r = true ↔ RegExp.lang r [].
Proof.
  induction r as [| |p|r IHr s IHs|r IHr s IHs|r IHr]; simpl.
  - split; [done | inversion 1].
  - split; [constructor | done].
  - split; [done | inversion 1].
  - rewrite andb_true_iff, IHr, IHs, lang_seq_inv. split.
    + intros [Hr Hs]. by exists [], [].
    + intros (u & v & Huv & Hu & Hv).
      symmetry in Huv. apply app_eq_nil in Huv as [-> ->]. done.
  - by rewrite orb_true_iff, IHr, IHs, lang_alt_inv.
  - split; [constructor | done].
Qed.

(** A non-empty string of [r*] starts with a non-empty string of [r]. *)
Lemma lang_star_cons_inv (r : RegExp.t) (c : N) (w : list N) :
  RegExp.lang (RegExp.Star r) (c :: w) →
  ∃ u v, w = u ++ v ∧ RegExp.lang r (c :: u) ∧ RegExp.lang (RegExp.Star r) v.
Proof.
  intros H. remember (RegExp.Star r) as sr eqn:Hsr.
  remember (c :: w) as cw eqn:Hcw. revert Hsr w Hcw.
  induction H as [| | | | | |r' u v Hu _ Hv IH]; try discriminate.
  intros [= ->] w Hcw. destruct u as [|c' u]; simpl in Hcw.
  - by apply IH.
  - injection Hcw as -> <-. by exists u, v.
Qed.

Lemma deriv_spec (c : N) (r : RegExp.t) :
  ∀ w, RegExp.lang (RegExp.deriv c r) w ↔ RegExp.lang r (c :: w).
Proof.
  induction r as [| |p|r IHr s IHs|r IHr s IHs|r IHr]; intros w; simpl.
  - split; inversion 1.
  - split; inversion 1.
  - rewrite lang_class_inv. destruct (p c) eqn:Hp.
    + split.
      * inversion 1; subst. by exists c.
      * intros (c' & [= -> ->] & _). constructor.
    + split; [inversion 1|]. intros (c' & [= -> ->] & Hc). congruence.
  - assert (Hseq : RegExp.lang (RegExp.Seq (RegExp.deriv c r) s) w
                   ↔ ∃ u v, w = u ++ v ∧ RegExp.lang r (c :: u)
                            ∧ RegExp.lang s v).
    { rewrite lang_seq_inv. split; intros (u & v & -> & Hu & Hv);
        exists u, v; (split; [done|]); (split; [by apply IHr | done]). }
    rewrite (lang_seq_inv r s (c :: w)).
    destruct (RegExp.nullable r) eqn:Hn.
    + rewrite lang_alt_inv, Hseq, IHs. apply nullable_spec in Hn. split.
      * intros [(u & v & -> & Hu & Hv)|Hs].
        -- by exists (c :: u), v.
        -- by exists [], (c :: w).
      * intros (u & v & Huv & Hu & Hv). destruct u as [|c' u]; simpl in Huv.
        -- subst v. by right.
        -- injection Huv as <- ->. left. by exists u, v.
    + rewrite Hseq. split.
      * intros (u & v & -> & Hu & Hv). by exists (c :: u), v.
      * intros (u & v & Huv & Hu & Hv). destruct u as [|c' u]; simpl in Huv.
        -- apply nullable_spec in Hu. congruence.
        -- injection Huv as <- ->. by exists u, v.
  - by rewrite !lang_alt_inv, IHr, IHs.
  - rewrite lang_seq_inv. split.
    + intros (u & v & -> & Hu & Hv).
      apply (RegExp.lang_star_app r (c :: u) v); [by apply IHr | done].
    + intros (u & v & -> & Hu & Hv)%lang_star_cons_inv.
      exists u, v. split; [done|]. split; [by apply IHr | done].
Qed.

Lemma test_spec (r : RegExp.t) (w : list N) :
  RegExp.test r w = true ↔ RegExp.lang r w.
Proof.
  unfold RegExp.test. revert r.
  induction w as [|c w IH]; intros r; simpl.
  - apply nullable_spec.
  - by rewrite IH, deriv_spec.
Qed.

Lemma lang_star_class (p : N → bool) (w : list N) :
  RegExp.lang (RegExp.Star (RegExp.Class p)) w
  ↔ Forall (fun c => p c = true) w.
Proof.
  split.
  - intros H. remember (RegExp.Star (RegExp.Class p)) as sr eqn:Hsr.
    induction H as [| | | | | |r u v Hu _ Hv IH]; try discriminate.
    + constructor.
    + injection Hsr as ->. apply lang_class_inv in Hu as (c & -> & Hc).
      constructor; [done | by apply IH].
  - induction 1 as [|c w Hc _ IH]; [constructor|].
    apply (RegExp.lang_star_app _ [c] w); [by constructor | done].
Qed.

Lemma lang_plus_class (p : N → bool) (w : list N) :
  RegExp.lang (RegExp.Plus (RegExp.Class p)) w
  ↔ w ≠ [] ∧ Forall (fun c => p c = true) w.
Proof.
  unfold RegExp.Plus. rewrite lang_seq_inv. split.
  - intros (u & v & -> & (c & -> & Hc)%lang_class_inv & Hv%lang_star_class).
    split; [done | by constructor].
  - intros [Hne Hall]. destruct w as [|c w]; [done|].
    apply Forall_cons in Hall as [Hc Hall].
    exists [c], w. split; [done|].
    split; [by constructor | by apply lang_star_class].
Qed.

(** ** Email validation *)

(** A code unit that is neither white space nor an at sign. *)
Lemma email_char_spec (c : N) :
  Store.email_char c = true ↔ RegExp.is_space c = false ∧ c ≠ Store.at_sign.
Proof.
  unfold Store.email_char.
  destruct (RegExp.is_space c); simpl; [split; [done | by intros [? _]]|].
  destruct (N.eqb_spec c Store.at_sign) as [Heq|Hne]; simpl.
  - split; [done | by intros [_ ?]].
  - done.
Qed.

(** The strings of code units the pattern matches. *)
Lemma EMAIL_lang (w : list N) :
  RegExp.lang Store.EMAIL w
  ↔ ∃ a b c : list N,
      w = a ++ [Store.at_sign] ++ b ++ [Store.full_stop] ++ c
      ∧ a ≠ [] ∧ b ≠ [] ∧ c ≠ []
      ∧ Forall (fun ch => RegExp.is_space ch = false ∧ ch ≠ Store.at_sign)
               (a ++ b ++ c).
Proof.
  unfold Store.EMAIL.
  assert (Hok : ∀ l, Forall (fun ch => Store.email_char ch = true) l
                     ↔ Forall (fun ch => RegExp.is_space ch = false
                                         ∧ ch ≠ Store.at_sign) l).
  { intros l. split; intros Hl; (eapply Forall_impl; [exact Hl|]);
      intros ch; apply email_char_spec. }
  split.
  - intros H.
    apply lang_seq_inv in H as (a & w1 & -> & Ha & H).
    apply lang_seq_inv in H as (x1 & w2 & -> & Hx1 & H).
    apply lang_seq_inv in H as (b & w3 & -> & Hb & H).
    apply lang_seq_inv in H as (x2 & c & -> & Hx2 & Hc).
    apply lang_plus_class in Ha as [Ha Hfa].
    apply lang_plus_class in Hb as [Hb Hfb].
    apply lang_plus_class in Hc as [Hc Hfc].
    apply lang_class_inv in Hx1 as (c1 & -> & ->%N.eqb_eq).
    apply lang_class_inv in Hx2 as (c2 & -> & ->%N.eqb_eq).
    exists a, b, c. split; [done|]. do 3 (split; [done|]).
    rewrite !Forall_app. repeat split; by apply Hok.
  - intros (a & b & c & -> & Ha & Hb & Hc & Hall).
    rewrite !Forall_app in Hall. destruct Hall as (Hfa & Hfb & Hfc).
    apply RegExp.lang_seq; [apply lang_plus_class; split; [done | by apply Hok]|].
    apply (RegExp.lang_seq _ _ [Store.at_sign]); [by constructor|].
    apply RegExp.lang_seq; [apply lang_plus_class; split; [done | by apply Hok]|].
    apply (RegExp.lang_seq _ _ [Store.full_stop]); [by constructor|].
    apply lang_plus_class. split; [done | by apply Hok].
Qed.

(** [isValidEmail] accepts exactly the strings of the shape
    [local@domain.tld] in which the three parts are non-empty and hold
    neither white space nor an at sign. *)
Theorem isValidEmail_shape (email : string) :
  Store.isValidEmail email = true
  ↔ ∃ a b c : list N,
      RegExp.code_units email
      = a ++ [Store.at_sign] ++ b ++ [Store.full_stop] ++ c
      ∧ a ≠ [] ∧ b ≠ [] ∧ c ≠ []
      ∧ Forall (fun ch => RegExp.is_space ch = false ∧ ch ≠ Store.at_sign)
               (a ++ b ++ c).
Proof.
  unfold Store.isValidEmail.
  rewrite test_spec.
  apply EMAIL_lang.
Qed.

Example isValidEmail_run :
  Store.isValidEmail "you@example.com" = true
  ∧ Store.isValidEmail "a@b.c." = true
  ∧ Store.isValidEmail "" = false
  ∧ Store.isValidEmail "you@example" = false
  ∧ Store.isValidEmail "you @example.com" = false
  ∧ Store.isValidEmail "you@@example.com" = false
  ∧ Store.isValidEmail "@example.com" = false.
Proof. repeat split; vm_compute; reflexivity. Qed.

Lemma filter_none {A : Type} (P : A → Prop) `{∀ x, Decision (P x)}
    (l : list A) :
  Forall (fun x => ¬ P x) l → filter P l = [].
Proof.
  induction 1 as [|x l Hx _ IH]; [done|].
  by rewrite filter_cons_False.
Qed.

(** An accepted email holds exactly one at sign, no white space, and at
    least five characters. *)
Theorem isValidEmail_necessary (email : string) :
  Store.isValidEmail email = true →
  length (filter (fun ch => ch = Store.at_sign) (RegExp.code_units email)) = 1%nat
  ∧ Forall (fun ch => RegExp.is_space ch = false) (RegExp.code_units email)
  ∧ (5 ≤ length (RegExp.code_units email))%nat.
Proof.
  unfold Store.isValidEmail. rewrite test_spec.
  intros (a & b & c & -> & Ha & Hb & Hc & Hall)%EMAIL_lang.
  rewrite !Forall_app in Hall. destruct Hall as (Hfa & Hfb & Hfc).
  assert (Hno : ∀ l, Forall (fun ch => RegExp.is_space ch = false
                                       ∧ ch ≠ Store.at_sign) l →
                     filter (fun ch => ch = Store.at_sign) l = []).
  { intros l Hl. apply filter_none. eapply Forall_impl; [exact Hl|].
    by intros ch [_ ?]. }
  assert (Hsp : ∀ l, Forall (fun ch => RegExp.is_space ch = false
                                       ∧ ch ≠ Store.at_sign) l →
                     Forall (fun ch => RegExp.is_space ch = false) l).
  { intros l Hl. eapply Forall_impl; [exact Hl|]. by intros ch [? _]. }
  split; [|split].
  - rewrite !filter_app, (Hno a), (Hno b), (Hno c) by done. reflexivity.
  - rewrite !Forall_app. repeat split; auto; by repeat constructor.
  - rewrite !length_app. simpl.
    destruct a; [done|]. destruct b; [done|]. destruct c; [done|].
    simpl. lia.
Qed.

Lemma isValidEmail_necessary_witness :
  length (filter (fun ch => ch = Store.at_sign)
                 (RegExp.code_units "you@example.com")) = 1%nat
  ∧ Forall (fun ch => RegExp.is_space ch = false)
           (RegExp.code_units "you@example.com")
  ∧ (5 ≤ length (RegExp.code_units "you@example.com"))%nat.
Proof.
  apply (isValidEmail_necessary "you@example.com"). vm_compute. reflexivity.
Defined.

(** ** Store actions *)

Lemma filter_all {A : Type} (P : A → Prop) `{∀ x, Decision (P x)}
    (l : list A) :
  Forall P l → filter P l = l.
Proof.
  induction 1 as [|x l Hx _ IH]; [done|].
  rewrite filter_cons_True by done. by rewrite IH.
Qed.

(** [login] with an email that is not of the shape [local@domain.tld]
    returns the message and leaves the store as it is; with one that is,
    it returns [null] and makes the current user a new user with that
    email, the sessions kept. *)
Theorem login_accepts_only_valid_emails (uuid now email : string)
    (st : Store.AppState) :
  (Store.isValidEmail email = false →
   Store.login uuid now email st
   = (st, Some "Please enter a valid email address."))
  ∧ (Store.isValidEmail email = true →
     Store.login uuid now email st
     = (Store.mkState (Some (Store.User.mk uuid email now))
                      (Store.sessions st), None))
  ∧ (∀ st', Store.login uuid now email st = (st', None) →
            Store.currentUser st' = Some (Store.User.mk uuid email now)
            ∧ ∃ a b c : list N,
                RegExp.code_units email
                = a ++ [Store.at_sign] ++ b ++ [Store.full_stop] ++ c
                ∧ a ≠ [] ∧ b ≠ [] ∧ c ≠ []).
Proof.
  unfold Store.login. split; [|split].
  - by intros ->.
  - by intros ->.
  - intros st'. destruct (Store.isValidEmail email) eqn:Hv; simpl; [|done].
    intros [= <-]. split; [done|].
    unfold Store.isValidEmail in Hv. rewrite test_spec in Hv.
    apply EMAIL_lang in Hv as (a & b & c & ? & ? & ? & ? & _).
    by exists a, b, c.
Qed.

(** [deleteSession] removes every session with the given id and nothing
    else: the other sessions stay, in their order, and so does the
    current user; deleting an id that is not stored changes nothing, and
    deleting twice is deleting once. *)
Theorem deleteSession_removes_only_that_id (id' : string)
    (st : Store.AppState) :
  let st' := Store.deleteSession id' st in
  Store.currentUser st' = Store.currentUser st
  ∧ (∀ s, s ∈ Store.sessions st' ↔ s ∈ Store.sessions st ∧ Store.id s ≠ id')
  ∧ Store.sessions st' `sublist_of` Store.sessions st
  ∧ (id' ∉ Store.id <$> Store.sessions st → st' = st)
  ∧ Store.deleteSession id' st' = st'.
Proof.
  destruct st as [user sessions]. unfold Store.deleteSession, Store.set. simpl.
  split; [done|]. split.
  { intros s. rewrite list_elem_of_filter. tauto. }
  split; [apply sublist_filter|]. split.
  - intros Hnot. f_equal. apply filter_all, Forall_forall.
    intros s Hs Heq. apply Hnot. apply list_elem_of_fmap. by exists s.
  - f_equal. apply filter_all, Forall_forall.
    by intros s [? _]%list_elem_of_filter.
Qed.

(** Adding a session under a fresh id and deleting that id gives back
    the store. *)
Theorem addSession_deleteSession_round_trip (uuid : string)
    (sessionData : Store.SessionData.t) (st : Store.AppState) :
  uuid ∉ Store.id <$> Store.sessions st →
  Store.deleteSession uuid (Store.addSession uuid sessionData st) = st.
Proof.
  intros Hfresh. destruct st as [user sessions].
  unfold Store.addSession, Store.deleteSession, Store.set. simpl in *.
  assert (Hkeep : filter (fun s => Store.id s ≠ uuid) sessions = sessions).
  { apply filter_all, Forall_forall. intros s Hs Heq. apply Hfresh.
    apply list_elem_of_fmap. by exists s. }
  destruct user as [u|]; simpl.
  - rewrite filter_app, Hkeep.
    rewrite filter_cons_False by (simpl; by intros H; apply H).
    by rewrite filter_nil, app_nil_r.
  - by rewrite Hkeep.
Qed.

Lemma addSession_deleteSession_round_trip_witness :
  let st := Store.mkState (Some (Store.User.mk "u1" "a@b.c" "2024-01-01"))
                          [Store.mkSession "s0" "u1" "t0" "t1" "" []] in
  Store.deleteSession "s1"
    (Store.addSession "s1" (Store.SessionData.mk "t2" "t3" "aura" []) st)
  = st.
Proof.
  intros st. apply addSession_deleteSession_round_trip.
  simpl. intros Hin%list_elem_of_singleton. discriminate Hin.
Defined.

(** With an id already stored the round trip loses the earlier session
    of that id. *)
Example addSession_deleteSession_collision :
  let st := Store.mkState (Some (Store.User.mk "u1" "a@b.c" "2024-01-01"))
                          [Store.mkSession "s0" "u1" "t0" "t1" "" []] in
  Store.sessions
    (Store.deleteSession "s0"
       (Store.addSession "s0" (Store.SessionData.mk "t2" "t3" "aura" []) st))
  = [].
Proof. vm_compute. reflexivity. Qed.

(** Whatever the action, the ids of the stored sessions stay distinct as
    long as [uuidv4] returns an id that is not stored yet; and among
    distinct ids, deleting a stored id removes exactly one session. *)
Theorem session_ids_stay_distinct (a : Store.Action) (st : Store.AppState) :
  NoDup (Store.id <$> Store.sessions st) →
  (∀ uuid sessionData, a = Store.AddSession uuid sessionData →
                       uuid ∉ Store.id <$> Store.sessions st) →
  NoDup (Store.id <$> Store.sessions (Store.step a st))
  ∧ (∀ id', a = Store.DeleteSession id' →
            id' ∈ Store.id <$> Store.sessions st →
            S (length (Store.sessions (Store.step a st)))
            = length (Store.sessions st)).
Proof.
  intros Hnd Hfresh. destruct st as [user sessions]. simpl in *.
  destruct a as [uuid now email| |uuid sessionData|id']; simpl.
  - split; [|done]. unfold Store.login.
    by destruct (Store.isValidEmail email).
  - by split.
  - split; [|done]. unfold Store.addSession. simpl.
    destruct user as [u|]; simpl; [|done].
    rewrite fmap_app. apply NoDup_app. split; [done|]. split.
    + intros x Hx ->%list_elem_of_singleton.
      by apply (Hfresh uuid sessionData).
    + apply NoDup_singleton.
  - split.
    + clear Hfresh. induction sessions as [|s sessions IH]; [constructor|].
      rewrite fmap_cons in Hnd. apply NoDup_cons in Hnd as [Hs Hnd].
      rewrite filter_cons. case_decide; [|by apply IH].
      rewrite fmap_cons. apply NoDup_cons. split; [|by apply IH].
      intros (s' & Heq & [_ Hin]%list_elem_of_filter)%list_elem_of_fmap.
      apply Hs. apply list_elem_of_fmap. by exists s'.
    + intros id0 [= <-] Hin. clear Hfresh.
      induction sessions as [|s sessions IH].
      { by apply not_elem_of_nil in Hin. }
      rewrite fmap_cons in Hnd, Hin. apply NoDup_cons in Hnd as [Hs Hnd].
      rewrite filter_cons. case_decide as Hne.
      * simpl. f_equal. apply IH; [done|].
        apply elem_of_cons in Hin as [Heq|Hin]; [|done]. congruence.
      * subst id'. simpl. f_equal.
        f_equal. apply filter_all, Forall_forall.
        intros s' Hs' Heq. apply Hs. apply list_elem_of_fmap. by exists s'.
Qed.

Lemma session_ids_stay_distinct_witness :
  let st := Store.mkState (Some (Store.User.mk "u1" "a@b.c" "2024-01-01"))
                          [Store.mkSession "s0" "u1" "t0" "t1" "" [];
                           Store.mkSession "s1" "u1" "t2" "t3" "" []] in
  NoDup (Store.id <$> Store.sessions (Store.step (Store.DeleteSession "s0") st))
  ∧ S (length (Store.sessions (Store.step (Store.DeleteSession "s0") st)))
    = length (Store.sessions st).
Proof.
  intros st.
  destruct (session_ids_stay_distinct (Store.DeleteSession "s0") st)
    as [Hnd Hlen].
  - simpl. apply NoDup_cons_2; [|apply NoDup_singleton].
    intros Hin%list_elem_of_singleton. discriminate Hin.
  - intros uuid sessionData Heq. discriminate Heq.
  - split; [exact Hnd|]. apply (Hlen "s0"); [reflexivity|].
    simpl. apply list_elem_of_here.
Defined.

(** Sessions outlive the user who logged them: [logout] keeps them and
    [addSession] does nothing until someone logs in; a later [login],
    whose user gets a new id, keeps them too, but none of them is among
    that user's sessions, so the dashboard starts empty. *)
Theorem sessions_across_logout_and_login (uuid now email : string)
    (st : Store.AppState) :
  Store.isValidEmail email = true →
  uuid ∉ Store.user_id <$> Store.sessions st →
  Store.currentUser (Store.logout st) = None
  ∧ Store.sessions (Store.logout st) = Store.sessions st
  ∧ (∀ uuid' sessionData,
        Store.addSession uuid' sessionData (Store.logout st) = Store.logout st)
  ∧ ∃ user,
      Store.currentUser (Store.login uuid now email (Store.logout st)).1
      = Some user
      ∧ Store.sessions (Store.login uuid now email (Store.logout st)).1
        = Store.sessions st
      ∧ Dashboard.userSessions user (Store.sessions st) = []
      ∧ Dashboard.regionFrequency user (Store.sessions st) = [].
Proof.
  intros Hv Hfresh. destruct st as [user sessions].
  unfold Store.logout, Store.login, Store.set. simpl in *. rewrite Hv. simpl.
  split; [done|]. split; [done|]. split; [done|].
  eexists. split; [reflexivity|]. split; [done|].
  assert (Hnone : Dashboard.userSessions (Store.User.mk uuid email now) sessions
                  = []).
  { unfold Dashboard.userSessions. apply filter_none, Forall_forall.
    intros s Hs Heq. simpl in Heq. apply Hfresh.
    apply list_elem_of_fmap. by exists s. }
  split; [exact Hnone|]. unfold Dashboard.regionFrequency. by rewrite Hnone.
Qed.

Lemma sessions_across_logout_and_login_witness :
  let st := Store.mkState (Some (Store.User.mk "u1" "a@b.c" "2024-01-01"))
                          [Store.mkSession "s0" "u1" "t0" "t1" ""
                             [Store.mkRegionLog "Forehead" 6]] in
  Store.sessions (Store.login "u2" "2024-02-01" "a@b.c" (Store.logout st)).1
  = Store.sessions st
  ∧ Dashboard.userSessions (Store.User.mk "u2" "a@b.c" "2024-02-01")
                           (Store.sessions st) = [].
Proof.
  intros st.
  destruct (sessions_across_logout_and_login "u2" "2024-02-01" "a@b.c" st)
    as (_ & _ & _ & user & Huser & Hkept & Hnone & _).
  - vm_compute. reflexivity.
  - simpl. intros Hin%list_elem_of_singleton. discriminate Hin.
  - injection Huser as <-. split; [exact Hkept | exact Hnone].
Defined.

(** ** The dashboard *)

Lemma allLogs_snoc (sessions : list Store.MigraineSession)
    (s : Store.MigraineSession) :
  Store.allLogs (sessions ++ [s]) = Store.allLogs sessions ++ Store.regions s.
Proof.
  unfold Store.allLogs. rewrite fmap_app, concat_app. simpl.
  by rewrite app_nil_r.
Qed.

Lemma Qsum_app (l k : list Q) :
  Store.Qsum (l ++ k) == Store.Qsum l + Store.Qsum k.
Proof.
  unfold Store.Qsum. induction l as [|x l IH]; simpl; [lra|].
  rewrite IH. lra.
Qed.

(** The inner loop of the summary adds the logs of one session. *)
Lemma inner_totals (logs : list Store.RegionLog) (acc : Dashboard.Totals) :
  let acc' :=
    foldl (fun acc r =>
             Dashboard.mkTotals (Dashboard.totalDurationMinutes acc)
               (Dashboard.totalIntensity acc + Store.intensity r)
               (Dashboard.totalRegionsLogged acc + 1))
          acc logs in
  Dashboard.totalDurationMinutes acc' = Dashboard.totalDurationMinutes acc
  ∧ Dashboard.totalIntensity acc'
    == Dashboard.totalIntensity acc + Store.Qsum (Store.intensity <$> logs)
  ∧ Dashboard.totalRegionsLogged acc'
    = (Dashboard.totalRegionsLogged acc + length logs)%nat.
Proof.
  induction logs as [|r logs IH] using rev_ind; simpl.
  - split; [done|]. split; [unfold Store.Qsum; simpl; lra | lia].
  - rewrite foldl_app. simpl. destruct IH as (Hd & Hi & Hn).
    split; [done|]. split.
    + rewrite Hi, fmap_app, Qsum_app. unfold Store.Qsum at 3. simpl. lra.
    + rewrite Hn, length_app. simpl. lia.
Qed.

Lemma addToTotals_spec (minutesBetween : string → string → Z)
    (acc : Dashboard.Totals) (s : Store.MigraineSession) :
  let acc' := Dashboard.addToTotals minutesBetween acc s in
  (Dashboard.totalDurationMinutes acc <= Dashboard.totalDurationMinutes acc')%Z
  ∧ Dashboard.totalIntensity acc'
    == Dashboard.totalIntensity acc
       + Store.Qsum (Store.intensity <$> Store.regions s)
  ∧ Dashboard.totalRegionsLogged acc'
    = (Dashboard.totalRegionsLogged acc + length (Store.regions s))%nat.
Proof.
  unfold Dashboard.addToTotals.
  match goal with
  | |- context [foldl ?f ?a (Store.regions s)] =>
      destruct (inner_totals (Store.regions s) a) as (Hd & Hi & Hn)
  end.
  cbv zeta. rewrite Hd, Hi, Hn. simpl. split; [lia|]. split; [reflexivity|done].
Qed.

Lemma totals_spec (minutesBetween : string → string → Z)
    (userSessions : list Store.MigraineSession) :
  let t := Dashboard.totals minutesBetween userSessions in
  (0 <= Dashboard.totalDurationMinutes t)%Z
  ∧ Dashboard.totalIntensity t
    == Store.Qsum (Store.intensity <$> Store.allLogs userSessions)
  ∧ Dashboard.totalRegionsLogged t = length (Store.allLogs userSessions).
Proof.
  unfold Dashboard.totals.
  induction userSessions as [|s sessions IH] using rev_ind.
  - simpl. split; [done|]. split; [reflexivity | done].
  - rewrite foldl_app. cbn [foldl]. destruct IH as (Hd & Hi & Hn).
    set (acc := foldl (Dashboard.addToTotals minutesBetween)
                      (Dashboard.mkTotals 0 0 0) sessions) in *.
    destruct (addToTotals_spec minutesBetween acc s) as (Hd' & Hi' & Hn').
    cbv zeta in Hd', Hi', Hn'.
    rewrite Hi', Hn', allLogs_snoc, fmap_app, Qsum_app, length_app.
    split; [lia|]. split; [rewrite Hi; reflexivity | lia].
Qed.

Lemma tally_counts (regionMap : list (string * Store.Tally))
    (r : Store.RegionLog) :
  sum_list_with (fun e => Store.tcount e.2) (Store.tally regionMap r)
  = S (sum_list_with (fun e => Store.tcount e.2) regionMap).
Proof.
  unfold Store.tally.
  induction regionMap as [|[k t] m IH]; simpl; [done|].
  case_bool_decide as Hk; simpl; [lia|]. rewrite IH. lia.
Qed.

Lemma regionMap_counts (logs : list Store.RegionLog) :
  sum_list_with (fun e => Store.tcount e.2) (foldl Store.tally [] logs)
  = length logs.
Proof.
  induction logs as [|r logs IH] using rev_ind; [done|].
  rewrite foldl_app. simpl. rewrite tally_counts, IH, length_app. simpl. lia.
Qed.

Lemma computeRegionFrequency_counts (sessions : list Store.MigraineSession) :
  sum_list_with Store.count (Store.computeRegionFrequency sessions)
  = length (Store.allLogs sessions).
Proof.
  unfold Store.computeRegionFrequency.
  rewrite Array_sort_perm, regionMap_allLogs.
  rewrite <- (regionMap_counts (Store.allLogs sessions)).
  generalize (foldl Store.tally [] (Store.allLogs sessions)). intros m.
  induction m as [|[k t] m IH]; [done|].
  rewrite fmap_cons. cbn [sum_list_with]. rewrite IH. reflexivity.
Qed.

(** C.f. the summary cards: the number of region logs counted by the
    summary loop is the number of logs of the sessions, and also the sum
    of the counts of the region frequencies; the intensity total is the
    sum of all logged intensities; and the average duration is never
    negative, whatever the recorded times. *)
Theorem dashboard_totals (minutesBetween : string → string → Z)
    (userSessions : list Store.MigraineSession) :
  let t := Dashboard.totals minutesBetween userSessions in
  Dashboard.totalRegionsLogged t = length (Store.allLogs userSessions)
  ∧ Dashboard.totalRegionsLogged t
    = sum_list_with Store.count (Store.computeRegionFrequency userSessions)
  ∧ Dashboard.totalIntensity t
    == Store.Qsum (Store.intensity <$> Store.allLogs userSessions)
  ∧ (0 <= Dashboard.avgDuration minutesBetween userSessions)%Z.
Proof.
  intros t. destruct (totals_spec minutesBetween userSessions)
    as (Hd & Hi & Hn). fold t in Hd, Hi, Hn.
  split; [done|]. split; [by rewrite computeRegionFrequency_counts|].
  split; [done|].
  unfold Dashboard.avgDuration. case_bool_decide as Hpos; [|done].
  unfold JS.Math_round. fold t.
  assert (H0 : 0 <= inject_Z (Dashboard.totalDurationMinutes t)
                    / inject_Z (Z.of_nat (length userSessions)) + (1 # 2)).
  { assert (0 <= inject_Z (Dashboard.totalDurationMinutes t)
                 / inject_Z (Z.of_nat (length userSessions))); [|lra].
    apply Qle_shift_div_l.
    - change 0 with (inject_Z 0). rewrite <- Zlt_Qlt. lia.
    - rewrite Qmult_0_l. change 0 with (inject_Z 0). rewrite <- Zle_Qle. lia. }
  apply Qfloor_resp_le in H0. exact H0.
Qed.

Lemma computeRegionFrequency_perm (sessions : list Store.MigraineSession) :
  Store.computeRegionFrequency sessions
  ≡ₚ Store.toFrequency <$> foldl Store.tally [] (Store.allLogs sessions).
Proof.
  unfold Store.computeRegionFrequency.
  by rewrite Array_sort_perm, regionMap_allLogs.
Qed.

Lemma computeRegionFrequency_sorted (sessions : list Store.MigraineSession) :
  StronglySorted (fun a b => (Store.count b ≤ Store.count a)%nat)
                 (Store.computeRegionFrequency sessions).
Proof.
  unfold Store.computeRegionFrequency.
  eapply StronglySorted_weaken; [|apply Array_sort_sorted; intros; lia].
  intros a b. simpl. lia.
Qed.

Lemma computeRegionFrequency_nil (sessions : list Store.MigraineSession) :
  Store.computeRegionFrequency sessions = [] ↔ Store.allLogs sessions = [].
Proof.
  split.
  - intros Hnil. pose proof (computeRegionFrequency_counts sessions) as Hsum.
    rewrite Hnil in Hsum. simpl in Hsum.
    by destruct (Store.allLogs sessions).
  - intros Hnil. unfold Store.computeRegionFrequency.
    by rewrite regionMap_allLogs, Hnil.
Qed.

(** The most affected region is the first entry of the frequencies: it
    is missing exactly when the sessions hold no region log, and
    otherwise no region has a greater count. *)
Theorem most_affected_region_has_greatest_count
    (currentUser : Store.User.t) (sessions : list Store.MigraineSession) :
  let regionFrequency := Dashboard.regionFrequency currentUser sessions in
  (Dashboard.mostAffectedRegion regionFrequency = None
   ↔ Store.allLogs (Dashboard.userSessions currentUser sessions) = [])
  ∧ (∀ m, Dashboard.mostAffectedRegion regionFrequency = Some m →
          m ∈ regionFrequency
          ∧ ∀ e, e ∈ regionFrequency → (Store.count e ≤ Store.count m)%nat).
Proof.
  intros rf. subst rf. unfold Dashboard.regionFrequency.
  set (us := Dashboard.userSessions currentUser sessions).
  pose proof (computeRegionFrequency_sorted us) as Hsorted.
  rewrite <- computeRegionFrequency_nil.
  unfold Dashboard.mostAffectedRegion.
  destruct (Store.computeRegionFrequency us) as [|m rest]; simpl.
  - split; [done|]. intros m. done.
  - split; [done|]. intros m' [= <-]. split; [apply list_elem_of_here|].
    apply StronglySorted_inv in Hsorted as [_ Hall].
    intros e [->|He]%elem_of_cons; [done|].
    rewrite Forall_forall in Hall. by apply Hall.
Qed.

Lemma Qsum_bounds (lo hi : Q) (l : list Q) :
  Forall (fun x => lo <= x ∧ x <= hi) l →
  lo * inject_Z (Z.of_nat (length l)) <= Store.Qsum l
  ∧ Store.Qsum l <= hi * inject_Z (Z.of_nat (length l)).
Proof.
  unfold Store.Qsum. induction 1 as [|x l [Hlo Hhi] _ IH].
  - simpl. split; rewrite Qmult_0_r; apply Qle_refl.
  - cbn [length foldr]. rewrite Nat2Z.inj_succ, <- Z.add_1_r.
    rewrite inject_Z_plus. change (inject_Z 1) with 1.
    destruct IH as [IHlo IHhi]. split.
    + rewrite Qmult_plus_distr_r, Qmult_1_r. lra.
    + rewrite Qmult_plus_distr_r, Qmult_1_r. lra.
Qed.

Lemma mean_bounds (lo hi : Q) (name : string) (logs : list Store.RegionLog) :
  Forall (fun r => lo <= Store.intensity r ∧ Store.intensity r <= hi) logs →
  Store.occurrences name logs ≠ [] →
  lo <= Store.mean name logs ∧ Store.mean name logs <= hi.
Proof.
  intros Hall Hne. unfold Store.mean.
  set (occ := Store.occurrences name logs) in *.
  assert (Hocc : Forall (fun x => lo <= x ∧ x <= hi) (Store.intensity <$> occ)).
  { apply Forall_fmap. unfold occ, Store.occurrences.
    apply Forall_forall. intros r [_ Hr]%list_elem_of_filter.
    rewrite Forall_forall in Hall. by apply Hall. }
  destruct (Qsum_bounds lo hi _ Hocc) as [Hlo Hhi].
  rewrite length_fmap in Hlo, Hhi.
  assert (Hpos : 0 < inject_Z (Z.of_nat (length occ))).
  { change 0 with (inject_Z 0). rewrite <- Zlt_Qlt.
    destruct occ; [done | simpl; lia]. }
  split.
  - apply Qle_shift_div_l; [done|]. exact Hlo.
  - apply Qle_shift_div_r; [done|]. exact Hhi.
Qed.

Lemma round_tenth_bounds (x : Q) :
  0 <= x → x <= 10 →
  0 <= inject_Z (JS.Math_round (x * 10)) / 10
  ∧ inject_Z (JS.Math_round (x * 10)) / 10 <= 10.
Proof.
  intros H0 H10. unfold JS.Math_round.
  assert (Hlo : (0 <= Qfloor (x * 10 + (1 # 2)))%Z).
  { change 0%Z with (Qfloor 0). apply Qfloor_resp_le. lra. }
  assert (Hhi : (Qfloor (x * 10 + (1 # 2)) <= 100)%Z).
  { change 100%Z with (Qfloor (100 + (1 # 2))). apply Qfloor_resp_le. lra. }
  set (n := Qfloor (x * 10 + (1 # 2))) in *.
  assert (Hdiv : inject_Z n / 10 == inject_Z n * (1 # 10)) by field.
  rewrite Hdiv. rewrite Zle_Qle in Hlo, Hhi.
  change (inject_Z 0) with 0 in Hlo. change (inject_Z 100) with 100 in Hhi.
  split; lra.
Qed.

(** The intensities the dashboard hands to the head diagram: one per
    region the sessions log, none when they log nothing; each is the
    region's average and, when every logged intensity is between 0 and
    10, lies between 0 and 10 too; and the diagram's lookup table returns
    it for its region. *)
Theorem heatmap_intensities_in_range (sessions : list Store.MigraineSession) :
  Forall (fun r => 0 <= Store.intensity r ∧ Store.intensity r <= 10)
         (Store.allLogs sessions) →
  let regionFrequency := Store.computeRegionFrequency sessions in
  let heat := Dashboard.heatmapIntensities regionFrequency in
  NoDup (Heatmap.region <$> heat)
  ∧ (heat = [] ↔ Store.allLogs sessions = [])
  ∧ Forall (fun ri => 0 <= Heatmap.intensity ri ∧ Heatmap.intensity ri <= 10)
           heat
  ∧ ∀ e, e ∈ regionFrequency →
         Heatmap.intensityMap (Some heat) !! Store.region e
         = Some (Store.avgIntensity e).
Proof.
  intros Hall rf heat. subst rf heat.
  pose proof (computeRegionFrequency_perm sessions) as Hperm.
  pose proof (tally_loop (Store.allLogs sessions)) as Hok.
  set (regionMap := foldl Store.tally [] (Store.allLogs sessions)) in *.
  set (rf := Store.computeRegionFrequency sessions) in *.
  assert (Hregions : Heatmap.region <$> Dashboard.heatmapIntensities rf
                     = Store.region <$> rf).
  { unfold Dashboard.heatmapIntensities. rewrite <- list_fmap_compose.
    by apply list_fmap_ext. }
  assert (Hnd : NoDup (Heatmap.region <$> Dashboard.heatmapIntensities rf)).
  { rewrite Hregions, Hperm, toFrequency_region. apply Hok. }
  split; [exact Hnd|]. split.
  { rewrite <- computeRegionFrequency_nil. fold rf.
    unfold Dashboard.heatmapIntensities. split.
    - by intros ?%fmap_nil_inv.
    - by intros ->. }
  split.
  - unfold Dashboard.heatmapIntensities. apply Forall_fmap, Forall_forall.
    intros e He. simpl. rewrite Hperm in He.
    destruct (toFrequency_spec regionMap _ e Hok He) as (Hc & Hpos & Havg).
    rewrite Havg. apply round_tenth_bounds; apply mean_bounds with (lo := 0)
      (hi := 10) (name := Store.region e) in Hall; try tauto.
    all: intros Hnil; rewrite Hnil in Hc; simpl in Hc; lia.
  - intros e He.
    apply (intensityMap_lookup _
             (Heatmap.mkRegionIntensity (Store.region e) (Store.avgIntensity e)));
      [exact Hnd|].
    unfold Dashboard.heatmapIntensities. apply list_elem_of_fmap. by exists e.
Qed.

Lemma heatmap_intensities_in_range_witness :
  let sessions :=
    [Store.mkSession "s1" "u1" "t0" "t1" ""
       [Store.mkRegionLog "Forehead" 6; Store.mkRegionLog "Forehead" 7;
        Store.mkRegionLog "Forehead" 7]] in
  let heat :=
    Dashboard.heatmapIntensities (Store.computeRegionFrequency sessions) in
  NoDup (Heatmap.region <$> heat)
  ∧ Forall (fun ri => 0 <= Heatmap.intensity ri ∧ Heatmap.intensity ri <= 10)
           heat.
Proof.
  intros sessions heat.
  destruct (heatmap_intensities_in_range sessions) as (Hnd & _ & Hrange & _).
  - repeat constructor; simpl; discriminate.
  - split; [exact Hnd | exact Hrange].
Defined.

(** ** The log page *)

Lemma toggle_NoDup (region : string) (prev : list string) :
  NoDup prev → NoDup (LogPage.toggle region prev).
Proof.
  intros Hnd. destruct (decide (region ∈ prev)) as [Hin|Hnin].
  - rewrite (toggle_present _ _ Hin). by apply NoDup_filter.
  - rewrite (toggle_absent _ _ Hnin). apply NoDup_app. split; [done|].
    split; [|apply NoDup_singleton].
    intros x Hx ->%list_elem_of_singleton. done.
Qed.

Lemma handle_consistent (e : LogPage.Event) (st : LogPage.State) :
  LogPage.consistent st → LogPage.offered e st →
  LogPage.consistent (LogPage.handle e st).
Proof.
  intros (Hnd & Hi & Hp) Hoff. destruct st as [sel ints pts]. simpl in *.
  destruct e as [region|region value|region type]; simpl in *.
  - unfold LogPage.handleToggleRegion. simpl.
    destruct (JS.includes sel region) eqn:Hinc.
    + apply includes_true in Hinc. rewrite (toggle_present _ _ Hinc).
      split; [by apply NoDup_filter|]. simpl.
      rewrite !dom_delete_L, Hi, Hp.
      assert (Hset : list_to_set (filter (fun r => r ≠ region) sel)
                     =@{gset string} list_to_set sel ∖ {[region]}).
      { apply set_eq. intros x.
        rewrite elem_of_difference, !elem_of_list_to_set,
          list_elem_of_filter, elem_of_singleton. tauto. }
      by rewrite Hset.
    + apply includes_false in Hinc. rewrite (toggle_absent _ _ Hinc).
      split.
      { apply NoDup_app. split; [done|]. split; [|apply NoDup_singleton].
        intros x Hx ->%list_elem_of_singleton. done. }
      simpl. rewrite !dom_insert_L, Hi, Hp, list_to_set_app_L. simpl.
      rewrite (right_id_L ∅ (∪)), (comm_L (∪)). done.
  - unfold LogPage.consistent. simpl. split; [done|]. split; [|done].
    rewrite dom_insert_L, Hi.
    apply (elem_of_list_to_set (C := gset string)) in Hoff.
    apply subseteq_union_1_L. by apply singleton_subseteq_l.
  - unfold LogPage.consistent. simpl. split; [done|]. split; [done|].
    rewrite dom_insert_L, Hp.
    apply (elem_of_list_to_set (C := gset string)) in Hoff.
    apply subseteq_union_1_L. by apply singleton_subseteq_l.
Qed.

Lemma reachable_consistent (st : LogPage.State) :
  LogPage.reachable st → LogPage.consistent st.
Proof.
  induction 1 as [|e st _ IH Hoff].
  - split; [constructor|]. simpl. by rewrite !dom_empty_L.
  - by apply handle_consistent.
Qed.

(** Whatever the user does on the log page, no region is selected twice,
    and the regions that have an intensity, like those that have pain
    types, are exactly the selected ones. *)
Theorem log_page_state_stays_consistent (st : LogPage.State) :
  LogPage.reachable st →
  NoDup (LogPage.selectedRegions st)
  ∧ (∀ region, region ∈ LogPage.selectedRegions st
               ↔ is_Some (LogPage.intensities st !! region))
  ∧ (∀ region, region ∈ LogPage.selectedRegions st
               ↔ is_Some (LogPage.painTypes st !! region)).
Proof.
  intros (Hnd & Hi & Hp)%reachable_consistent.
  split; [done|]. split; intros region.
  - by rewrite <- elem_of_dom, Hi, elem_of_list_to_set.
  - by rewrite <- elem_of_dom, Hp, elem_of_list_to_set.
Qed.

Lemma log_page_state_stays_consistent_witness :
  let st :=
    LogPage.handle (LogPage.ChangeIntensity "Forehead" 8)
      (LogPage.handle (LogPage.ToggleRegion "Forehead")
         (LogPage.handle (LogPage.ToggleRegion "Neck base")
            (LogPage.mkState [] ∅ ∅))) in
  NoDup (LogPage.selectedRegions st)
  ∧ ("Forehead" ∈ LogPage.selectedRegions st
     ↔ is_Some (LogPage.intensities st !! "Forehead")).
Proof.
  intros st.
  destruct (log_page_state_stays_consistent st) as (Hnd & Hi & _).
  - repeat (apply LogPage.reachable_handle); try exact I.
    + apply LogPage.reachable_initial.
    + vm_compute. apply list_elem_of_further, list_elem_of_here.
  - split; [exact Hnd | apply Hi].
Defined.

Lemma intensityOr5_nonzero (intensities : gmap string Q) (name : string) :
  ¬ LogPage.intensityOr5 intensities name == 0.
Proof.
  unfold LogPage.intensityOr5. destruct (intensities !! name) as [v|].
  - destruct (JS.is_zero v) eqn:Hz; [discriminate|].
    intros Hv. apply is_zero_eq in Hv. congruence.
  - discriminate.
Qed.

(** [handleSubmit] calls [addSession] exactly when a region is selected,
    both times are filled in and valid, and the end is not before the
    start.  The session it hands over lists the selected regions in their
    order, each once, with the intensity chosen for it, except that a
    chosen intensity of 0 is saved as 5: no saved intensity is 0. *)
Theorem handleSubmit_saves_the_selection
    (Date_parse : string → option Z) (toISOString : Z → string)
    (st : LogPage.State) (startTime endTime notes : string)
    (sessionData : Store.SessionData.t) :
  LogPage.reachable st →
  (LogPage.handleSubmit Date_parse toISOString st startTime endTime notes
   = JS.Normal (LogPage.Submitted sessionData)
   ↔ LogPage.selectedRegions st ≠ [] ∧ startTime ≠ "" ∧ endTime ≠ ""
     ∧ ∃ t1 t2 : Z,
         Date_parse startTime = Some t1 ∧ Date_parse endTime = Some t2
         ∧ (t1 <= t2)%Z
         ∧ Store.SessionData.start_time sessionData = toISOString t1
         ∧ Store.SessionData.end_time sessionData = toISOString t2
         ∧ Store.SessionData.notes sessionData = notes
         ∧ Store.SessionData.regions sessionData
           = (fun name =>
                Store.mkRegionLog name
                  (LogPage.intensityOr5 (LogPage.intensities st) name))
             <$> LogPage.selectedRegions st)
  ∧ (LogPage.handleSubmit Date_parse toISOString st startTime endTime notes
     = JS.Normal (LogPage.Submitted sessionData) →
     Store.region_name <$> Store.SessionData.regions sessionData
     = LogPage.selectedRegions st
     ∧ NoDup (Store.region_name <$> Store.SessionData.regions sessionData)
     ∧ ∀ r, r ∈ Store.SessionData.regions sessionData →
            ¬ Store.intensity r == 0
            ∧ ∃ v, LogPage.intensities st !! Store.region_name r = Some v
                   ∧ Store.intensity r = (if JS.is_zero v then 5 else v)).
Proof.
  intros Hreach.
  assert (Hiff :
    LogPage.handleSubmit Date_parse toISOString st startTime endTime notes
    = JS.Normal (LogPage.Submitted sessionData)
    ↔ LogPage.selectedRegions st ≠ [] ∧ startTime ≠ "" ∧ endTime ≠ ""
      ∧ ∃ t1 t2 : Z,
          Date_parse startTime = Some t1 ∧ Date_parse endTime = Some t2
          ∧ (t1 <= t2)%Z
          ∧ Store.SessionData.start_time sessionData = toISOString t1
          ∧ Store.SessionData.end_time sessionData = toISOString t2
          ∧ Store.SessionData.notes sessionData = notes
          ∧ Store.SessionData.regions sessionData
            = (fun name =>
                 Store.mkRegionLog name
                   (LogPage.intensityOr5 (LogPage.intensities st) name))
              <$> LogPage.selectedRegions st).
  { unfold LogPage.handleSubmit, LogPage.date_lt.
    case_bool_decide as Hsel.
    { split; [done|]. intros [Hne _].
      by destruct (LogPage.selectedRegions st). }
    assert (Hne : LogPage.selectedRegions st ≠ [])
      by (intros Heq; by rewrite Heq in Hsel).
    case_bool_decide as Hs; simpl.
    { split; [done|]. by intros (_ & ? & _). }
    case_bool_decide as He; simpl.
    { split; [done|]. by intros (_ & _ & ? & _). }
    destruct (Date_parse startTime) as [t1|], (Date_parse endTime) as [t2|];
      try (split; [done|]; by intros (_ & _ & _ & ? & ? & ? & ? & _)).
    destruct (Z.ltb_spec t2 t1) as [Hlt|Hle].
    { split; [done|]. intros (_ & _ & _ & t1' & t2' & [= <-] & [= <-] & ? & _).
      lia. }
    split.
    - intros [= <-]. simpl. split; [done|]. split; [done|]. split; [done|].
      by exists t1, t2.
    - intros (_ & _ & _ & t1' & t2' & [= <-] & [= <-] & _ & H1 & H2 & H3 & H4).
      destruct sessionData as [s e n r]. simpl in *. by subst. }
  split; [exact Hiff|].
  intros (_ & _ & _ & t1 & t2 & _ & _ & _ & _ & _ & _ & Hregions)%Hiff.
  apply reachable_consistent in Hreach as (Hnd & Hi & _).
  rewrite Hregions.
  assert (Hnames : Store.region_name
                   <$> ((fun name =>
                           Store.mkRegionLog name
                             (LogPage.intensityOr5 (LogPage.intensities st) name))
                        <$> LogPage.selectedRegions st)
                   = LogPage.selectedRegions st).
  { generalize (LogPage.selectedRegions st). intros l.
    induction l as [|name l IH]; [done|].
    rewrite !fmap_cons, IH. reflexivity. }
  rewrite Hnames. split; [done|]. split; [done|].
  intros r (name & -> & Hin)%list_elem_of_fmap. simpl.
  split; [apply intensityOr5_nonzero|].
  assert (Hdom : name ∈ dom (LogPage.intensities st))
    by (rewrite Hi; by apply elem_of_list_to_set).
  apply elem_of_dom in Hdom as [v Hv]. exists v. split; [done|].
  unfold LogPage.intensityOr5. by rewrite Hv.
Qed.

(** A region selected and rated 0 is saved with intensity 5. *)
Lemma handleSubmit_saves_the_selection_witness :
  let st :=
    LogPage.handle (LogPage.ChangeIntensity "Forehead" 0)
      (LogPage.handle (LogPage.ToggleRegion "Forehead")
         (LogPage.mkState [] ∅ ∅)) in
  let Date_parse := fun s : string =>
    if bool_decide (s = "2024-01-01T10:00") then Some 600%Z
    else if bool_decide (s = "2024-01-01T11:00") then Some 660%Z
    else None in
  let toISOString := fun t : Z =>
    if bool_decide (t = 600%Z) then "2024-01-01T10:00:00.000Z"
    else "2024-01-01T11:00:00.000Z" in
  LogPage.handleSubmit Date_parse toISOString st
    "2024-01-01T10:00" "2024-01-01T11:00" "aura"
  = JS.Normal
      (LogPage.Submitted
         (Store.SessionData.mk "2024-01-01T10:00:00.000Z"
            "2024-01-01T11:00:00.000Z" "aura"
            [Store.mkRegionLog "Forehead" 5])).
Proof.
  intros st Date_parse toISOString.
  apply (handleSubmit_saves_the_selection Date_parse toISOString st).
  - repeat (apply LogPage.reachable_handle); try exact I.
    + apply LogPage.reachable_initial.
    + vm_compute. apply list_elem_of_here.
  - split; [vm_compute; discriminate|].
    split; [discriminate|]. split; [discriminate|].
    exists 600%Z, 660%Z. repeat split; try reflexivity. lia.
Defined.

(** Pressing a pain type of a region twice leaves that region with the
    same pain types, and touches neither the other regions' pain types
    nor the selection nor the intensities. *)
Theorem handleTogglePainType_twice (region type : string)
    (st : LogPage.State) :
  let st' :=
    LogPage.handleTogglePainType region type
      (LogPage.handleTogglePainType region type st) in
  (∀ t, t ∈ default [] (LogPage.painTypes st' !! region)
        ↔ t ∈ default [] (LogPage.painTypes st !! region))
  ∧ (∀ other, other ≠ region →
              LogPage.painTypes st' !! other = LogPage.painTypes st !! other)
  ∧ LogPage.selectedRegions st' = LogPage.selectedRegions st
  ∧ LogPage.intensities st' = LogPage.intensities st.
Proof.
  destruct st as [sel ints pts]. unfold LogPage.handleTogglePainType. simpl.
  rewrite !lookup_insert_eq. simpl.
  split; [|split; [|done]].
  - intros t. apply (toggle_twice_elem type (default [] (pts !! region)) t).
  - intros other Hne. by rewrite !lookup_insert_ne.
Qed.

(** ** Picking and hovering on the overlay diagram *)

(** The anchor table: the regions first, clickable and numbered by their
    position, then the dummy anchors. *)
Lemma ALL_ANCHORS_lookup (n : nat) (anchor : Overlay.Anchor) :
  Overlay.ALL_ANCHORS !! n = Some anchor →
  ((n < length Overlay.REGIONS)%nat
   ∧ Overlay.clickable anchor = true
   ∧ Overlay.regionIdx anchor = Z.of_nat n)
  ∨ ((length Overlay.REGIONS ≤ n)%nat ∧ Overlay.clickable anchor = false).
Proof.
  unfold Overlay.ALL_ANCHORS. intros Hn.
  destruct (decide (n < length Overlay.REGIONS)%nat) as [Hlt|Hge].
  - left. rewrite lookup_app_l in Hn by (by rewrite length_imap).
    rewrite list_lookup_imap in Hn.
    destruct (Overlay.REGIONS !! n); [|done]. by injection Hn as <-.
  - right. rewrite lookup_app_r in Hn by (rewrite length_imap; lia).
    rewrite list_lookup_fmap in Hn.
    destruct (Overlay.DUMMY !! _); [|done]. injection Hn as <-.
    split; [lia | done].
Qed.

Lemma vertexAnchorMap_valid (pow2 : Q → Q) (anchors : list Overlay.Anchor)
    (positions : list Vector3) :
  anchors ≠ [] →
  Forall (fun r => is_Some (JS.index anchors r))
         (Overlay.vertexAnchorMap pow2 anchors positions).
Proof.
  intros Hne. unfold Overlay.vertexAnchorMap. apply Forall_fmap, Forall_forall.
  intros v _. cbn [compose]. unfold Overlay.nearestAnchor.
  destruct (nearest_spec (fun a => Overlay.d2 pow2 v (Overlay.pos a))
              0 anchors Hne) as (c & r & -> & Hc & _).
  rewrite index_of_nat, Hc. by eexists.
Qed.

(** A press on a face toggles the region the first vertex of the face is
    classified to.  When the entry stored for that vertex is the index of
    a region, which is the index of that region's anchor, [getRegionIdx]
    returns it and [onToggleRegion] is called with the name of that
    region; when it is the index of a dummy anchor, [getRegionIdx] returns
    -1 and nothing is toggled, as when no face was hit. *)
Theorem press_toggles_the_stored_region (vertexAnchorMap : list Z)
    (f : Face) (r : Z) (anchor : Overlay.Anchor) :
  vertexAnchorMap !! f.1.1 = Some r →
  JS.index Overlay.ALL_ANCHORS r = Some anchor →
  match JS.index Overlay.REGIONS r with
  | Some region =>
      Overlay.position region = Overlay.pos anchor
      ∧ Overlay.getRegionIdx Overlay.ALL_ANCHORS vertexAnchorMap (Some f)
        = JS.Normal r
      ∧ Overlay.handlePointerDown Overlay.ALL_ANCHORS vertexAnchorMap (Some f)
        = JS.Normal (Some (Overlay.name region))
  | None =>
      Overlay.clickable anchor = false
      ∧ Overlay.getRegionIdx Overlay.ALL_ANCHORS vertexAnchorMap (Some f)
        = JS.Normal (-1)%Z
      ∧ Overlay.handlePointerDown Overlay.ALL_ANCHORS vertexAnchorMap (Some f)
        = JS.Normal None
  end
  ∧ Overlay.handlePointerDown Overlay.ALL_ANCHORS vertexAnchorMap None
    = JS.Normal None.
Proof.
  intros Hvam Hanchor. split; [|done].
  assert (∃ c : nat, r = Z.of_nat c) as [c ->].
  { unfold JS.index in Hanchor. destruct (Z.ltb_spec r 0); [done|].
    exists (Z.to_nat r). lia. }
  rewrite index_of_nat in Hanchor. rewrite index_of_nat.
  unfold Overlay.handlePointerDown, Overlay.getRegionIdx.
  rewrite Hvam. cbn [mbind option_bind]. rewrite index_of_nat, Hanchor.
  cbn [JS.member JS.bind].
  destruct (ALL_ANCHORS_lookup c anchor Hanchor)
    as [(Hlt & Hclick & Hidx)|[Hge Hclick]].
  - destruct (lookup_lt_is_Some_2 _ _ Hlt) as [region Hregion].
    rewrite Hregion, Hclick, Hidx. cbn [JS.member JS.bind].
    destruct (Z.leb_spec 0 (Z.of_nat c)); [|lia].
    rewrite index_of_nat, Hregion. cbn [JS.member JS.bind].
    split; [|done].
    unfold Overlay.ALL_ANCHORS in Hanchor.
    rewrite lookup_app_l in Hanchor by (by rewrite length_imap).
    rewrite list_lookup_imap, Hregion in Hanchor. by injection Hanchor as <-.
  - rewrite (lookup_ge_None_2 _ _ Hge), Hclick. done.
Qed.

(** A mesh of two vertices, the first stored under the forehead, the
    second under the first dummy anchor. *)
Lemma press_toggles_the_stored_region_witness :
  (Overlay.getRegionIdx Overlay.ALL_ANCHORS [0; 15]%Z (Some (0, 1, 1)%nat)
   = JS.Normal 0%Z
   ∧ Overlay.handlePointerDown Overlay.ALL_ANCHORS [0; 15]%Z
                               (Some (0, 1, 1)%nat)
     = JS.Normal (Some "Frontal (Forehead)"))
  ∧ (Overlay.getRegionIdx Overlay.ALL_ANCHORS [0; 15]%Z (Some (1, 0, 0)%nat)
     = JS.Normal (-1)%Z
     ∧ Overlay.handlePointerDown Overlay.ALL_ANCHORS [0; 15]%Z
                                 (Some (1, 0, 0)%nat)
       = JS.Normal None).
Proof.
  split.
  - destruct (press_toggles_the_stored_region [0; 15]%Z (0, 1, 1)%nat 0%Z
                (Overlay.mkAnchor (vec (0, 0.70, 0.72)) 0 true)
                eq_refl eq_refl) as [(_ & Hidx & Hdown) _].
    split; [exact Hidx | exact Hdown].
  - destruct (press_toggles_the_stored_region [0; 15]%Z (1, 0, 0)%nat 15%Z
                (Overlay.mkAnchor (vec (0, -0.12, 1.04)) (-1) false)
                eq_refl eq_refl) as [(_ & Hidx & Hdown) _].
    split; [exact Hidx | exact Hdown].
Defined.

(** On the mesh as it is classified: a press on the forehead toggles it;
    a press on the nose, the territory of a dummy anchor, toggles
    nothing. *)
Example handlePointerDown_run :
  let vertexAnchorMap :=
    Overlay.vertexAnchorMap Double.square Overlay.ALL_ANCHORS
      [vec (0, 0.6875, 0.6875); vec (0, -0.125, 1)] in
  vertexAnchorMap = [0; 15]%Z
  ∧ Overlay.handlePointerDown Overlay.ALL_ANCHORS vertexAnchorMap
                              (Some (0, 1, 1)%nat)
    = JS.Normal (Some "Frontal (Forehead)")
  ∧ Overlay.handlePointerDown Overlay.ALL_ANCHORS vertexAnchorMap
                              (Some (1, 0, 0)%nat)
    = JS.Normal None.
Proof. repeat split; vm_compute; reflexivity. Qed.

Lemma getRegionIdx_valid (anchors : list Overlay.Anchor)
    (vertexAnchorMap : list Z) (face : option Face) :
  Forall (fun r => is_Some (JS.index anchors r)) vertexAnchorMap →
  (∀ f, face = Some f → (f.1.1 < length vertexAnchorMap)%nat) →
  ∃ ri, Overlay.getRegionIdx anchors vertexAnchorMap face = JS.Normal ri.
Proof.
  intros Hvalid Hrange. destruct face as [f|]; [|by eexists].
  unfold Overlay.getRegionIdx.
  destruct (lookup_lt_is_Some_2 _ _ (Hrange f eq_refl)) as [r Hr].
  rewrite Forall_lookup in Hvalid. destruct (Hvalid _ _ Hr) as [anchor Ha].
  rewrite Hr. simpl. rewrite Ha. simpl.
  destruct (Overlay.clickable anchor); by eexists.
Qed.

Lemma pointerStep_ok (anchors : list Overlay.Anchor) (vertexAnchorMap : list Z)
    (e : Overlay.PointerEvent) (p p' : Overlay.Pointer) :
  Overlay.pointer_ok p →
  Overlay.pointerStep anchors vertexAnchorMap e p = JS.Normal p' →
  Overlay.pointer_ok p'.
Proof.
  intros Hok. destruct e as [face|]; simpl.
  - unfold Overlay.handlePointerMove.
    destruct (Overlay.getRegionIdx anchors vertexAnchorMap face) as [ri|];
      simpl; [|done].
    intros [= <-]. case_bool_decide; [|done]. unfold Overlay.pointer_ok.
    destruct (Z.leb_spec 0 ri); simpl; [done|]. split; [done | lia].
  - intros [= <-]. unfold Overlay.pointer_ok. simpl. split; [done | lia].
Qed.

Lemma pointerRun_snoc (anchors : list Overlay.Anchor) (vertexAnchorMap : list Z)
    (events : list Overlay.PointerEvent) (e : Overlay.PointerEvent)
    (p : Overlay.Pointer) :
  Overlay.pointerRun anchors vertexAnchorMap (events ++ [e]) p
  = JS.bind (Overlay.pointerRun anchors vertexAnchorMap events p)
            (Overlay.pointerStep anchors vertexAnchorMap e).
Proof. unfold Overlay.pointerRun. by rewrite foldl_app. Qed.

(** On a classified mesh every run of pointer events completes.  If the
    cursor was not a pointer before the first event, then after the run
    it is a pointer exactly when a region is hovered; and a run ending
    with the pointer leaving the mesh leaves no region hovered. *)
Theorem hover_and_cursor_agree (anchors : list Overlay.Anchor)
    (vertexAnchorMap : list Z) (events : list Overlay.PointerEvent)
    (cursor0 : string) :
  Forall (fun r => is_Some (JS.index anchors r)) vertexAnchorMap →
  Forall (Overlay.on_mesh vertexAnchorMap) events →
  cursor0 ≠ "pointer" →
  ∃ p,
    Overlay.pointerRun anchors vertexAnchorMap events
                       (Overlay.mkPointer (-1) cursor0)
    = JS.Normal p
    ∧ (Overlay.cursor p = "pointer" ↔ (0 <= Overlay.hovered p)%Z)
    ∧ (last events = Some Overlay.PointerOut → Overlay.hovered p = (-1)%Z).
Proof.
  intros Hvalid Hmesh Hc0.
  induction events as [|e events IH] using rev_ind.
  - eexists. split; [reflexivity|]. simpl. split; [|done].
    split; [done | lia].
  - apply Forall_app in Hmesh as [Hmesh He].
    rewrite Forall_singleton in He.
    destruct (IH Hmesh) as (p & Hrun & Hok & _).
    rewrite pointerRun_snoc, Hrun. simpl.
    assert (Hstep : ∃ p', Overlay.pointerStep anchors vertexAnchorMap e p
                          = JS.Normal p').
    { destruct e as [face|]; simpl; [|by eexists].
      unfold Overlay.handlePointerMove.
      destruct (getRegionIdx_valid anchors vertexAnchorMap face Hvalid)
        as [ri Hri].
      - intros f ->. exact He.
      - rewrite Hri. simpl. by eexists. }
    destruct Hstep as [p' Hstep]. exists p'. split; [done|].
    split; [by apply (pointerStep_ok anchors vertexAnchorMap e p p')|].
    rewrite last_snoc. intros [= ->]. simpl in Hstep. by injection Hstep as <-.
Qed.

Lemma hover_and_cursor_agree_witness :
  let vertexAnchorMap :=
    Overlay.vertexAnchorMap Double.square Overlay.ALL_ANCHORS
      [vec (0, 0.6875, 0.6875); vec (0, -0.125, 1)] in
  ∃ p,
    Overlay.pointerRun Overlay.ALL_ANCHORS vertexAnchorMap
      [Overlay.PointerMove (Some (0, 1, 1)%nat);
       Overlay.PointerMove (Some (1, 0, 0)%nat);
       Overlay.PointerMove None]
      (Overlay.mkPointer (-1) "")
    = JS.Normal p
    ∧ (Overlay.cursor p = "pointer" ↔ (0 <= Overlay.hovered p)%Z).
Proof.
  intros vertexAnchorMap.
  destruct (hover_and_cursor_agree Overlay.ALL_ANCHORS vertexAnchorMap
              [Overlay.PointerMove (Some (0, 1, 1)%nat);
               Overlay.PointerMove (Some (1, 0, 0)%nat);
               Overlay.PointerMove None] "")
    as (p & Hrun & Hok & _).
  - apply vertexAnchorMap_valid. discriminate.
  - unfold vertexAnchorMap, Overlay.vertexAnchorMap.
    repeat apply Forall_cons_2; try apply Forall_nil_2;
      cbn [Overlay.on_mesh]; rewrite ?length_fmap; simpl; try lia; exact I.
  - discriminate.
  - exists p. split; [exact Hrun | exact Hok].
Defined.

Example pointerRun_run :
  let vertexAnchorMap :=
    Overlay.vertexAnchorMap Double.square Overlay.ALL_ANCHORS
      [vec (0, 0.6875, 0.6875); vec (0, -0.125, 1)] in
  Overlay.pointerRun Overlay.ALL_ANCHORS vertexAnchorMap
    [Overlay.PointerMove (Some (0, 1, 1)%nat)]
    (Overlay.mkPointer (-1) "")
  = JS.Normal (Overlay.mkPointer 0 "pointer")
  ∧ Overlay.pointerRun Overlay.ALL_ANCHORS vertexAnchorMap
      [Overlay.PointerMove (Some (0, 1, 1)%nat);
       Overlay.PointerMove (Some (1, 0, 0)%nat)]
      (Overlay.mkPointer (-1) "auto")
    = JS.Normal (Overlay.mkPointer (-1) "auto").
Proof. split; vm_compute; reflexivity. Qed.

(** ** Sub-geometries are compact *)

Section CompactFacts.
Context {P : Type} (fullGeo : Overlay.BufferGeometry P).
Implicit Types (st : Overlay.Builder P) (order : list nat).

Lemma copies_length st order :
  Overlay.copies fullGeo st order →
  length (Overlay.posArr st) = length order.
Proof. intros (_ & -> & _). by rewrite length_fmap. Qed.

Lemma addVert_copies vi st st' ni order :
  Overlay.copies fullGeo st order →
  Overlay.addVert fullGeo vi st = (st', ni) →
  ∃ order',
    Overlay.copies fullGeo st' order'
    ∧ order `prefix_of` order'
    ∧ order' !! ni = Some vi
    ∧ (∀ x, x ∈ order' ↔ x ∈ order ∨ x = vi)
    ∧ Overlay.idxArr st' = Overlay.idxArr st.
Proof.
  intros Hc Hadd. pose proof (copies_length _ _ Hc) as Hlen.
  destruct Hc as (Hnd & Hpos & Hnorm & Hremap).
  unfold Overlay.addVert in Hadd.
  destruct (Overlay.remap st !! vi) as [n|] eqn:Hre;
    injection Hadd as <- <-.
  - exists order. split; [done|]. split; [done|].
    apply Hremap in Hre. split; [done|]. split; [|done].
    intros x. split; [by left|]. intros [Hx| ->]; [done|].
    by eapply list_elem_of_lookup_2.
  - assert (Hfresh : vi ∉ order).
    { intros (n & Hn)%list_elem_of_lookup. apply Hremap in Hn. congruence. }
    exists (order ++ [vi]). split; [|split; [|split; [|split]]].
    + split; [|split; [|split]]; simpl.
      * apply NoDup_app. split; [done|]. split; [|apply NoDup_singleton].
        intros x Hx ->%list_elem_of_singleton. done.
      * by rewrite Hpos, fmap_app.
      * by rewrite Hnorm, fmap_app.
      * intros vj nj. rewrite Hlen.
        destruct (decide (vi = vj)) as [<-|Hne].
        -- rewrite lookup_insert_eq. split.
           ++ intros [= <-]. by rewrite lookup_app_r, Nat.sub_diag.
           ++ intros Hl. f_equal.
              destruct (decide (nj < length order)%nat) as [Hlt|Hge].
              ** rewrite lookup_app_l in Hl by done.
                 exfalso. apply Hfresh. by eapply list_elem_of_lookup_2.
              ** apply lookup_lt_Some in Hl. rewrite length_app in Hl.
                 simpl in Hl. lia.
        -- rewrite lookup_insert_ne by done. rewrite Hremap. split.
           ++ intros Hl. rewrite lookup_app_l; [done|].
              by eapply lookup_lt_Some.
           ++ intros Hl.
              destruct (decide (nj < length order)%nat) as [Hlt|Hge].
              ** by rewrite lookup_app_l in Hl.
              ** rewrite lookup_app_r in Hl by lia.
                 destruct (nj - length order)%nat; simpl in Hl; [|done].
                 congruence.
    + by apply prefix_app_r.
    + rewrite Hlen. by rewrite lookup_app_r, Nat.sub_diag.
    + intros x. rewrite elem_of_app, list_elem_of_singleton. done.
    + done.
Qed.

Lemma copy_of_prefix order order' g f :
  order `prefix_of` order' →
  Overlay.copy_of order g f → Overlay.copy_of order' g f.
Proof.
  intros Hp (H1 & H2 & H3).
  repeat split; eapply prefix_lookup_Some; eauto.
Qed.

Lemma buildStep_compact (vertexAnchorMap : list Z) (targetIdx : Z)
    st order taken (f : Face) :
  Overlay.compact fullGeo st order taken →
  ∃ order',
    Overlay.compact fullGeo
      (Overlay.buildStep fullGeo vertexAnchorMap targetIdx st f) order'
            (taken ++ Overlay.majority_faces vertexAnchorMap targetIdx [f]).
Proof.
  intros (Hc & Hidx & Hin).
  unfold Overlay.buildStep, Overlay.majority_faces.
  rewrite filter_cons, filter_nil, <- score_agreeing.
  case_bool_decide as Hmaj; case_decide; try done.
  2: { exists order. rewrite app_nil_r. by split. }
  destruct f as [[a b] c].
  destruct (Overlay.addVert fullGeo a st) as [st1 na] eqn:E1.
  destruct (Overlay.addVert fullGeo b st1) as [st2 nb] eqn:E2.
  destruct (Overlay.addVert fullGeo c st2) as [st3 nc] eqn:E3.
  destruct (addVert_copies _ _ _ _ _ Hc E1)
    as (o1 & Hc1 & Hp1 & Hl1 & Hin1 & Hi1).
  destruct (addVert_copies _ _ _ _ _ Hc1 E2)
    as (o2 & Hc2 & Hp2 & Hl2 & Hin2 & Hi2).
  destruct (addVert_copies _ _ _ _ _ Hc2 E3)
    as (o3 & Hc3 & Hp3 & Hl3 & Hin3 & Hi3).
  exists o3. split; [|split].
  - destruct Hc3 as (? & ? & ? & ?). split; [done|]. split; [done|]. by split.
  - simpl. apply Forall2_app.
    + rewrite Hi3, Hi2, Hi1. eapply Forall2_impl; [exact Hidx|].
      intros g f' Hgf. eapply copy_of_prefix; [|exact Hgf].
      etrans; [exact Hp1|]. etrans; [exact Hp2 | exact Hp3].
    + constructor; [|constructor]. repeat split; simpl.
      * eapply prefix_lookup_Some; [exact Hl1|]. by etrans.
      * eapply prefix_lookup_Some; [exact Hl2 | exact Hp3].
      * exact Hl3.
  - intros x. rewrite Hin3, Hin2, Hin1, Hin. split.
    + intros [[[(f' & Hf' & Hx)| ->]| ->]| ->].
      * exists f'. split; [apply elem_of_app; by left | done].
      * exists (a, b, c). split; [apply elem_of_app; right; apply list_elem_of_here|].
        simpl. apply list_elem_of_here.
      * exists (a, b, c). split; [apply elem_of_app; right; apply list_elem_of_here|].
        simpl. apply list_elem_of_further, list_elem_of_here.
      * exists (a, b, c). split; [apply elem_of_app; right; apply list_elem_of_here|].
        simpl. do 2 apply list_elem_of_further. apply list_elem_of_here.
    + intros (f' & [Hf'|Hf']%elem_of_app & Hx).
      * left; left; left. by exists f'.
      * apply list_elem_of_singleton in Hf' as ->. simpl in Hx.
        rewrite !elem_of_cons in Hx.
        destruct Hx as [->|[->|[->|Hx]]]; [tauto | tauto | tauto |].
        by apply not_elem_of_nil in Hx.
Qed.

Lemma build_loop_compact (vertexAnchorMap : list Z) (targetIdx : Z)
    (faces : list Face) :
  ∀ st order taken,
    Overlay.compact fullGeo st order taken →
    ∃ order',
      Overlay.compact fullGeo
              (foldl (Overlay.buildStep fullGeo vertexAnchorMap targetIdx)
                     st faces)
              order'
              (taken ++ Overlay.majority_faces vertexAnchorMap targetIdx faces).
Proof.
  induction faces as [|f rest IH]; intros st order taken Hc.
  { exists order. simpl. by rewrite app_nil_r. }
  destruct (buildStep_compact vertexAnchorMap targetIdx st order taken f Hc)
    as [o1 Hc1].
  destruct (IH _ _ _ Hc1) as [o2 Hc2]. exists o2.
  replace (Overlay.majority_faces vertexAnchorMap targetIdx (f :: rest))
    with (Overlay.majority_faces vertexAnchorMap targetIdx [f]
          ++ Overlay.majority_faces vertexAnchorMap targetIdx rest)
    by (symmetry; apply (majority_faces_app _ _ [f] rest)).
  rewrite app_assoc. exact Hc2.
Qed.
End CompactFacts.

(** A sub-geometry is self-contained and compact: its position and
    normal arrays hold one copy of each vertex of the triangles it is
    made of, and of no other vertex, and every index of its index buffer
    points at the copy of the corresponding source vertex, within the
    arrays. *)
Theorem sub_geometry_is_compact {P : Type}
    (fullGeo : Overlay.BufferGeometry P) (vertexAnchorMap : list Z)
    (targetIdx : Z) :
  let out := Overlay.buildRegionGeo fullGeo vertexAnchorMap targetIdx in
  let taken := Overlay.majority_faces vertexAnchorMap targetIdx
                                      (Overlay.index fullGeo) in
  ∃ order : list nat,
    NoDup order
    ∧ Overlay.posArr out = Overlay.position_at fullGeo <$> order
    ∧ Overlay.normArr out = Overlay.normal_at fullGeo <$> order
    ∧ (∀ x, x ∈ order ↔ ∃ f, f ∈ taken ∧ x ∈ [f.1.1; f.1.2; f.2])
    ∧ Forall2 (Overlay.copy_of order) (Overlay.idxArr out) taken
    ∧ Forall (fun g => ∀ n, n ∈ [g.1.1; g.1.2; g.2] →
                            (n < length (Overlay.posArr out))%nat)
             (Overlay.idxArr out).
Proof.
  intros out taken.
  destruct (build_loop_compact fullGeo vertexAnchorMap targetIdx
              (Overlay.index fullGeo) (Overlay.mkBuilder [] [] [] ∅) [] [])
    as (order & Hc & Hidx & Hin).
  { split; [|split].
    - split; [constructor|]. split; [done|]. split; [done|].
      intros vi ni. simpl. rewrite lookup_empty, lookup_nil. done.
    - constructor.
    - intros x. split; [by intros ?%not_elem_of_nil|].
      intros (f & ?%not_elem_of_nil & _). done. }
  simpl in Hidx, Hin. subst out taken. unfold Overlay.buildRegionGeo.
  exists order. pose proof (copies_length _ _ _ Hc) as Hlen.
  destruct Hc as (Hnd & Hpos & Hnorm & _).
  do 5 (split; [done|]). rewrite Hlen.
  clear -Hidx. induction Hidx as [|g f gs fs (H1 & H2 & H3) _ IH];
    constructor; [|done].
  intros n Hn. rewrite !elem_of_cons in Hn.
  destruct Hn as [->|[->|[->|Hn]]]; try (by eapply lookup_lt_Some).
  by apply not_elem_of_nil in Hn.
Qed.

(** ** Frames *)

Lemma frameRegion_idempotent (d : Q) (isSelected isHovered : bool)
    (mat : Overlay.Material) :
  Overlay.frameRegion d isSelected isHovered
    (Overlay.frameRegion d isSelected isHovered mat)
  = Overlay.frameRegion d isSelected isHovered mat.
Proof.
  unfold Overlay.frameRegion.
  by destruct (JS.is_zero (Overlay.visibility d)).
Qed.

Lemma frameRegion_opacity (d : Q) (isSelected isHovered : bool)
    (mat : Overlay.Material) :
  let mat' := Overlay.frameRegion d isSelected isHovered mat in
  (Overlay.visible mat' = true →
   0 < Overlay.opacity mat' ∧ Overlay.opacity mat' <= 0.75)
  ∧ (Overlay.visible mat' = false →
     Overlay.opacity mat' = Overlay.opacity mat).
Proof.
  unfold Overlay.frameRegion.
  destruct (JS.is_zero (Overlay.visibility d)) eqn:Hz; simpl; [by split|].
  split; [|done]. intros _.
  assert (Hnz : ¬ Overlay.visibility d == 0).
  { intros H. apply is_zero_eq in H. congruence. }
  pose proof (div_quarter d) as Hq.
  destruct (visibility_cases d) as [[H E]|[(H1 & H2 & E)|[H E]]];
    [done| |]; rewrite E; unfold Overlay.baseOpacity;
    destruct isSelected, isHovered; split; lra.
Qed.

(** One frame leaves the overlay materials in a state that only depends
    on the camera, the selection and the hovered region: a material left
    visible has an opacity above 0 and at most 0.75, a hidden one keeps
    the opacity it had, materials that are not mounted stay so, and
    running the same frame again changes nothing. *)
Theorem frame_opacity_bounds (normalize : Vector3 → Vector3)
    (cameraPosition : Vector3) (selected : list string) (hovered : Z)
    (matRefs : list (option Overlay.Material)) :
  let out :=
    Overlay.useFrame normalize cameraPosition selected hovered matRefs in
  length out = length matRefs
  ∧ (∀ ri, matRefs !! ri = Some None → out !! ri = Some None)
  ∧ (∀ ri mat mat',
        (ri < length Overlay.REGIONS)%nat →
        matRefs !! ri = Some (Some mat) → out !! ri = Some (Some mat') →
        (Overlay.visible mat' = true →
         0 < Overlay.opacity mat' ∧ Overlay.opacity mat' <= 0.75)
        ∧ (Overlay.visible mat' = false →
           Overlay.opacity mat' = Overlay.opacity mat))
  ∧ (∀ ri, (length Overlay.REGIONS ≤ ri)%nat → out !! ri = matRefs !! ri)
  ∧ Overlay.useFrame normalize cameraPosition selected hovered out = out.
Proof.
  intros out. subst out. split; [|split; [|split; [|split]]].
  - unfold Overlay.useFrame. by rewrite length_imap.
  - intros ri Hri. unfold Overlay.useFrame.
    by rewrite list_lookup_imap, Hri.
  - intros ri mat mat' Hlt Hm Hout.
    destruct (lookup_lt_is_Some_2 _ _ Hlt) as [region Hregion].
    rewrite (useFrame_lookup _ _ _ _ _ _ _ _ Hm Hregion) in Hout.
    injection Hout as <-. apply frameRegion_opacity.
  - intros ri Hge. unfold Overlay.useFrame. rewrite list_lookup_imap.
    destruct (matRefs !! ri) as [[mat|]|]; simpl; try done.
    by rewrite (lookup_ge_None_2 _ _ Hge).
  - apply list_eq. intros ri.
    destruct (matRefs !! ri) as [[mat|]|] eqn:Hm.
    + destruct (Overlay.REGIONS !! ri) as [region|] eqn:Hregion.
      * pose proof (useFrame_lookup normalize cameraPosition selected hovered
                      _ _ _ _ Hm Hregion) as Hout.
        rewrite (useFrame_lookup _ _ _ _ _ _ _ _ Hout Hregion), Hout.
        by rewrite frameRegion_idempotent.
      * unfold Overlay.useFrame. rewrite !list_lookup_imap, Hm. simpl.
        by rewrite Hregion.
    + unfold Overlay.useFrame. by rewrite !list_lookup_imap, Hm.
    + unfold Overlay.useFrame. by rewrite !list_lookup_imap, Hm.
Qed.

Lemma frame_opacity_bounds_witness :
  let normalize := fun v => mkVector3 0 0 (vz v / Qabs (vz v)) in
  let matRefs := [Some (Overlay.mkMaterial true 0.1); None] in
  let out :=
    Overlay.useFrame normalize (mkVector3 0 0 1) ["Frontal (Forehead)"] 0
                     matRefs in
  ∃ mat',
    out !! 0%nat = Some (Some mat')
    ∧ 0 < Overlay.opacity mat' ∧ Overlay.opacity mat' <= 0.75.
Proof.
  intros normalize matRefs out.
  destruct (frame_opacity_bounds normalize (mkVector3 0 0 1)
              ["Frontal (Forehead)"] 0 matRefs) as (_ & _ & Hb & _).
  eexists. split; [reflexivity|].
  refine (proj1 (Hb 0%nat (Overlay.mkMaterial true 0.1) _ _ _ _) _);
    [simpl; lia | reflexivity | reflexivity | reflexivity].
Defined.

(** ** Picking and hovering on the heatmap diagram *)

Lemma index_elem_of {A : Type} (l : list A) (i : Z) (x : A) :
  JS.index l i = Some x → x ∈ l.
Proof.
  unfold JS.index. destruct (i <? 0)%Z; [done|].
  apply list_elem_of_lookup_2.
Qed.

Lemma heatmap_pointerStep_ok (regions : list Heatmap.VoronoiRegion)
    (vertexRegions : list Z) (e : Heatmap.PointerEvent)
    (h h' : Heatmap.Hover) :
  Heatmap.hover_ok regions h →
  Heatmap.pointerStep regions vertexRegions e h = JS.Normal h' →
  Heatmap.hover_ok regions h'.
Proof.
  intros Hok. destruct e as [[f|]|]; simpl.
  - destruct (vertexRegions !! f.1.1 ≫= JS.index regions) as [info|] eqn:Hinfo;
      simpl; [|done].
    destruct (Heatmap.clickable info) eqn:Hclick; simpl; intros [= <-];
      case_bool_decide; try done.
    + split; simpl; [by split; [eexists|]|].
      intros n [= <-]. exists info. split; [|done].
      destruct (vertexRegions !! f.1.1) as [r|]; [|done].
      by eapply index_elem_of.
    + split; simpl; [|done]. split; [done | by intros [? ?]].
  - by intros [= <-].
  - intros [= <-]. split; simpl; [|done]. split; [done | by intros [? ?]].
Qed.

Lemma heatmap_pointerStep_total (regions : list Heatmap.VoronoiRegion)
    (vertexRegions : list Z) (e : Heatmap.PointerEvent) (h : Heatmap.Hover) :
  Forall (fun r => is_Some (JS.index regions r)) vertexRegions →
  Heatmap.on_mesh vertexRegions e →
  ∃ h', Heatmap.pointerStep regions vertexRegions e h = JS.Normal h'.
Proof.
  intros Hvalid He. destruct e as [[f|]|]; simpl; try by eexists.
  simpl in He. destruct (lookup_lt_is_Some_2 _ _ He) as [r Hr].
  rewrite Forall_lookup in Hvalid. destruct (Hvalid _ _ Hr) as [info Hinfo].
  rewrite Hr. simpl. rewrite Hinfo. simpl.
  destruct (Heatmap.clickable info); by eexists.
Qed.

(** On a classified mesh every run of pointer events completes.  If the
    cursor was not a pointer before the first event, then after the run
    it is a pointer exactly when a region is hovered, the hovered region
    is a clickable region of the table, and a run ending with the pointer
    leaving the mesh leaves no region hovered. *)
Theorem heatmap_hover_and_cursor_agree
    (regions : list Heatmap.VoronoiRegion) (vertexRegions : list Z)
    (events : list Heatmap.PointerEvent) (cursor0 : string) :
  Forall (fun r => is_Some (JS.index regions r)) vertexRegions →
  Forall (Heatmap.on_mesh vertexRegions) events →
  cursor0 ≠ "pointer" →
  ∃ h,
    Heatmap.pointerRun regions vertexRegions events
                       (Heatmap.mkHover None cursor0)
    = JS.Normal h
    ∧ (Heatmap.cursor h = "pointer" ↔ is_Some (Heatmap.hoveredRegion h))
    ∧ (∀ regionName, Heatmap.hoveredRegion h = Some regionName →
         ∃ info, info ∈ regions ∧ Heatmap.name info = regionName
                 ∧ Heatmap.clickable info = true)
    ∧ (last events = Some Heatmap.PointerOut → Heatmap.hoveredRegion h = None).
Proof.
  intros Hvalid Hmesh Hc0.
  induction events as [|e events IH] using rev_ind.
  - eexists. split; [reflexivity|]. simpl.
    split; [split; [done | by intros [? ?]]|]. split; [done|done].
  - apply Forall_app in Hmesh as [Hmesh He].
    rewrite Forall_singleton in He.
    destruct (IH Hmesh) as (h & Hrun & Hcur & Hreg & _).
    unfold Heatmap.pointerRun in *. rewrite foldl_app. simpl. rewrite Hrun.
    simpl.
    destruct (heatmap_pointerStep_total regions vertexRegions e h Hvalid He)
      as [h' Hstep].
    exists h'. split; [done|].
    destruct (heatmap_pointerStep_ok regions vertexRegions e h h')
      as [Hcur' Hreg']; [by split | done |].
    split; [done|]. split; [done|].
    rewrite last_snoc. intros [= ->]. simpl in Hstep. by injection Hstep as <-.
Qed.

Lemma heatmap_hover_and_cursor_agree_witness :
  ∃ h,
    Heatmap.pointerRun Heatmap.ALL_VORONOI_REGIONS [0; 7; 1]%Z
      [Heatmap.PointerMove (Some (0, 1, 2)%nat);
       Heatmap.PointerMove (Some (2, 1, 0)%nat);
       Heatmap.PointerOut]
      (Heatmap.mkHover None "")
    = JS.Normal h
    ∧ (Heatmap.cursor h = "pointer" ↔ is_Some (Heatmap.hoveredRegion h))
    ∧ Heatmap.hoveredRegion h = None.
Proof.
  destruct (heatmap_hover_and_cursor_agree Heatmap.ALL_VORONOI_REGIONS
              [0; 7; 1]%Z
              [Heatmap.PointerMove (Some (0, 1, 2)%nat);
               Heatmap.PointerMove (Some (2, 1, 0)%nat);
               Heatmap.PointerOut] "")
    as (h & Hrun & Hcur & _ & Hout).
  - repeat constructor; by eexists.
  - repeat apply Forall_cons_2; try apply Forall_nil_2; simpl; try lia;
      exact I.
  - discriminate.
  - exists h. split; [exact Hrun|]. split; [exact Hcur|].
    apply Hout. reflexivity.
Defined.

(** The region table: the regions of the store first, clickable, then
    the dummy regions. *)
Lemma ALL_VORONOI_REGIONS_lookup (n : nat) (info : Heatmap.VoronoiRegion) :
  Heatmap.ALL_VORONOI_REGIONS !! n = Some info →
  match Heatmap.REGIONS !! n with
  | Some region => info = Heatmap.mkVoronoi region.1 region.2 true
  | None => Heatmap.clickable info = false
  end.
Proof.
  unfold Heatmap.ALL_VORONOI_REGIONS. intros Hn.
  destruct (Heatmap.REGIONS !! n) as [region|] eqn:Hregion.
  - rewrite lookup_app_l in Hn
      by (rewrite length_fmap; by eapply lookup_lt_Some).
    rewrite list_lookup_fmap, Hregion in Hn. by injection Hn as <-.
  - apply lookup_ge_None_1 in Hregion.
    rewrite lookup_app_r in Hn by (by rewrite length_fmap).
    rewrite list_lookup_fmap in Hn.
    destruct (Heatmap.DUMMY_REGIONS !! _); [|done]. by injection Hn as <-.
Qed.

(** A press on a face toggles the region the first vertex of the face is
    classified to: when the entry stored for that vertex is the index of
    one of the seven regions, [onToggleRegion] is called with the name of
    that region; when it is the index of a dummy region nothing is
    toggled, as when no face was hit. *)
Theorem heatmap_press_toggles_the_stored_region (vertexRegions : list Z)
    (f : Face) (r : Z) (info : Heatmap.VoronoiRegion) :
  vertexRegions !! f.1.1 = Some r →
  JS.index Heatmap.ALL_VORONOI_REGIONS r = Some info →
  match JS.index Heatmap.REGIONS r with
  | Some region =>
      Heatmap.position info = region.2
      ∧ Heatmap.handlePointerDown Heatmap.ALL_VORONOI_REGIONS vertexRegions
                                  (Some f)
        = JS.Normal (Some region.1)
  | None =>
      Heatmap.clickable info = false
      ∧ Heatmap.handlePointerDown Heatmap.ALL_VORONOI_REGIONS vertexRegions
                                  (Some f)
        = JS.Normal None
  end
  ∧ Heatmap.handlePointerDown Heatmap.ALL_VORONOI_REGIONS vertexRegions None
    = JS.Normal None.
Proof.
  intros Hr Hinfo. split; [|done].
  assert (∃ c : nat, r = Z.of_nat c) as [c ->].
  { unfold JS.index in Hinfo. destruct (Z.ltb_spec r 0); [done|].
    exists (Z.to_nat r). lia. }
  unfold Heatmap.handlePointerDown. rewrite Hr. cbn [mbind option_bind].
  rewrite Hinfo. cbn [JS.member JS.bind].
  rewrite index_of_nat in Hinfo. rewrite index_of_nat.
  pose proof (ALL_VORONOI_REGIONS_lookup c info Hinfo) as Htable.
  destruct (Heatmap.REGIONS !! c) as [region|].
  - subst info. done.
  - by rewrite Htable.
Qed.

(** A mesh of two vertices, the first stored under the forehead, the
    second under the nose. *)
Lemma heatmap_press_toggles_the_stored_region_witness :
  Heatmap.handlePointerDown Heatmap.ALL_VORONOI_REGIONS [0; 7]%Z
                            (Some (0, 1, 1)%nat)
  = JS.Normal (Some "Forehead")
  ∧ Heatmap.handlePointerDown Heatmap.ALL_VORONOI_REGIONS [0; 7]%Z
                              (Some (1, 0, 0)%nat)
    = JS.Normal None.
Proof.
  split.
  - destruct (heatmap_press_toggles_the_stored_region [0; 7]%Z (0, 1, 1)%nat
                0%Z (Heatmap.mkVoronoi "Forehead" (vec (0, 0.6, 0.8)) true)
                eq_refl eq_refl) as [[_ Hdown] _].
    exact Hdown.
  - destruct (heatmap_press_toggles_the_stored_region [0; 7]%Z (1, 0, 0)%nat
                7%Z (Heatmap.mkVoronoi "Nose" (vec (0, -0.1, 1.0)) false)
                eq_refl eq_refl) as [[_ Hdown] _].
    exact Hdown.
Defined.

(** On the mesh as it is classified. *)
Example heatmap_handlePointerDown_run :
  let vertexRegions :=
    Heatmap.vertexRegions Double.sqrt Heatmap.ALL_VORONOI_REGIONS
      [vec (0, 0.625, 0.6875); vec (0, -0.125, 1)] in
  vertexRegions = [0; 7]%Z
  ∧ Heatmap.handlePointerDown Heatmap.ALL_VORONOI_REGIONS vertexRegions
                              (Some (0, 1, 1)%nat)
    = JS.Normal (Some "Forehead")
  ∧ Heatmap.handlePointerDown Heatmap.ALL_VORONOI_REGIONS vertexRegions
                              (Some (1, 0, 0)%nat)
    = JS.Normal None.
Proof. repeat split; vm_compute; reflexivity. Qed.

(** ** Mesh normalisation *)

Lemma Math_min_cases (a b : Q) :
  (a <= b ∧ JS.Math_min a b == a) ∨ (b <= a ∧ JS.Math_min a b == b).
Proof.
  unfold JS.Math_min.
  destruct (Q.min_spec a b) as [[H E]|[H E]]; [left | right]; split;
    try exact E; lra.
Qed.

Lemma Math_max_cases (a b : Q) :
  (b <= a ∧ JS.Math_max a b == a) ∨ (a <= b ∧ JS.Math_max a b == b).
Proof.
  unfold JS.Math_max.
  destruct (Q.max_spec a b) as [[H E]|[H E]]; [right | left]; split;
    try exact E; lra.
Qed.

Lemma extent_singleton (f : Vector3 → Q) (p : Vector3) :
  Mesh.extent f [p] (f p) (f p).
Proof.
  repeat split.
  - apply list_elem_of_singleton in H as ->. lra.
  - apply list_elem_of_singleton in H as ->. lra.
  - exists p. split; [apply list_elem_of_here | reflexivity].
  - exists p. split; [apply list_elem_of_here | reflexivity].
Qed.

Lemma extent_snoc (f : Vector3 → Q) (l : list Vector3) (p : Vector3)
    (lo hi : Q) :
  Mesh.extent f l lo hi →
  Mesh.extent f (l ++ [p]) (JS.Math_min lo (f p)) (JS.Math_max hi (f p)).
Proof.
  intros (Hall & (pl & Hpl & El) & (ph & Hph & Eh)).
  destruct (Math_min_cases lo (f p)) as [[Hm Em]|[Hm Em]];
    destruct (Math_max_cases hi (f p)) as [[HM EM]|[HM EM]].
  all: split; [|split].
  all: try (intros q [Hq|Hq%list_elem_of_singleton]%elem_of_app;
            [specialize (Hall q Hq) | subst q]; lra).
  all: try (exists pl; split; [apply elem_of_app; by left | lra]).
  all: try (exists ph; split; [apply elem_of_app; by left | lra]).
  all: exists p; (split; [apply elem_of_app; right; apply list_elem_of_here
                         | lra]).
Qed.

Lemma extent_unique (f : Vector3 → Q) (l : list Vector3) (lo hi lo' hi' : Q) :
  Mesh.extent f l lo hi → Mesh.extent f l lo' hi' → lo == lo' ∧ hi == hi'.
Proof.
  intros (Hall & (pl & Hpl & El) & (ph & Hph & Eh))
         (Hall' & (pl' & Hpl' & El') & (ph' & Hph' & Eh')).
  pose proof (Hall _ Hpl'). pose proof (Hall _ Hph').
  pose proof (Hall' _ Hpl). pose proof (Hall' _ Hph). lra.
Qed.

(** An increasing affine change of a coordinate moves its extent along. *)
Lemma extent_affine (f : Vector3 → Q) (T : Vector3 → Vector3)
    (l : list Vector3) (lo hi a b : Q) :
  0 < a → (∀ p, f (T p) == a * f p + b) →
  Mesh.extent f l lo hi →
  Mesh.extent f (T <$> l) (a * lo + b) (a * hi + b).
Proof.
  intros Ha HT (Hall & (pl & Hpl & El) & (ph & Hph & Eh)).
  split; [|split].
  - intros q (p & -> & Hp)%list_elem_of_fmap.
    specialize (Hall p Hp). rewrite HT. nra.
  - exists (T pl). split; [apply list_elem_of_fmap; by exists pl|].
    rewrite HT, El. reflexivity.
  - exists (T ph). split; [apply list_elem_of_fmap; by exists ph|].
    rewrite HT, Eh. reflexivity.
Qed.

Lemma expand_extent (f : Vector3 → Q) (fmin fmax : Mesh.Box3 → Q) :
  (∀ box p, fmin (Mesh.expandByPoint box p) = JS.Math_min (fmin box) (f p)) →
  (∀ box p, fmax (Mesh.expandByPoint box p) = JS.Math_max (fmax box) (f p)) →
  ∀ (rest : list Vector3) (p : Vector3),
    let box := foldl Mesh.expandByPoint (Mesh.mkBox3 p p) rest in
    fmin (Mesh.mkBox3 p p) = f p → fmax (Mesh.mkBox3 p p) = f p →
    Mesh.extent f (p :: rest) (fmin box) (fmax box).
Proof.
  intros Hmin Hmax rest p. simpl. intros Hp Hp'.
  induction rest as [|q rest IH] using rev_ind.
  - simpl. rewrite Hp, Hp'. apply extent_singleton.
  - rewrite foldl_snoc, Hmin, Hmax.
    change (p :: rest ++ [q]) with ((p :: rest) ++ [q]).
    by apply extent_snoc.
Qed.

(** The bounding box holds the extent of the mesh along each axis. *)
Lemma computeBoundingBox_spec (positions : list Vector3) :
  positions ≠ [] →
  ∃ box, Mesh.computeBoundingBox positions = Some box
         ∧ Mesh.extent vx positions (vx (Mesh.min box)) (vx (Mesh.max box))
         ∧ Mesh.extent vy positions (vy (Mesh.min box)) (vy (Mesh.max box))
         ∧ Mesh.extent vz positions (vz (Mesh.min box)) (vz (Mesh.max box)).
Proof.
  destruct positions as [|p rest]; [done|]. intros _.
  eexists. split; [reflexivity|].
  split; [|split].
  - by apply (expand_extent vx (fun b => vx (Mesh.min b))
                                (fun b => vx (Mesh.max b))).
  - by apply (expand_extent vy (fun b => vy (Mesh.min b))
                                (fun b => vy (Mesh.max b))).
  - by apply (expand_extent vz (fun b => vz (Mesh.min b))
                                (fun b => vz (Mesh.max b))).
Qed.

Lemma normalizedGeometry_spec (positions : list Vector3) (p q : Vector3) :
  p ∈ positions → q ∈ positions → ¬ vy p == vy q →
  ∃ (box : Mesh.Box3) (s : Q),
    Mesh.computeBoundingBox positions = Some box
    ∧ 0 < s
    ∧ s * (vy (Mesh.max box) - vy (Mesh.min box)) == 2
    ∧ Mesh.normalizedGeometry positions
      = Some ((fun v => mkVector3
                 ((vx v + - vx (Mesh.getCenter box)) * s)
                 ((vy v + - vy (Mesh.getCenter box)) * s)
                 ((vz v + - vz (Mesh.getCenter box)) * s)) <$> positions).
Proof.
  intros Hp Hq Hpq.
  assert (Hne : positions ≠ []) by (intros ->; by apply not_elem_of_nil in Hp).
  destruct (computeBoundingBox_spec positions Hne)
    as (box & Hbox & _ & Hy & _).
  set (center := Mesh.getCenter box).
  set (translated :=
         Mesh.translate (- vx center) (- vy center) (- vz center) positions).
  assert (Hne' : translated ≠ []).
  { unfold translated, Mesh.translate. destruct positions; [done|]. done. }
  destruct (computeBoundingBox_spec translated Hne')
    as (box' & Hbox' & _ & Hy' & _).
  assert (Hy'' : Mesh.extent vy translated
                   (1 * vy (Mesh.min box) + - vy center)
                   (1 * vy (Mesh.max box) + - vy center)).
  { apply extent_affine; [lra | | exact Hy]. intros v. simpl. lra. }
  destruct (extent_unique _ _ _ _ _ _ Hy' Hy'') as [Elo Ehi].
  set (height := vy (Mesh.max box') - vy (Mesh.min box')).
  assert (Eheight : height == vy (Mesh.max box) - vy (Mesh.min box))
    by (unfold height; lra).
  assert (Hpos : 0 < height).
  { destruct Hy as (Hall & _). pose proof (Hall _ Hp). pose proof (Hall _ Hq).
    destruct (Qlt_le_dec 0 height) as [|Hle]; [done|].
    exfalso. apply Hpq. lra. }
  exists box, (2 / height). split; [exact Hbox|].
  assert (Hs : 0 < 2 / height).
  { apply Qlt_shift_div_l; lra. }
  split; [exact Hs|]. split.
  { rewrite <- Eheight. field. lra. }
  unfold Mesh.normalizedGeometry. rewrite Hbox.
  fold center. fold translated. rewrite Hbox'. fold height.
  assert (Hz : JS.is_zero height = false).
  { unfold JS.is_zero. destruct (Qeq_bool height 0) eqn:E; [|done].
    apply Qeq_bool_iff in E. lra. }
  rewrite Hz. f_equal.
  unfold Mesh.scale, translated, Mesh.translate.
  rewrite <- list_fmap_compose. reflexivity.
Qed.

(** Normalisation of a mesh that has two vertices of different height
    succeeds: it keeps the number of vertices, makes the mesh span exactly
    the heights from -1 to 1, centres it on the other two axes, and scales
    all squared distances between vertices by one positive factor. *)
Theorem normalized_mesh_spans_unit_height (positions : list Vector3)
    (p q : Vector3) :
  p ∈ positions → q ∈ positions → ¬ vy p == vy q →
  ∃ geo : list Vector3,
    Mesh.normalizedGeometry positions = Some geo
    ∧ length geo = length positions
    ∧ Mesh.extent vy geo (-1) 1
    ∧ (∃ w, Mesh.extent vx geo (- w) w)
    ∧ (∃ d, Mesh.extent vz geo (- d) d)
    ∧ ∃ s, 0 < s
           ∧ ∀ i j v w v' w',
               positions !! i = Some v → positions !! j = Some w →
               geo !! i = Some v' → geo !! j = Some w' →
               distanceToSquared v' w' == s * distanceToSquared v w.
Proof.
  intros Hp Hq Hpq.
  destruct (normalizedGeometry_spec positions p q Hp Hq Hpq)
    as (box & s & Hbox & Hs & Hheight & Hgeo).
  assert (Hne : positions ≠ []) by (intros ->; by apply not_elem_of_nil in Hp).
  destruct (computeBoundingBox_spec positions Hne)
    as (box0 & Hbox0 & Hx & Hy & Hz).
  rewrite Hbox in Hbox0. injection Hbox0 as <-.
  set (T := fun v => mkVector3 ((vx v + - vx (Mesh.getCenter box)) * s)
                               ((vy v + - vy (Mesh.getCenter box)) * s)
                               ((vz v + - vz (Mesh.getCenter box)) * s)) in *.
  exists (T <$> positions). split; [exact Hgeo|].
  split; [apply length_fmap|].
  assert (Haff : ∀ (f : Vector3 → Q) lo hi,
             (∀ v, f (T v) == s * f v + - (s * ((lo + hi) * 0.5))) →
             Mesh.extent f positions lo hi →
             Mesh.extent f (T <$> positions)
                         (- (s * (hi - lo) * 0.5)) (s * (hi - lo) * 0.5)).
  { intros f lo hi HT Hext.
    pose proof (extent_affine f T positions lo hi s
                  (- (s * ((lo + hi) * 0.5))) Hs HT Hext)
      as (Hall & (pl & Hpl & El) & (ph & Hph & Eh)).
    split; [|split].
    - intros v Hv. specialize (Hall v Hv). lra.
    - exists pl. split; [done | lra].
    - exists ph. split; [done | lra]. }
  split; [|split; [|split]].
  - assert (HT : ∀ v, vy (T v)
                       == s * vy v
                          + - (s * ((vy (Mesh.min box) + vy (Mesh.max box))
                                    * 0.5)))
      by (intros v; simpl; lra).
    pose proof (Haff vy _ _ HT Hy)
      as (Hall & (pl & Hpl & El) & (ph & Hph & Eh)).
    split; [|split].
    + intros v Hv. specialize (Hall v Hv). lra.
    + exists pl. split; [done | lra].
    + exists ph. split; [done | lra].
  - eexists. apply (Haff vx); [|exact Hx]. intros v. simpl. lra.
  - eexists. apply (Haff vz); [|exact Hz]. intros v. simpl. lra.
  - exists (s * s). split; [nra|].
    intros i j v w v' w' Hv Hw Hv' Hw'.
    rewrite list_lookup_fmap, Hv in Hv'. rewrite list_lookup_fmap, Hw in Hw'.
    injection Hv' as <-. injection Hw' as <-.
    unfold distanceToSquared, T. simpl. ring.
Qed.

(** A mesh of three vertices, 4 high and off centre. *)
Lemma normalized_mesh_spans_unit_height_witness :
  let positions := [vec (1, 3, 0); vec (2, 7, 1); vec (0, 5, 5)] in
  ∃ geo : list Vector3,
    Mesh.normalizedGeometry positions = Some geo
    ∧ length geo = length positions
    ∧ Mesh.extent vy geo (-1) 1
    ∧ (∃ w, Mesh.extent vx geo (- w) w)
    ∧ (∃ d, Mesh.extent vz geo (- d) d)
    ∧ ∃ s, 0 < s
           ∧ ∀ i j v w v' w',
               positions !! i = Some v → positions !! j = Some w →
               geo !! i = Some v' → geo !! j = Some w' →
               distanceToSquared v' w' == s * distanceToSquared v w.
Proof.
  intros positions.
  apply (normalized_mesh_spans_unit_height positions
           (vec (1, 3, 0)) (vec (2, 7, 1))).
  - apply list_elem_of_here.
  - apply list_elem_of_further, list_elem_of_here.
  - simpl. intros H. discriminate H.
Defined.

(** The same mesh, with the fractions reduced, and a flat mesh. *)
Example normalizedGeometry_run :
  (fmap (M := list) (fun v => (Qred (vx v), Qred (vy v), Qred (vz v)))
   <$> Mesh.normalizedGeometry [vec (1, 3, 0); vec (2, 7, 1); vec (0, 5, 5)])
  = Some [(0, -1, -(5 # 4)); (1 # 2, 1, -(3 # 4)); (-(1 # 2), 0, 5 # 4)]
  ∧ Mesh.normalizedGeometry [vec (0, 1, 0); vec (3, 1, 2)] = None.
Proof. split; vm_compute; reflexivity. Qed.

(** ** The colour ramp outside and between its bands *)

Lemma intensityToColor_clamped (toWorking : Q → Q) (x : Q) :
  ∃ t, 0 <= t ∧ t <= 1
       ∧ (x <= 0 → t == 0) ∧ (10 <= x → t == 1)
       ∧ (0 <= x → x <= 10 → t == x / 10)
       ∧ Heatmap.intensityToColor toWorking x
         = if JS.ltb t 0.25
           then Heatmap.lerp (Heatmap.blue toWorking)
                             (Heatmap.green toWorking) (t / 0.25)
           else if JS.ltb t 0.5
           then Heatmap.lerp (Heatmap.green toWorking)
                             (Heatmap.yellow toWorking) ((t - 0.25) / 0.25)
           else if JS.ltb t 0.75
           then Heatmap.lerp (Heatmap.yellow toWorking)
                             (Heatmap.orange toWorking) ((t - 0.5) / 0.25)
           else Heatmap.lerp (Heatmap.orange toWorking)
                             (Heatmap.red toWorking) ((t - 0.75) / 0.25).
Proof.
  exists (JS.Math_max 0 (JS.Math_min 1 (x / 10))).
  assert (Hx : x / 10 == x * (1 # 10)) by field.
  destruct (clamp_cases (x / 10)) as [[H E]|[(H1 & H2 & E)|[H E]]];
    repeat split; try reflexivity; intros; lra.
Qed.

Lemma lerp_at_0 (c d : Heatmap.Color) (alpha : Q) :
  alpha == 0 → Heatmap.Color_eq (Heatmap.lerp c d alpha) c.
Proof.
  intros E. unfold Heatmap.Color_eq, Heatmap.lerp. cbn [Heatmap.cr Heatmap.cg Heatmap.cb].
  rewrite E. repeat split; ring.
Qed.

Lemma lerp_at_1 (c d : Heatmap.Color) (alpha : Q) :
  alpha == 1 → Heatmap.Color_eq (Heatmap.lerp c d alpha) d.
Proof.
  intros E. unfold Heatmap.Color_eq, Heatmap.lerp. cbn [Heatmap.cr Heatmap.cg Heatmap.cb].
  rewrite E. repeat split; ring.
Qed.

(** The ramp saturates: an intensity of 0 or less is coloured as the first
    stop and one of 10 or more as the last; and the bands join, the
    intensities 2.5, 5 and 7.5 being coloured as the stops between;
    whatever the conversion to the working colour space. *)
Theorem intensityToColor_stops (toWorking : Q → Q) (x : Q) :
  (x <= 0 → Heatmap.Color_eq (Heatmap.intensityToColor toWorking x)
                             (Heatmap.blue toWorking))
  ∧ (x == 2.5 → Heatmap.Color_eq (Heatmap.intensityToColor toWorking x)
                                 (Heatmap.green toWorking))
  ∧ (x == 5 → Heatmap.Color_eq (Heatmap.intensityToColor toWorking x)
                               (Heatmap.yellow toWorking))
  ∧ (x == 7.5 → Heatmap.Color_eq (Heatmap.intensityToColor toWorking x)
                                 (Heatmap.orange toWorking))
  ∧ (10 <= x → Heatmap.Color_eq (Heatmap.intensityToColor toWorking x)
                                (Heatmap.red toWorking)).
Proof.
  destruct (intensityToColor_clamped toWorking x)
    as (t & Ht0 & Ht1 & Hlo & Hhi & Hmid & ->).
  assert (Hx : x / 10 == x * (1 # 10)) by field.
  pose proof (div_quarter t) as Hq0.
  pose proof (div_quarter (t - 0.25)) as Hq1.
  pose proof (div_quarter (t - 0.5)) as Hq2.
  pose proof (div_quarter (t - 0.75)) as Hq3.
  split; [|split; [|split; [|split]]]; intros H.
  all: try (assert (Et : t == x / 10) by (apply Hmid; lra)).
  all: try (specialize (Hlo H)); try (specialize (Hhi H)).
  all: destruct (JS.ltb t 0.25) eqn:E1;
    [apply ltb_lt in E1 | apply ltb_ge in E1;
     destruct (JS.ltb t 0.5) eqn:E2;
     [apply ltb_lt in E2 | apply ltb_ge in E2;
      destruct (JS.ltb t 0.75) eqn:E3;
      [apply ltb_lt in E3 | apply ltb_ge in E3]]];
    try lra.
  1-4: apply lerp_at_0; lra.
  apply lerp_at_1; lra.
Qed.

Lemma lerp_in_range (b g alpha : Q) :
  0 <= alpha → alpha <= 1 → 0 <= b → b <= 1 → 0 <= g → g <= 1 →
  0 <= b + (g - b) * alpha ∧ b + (g - b) * alpha <= 1.
Proof. intros. split; nra. Qed.

Lemma hex_in_range (toWorking : Q → Q) (R G B : Z) :
  (∀ c : Q, 0 <= c → c <= 1 → 0 <= toWorking c ∧ toWorking c <= 1) →
  (0 <= R <= 255)%Z → (0 <= G <= 255)%Z → (0 <= B <= 255)%Z →
  let c := Heatmap.hex toWorking R G B in
  (0 <= Heatmap.cr c ∧ Heatmap.cr c <= 1)
  ∧ (0 <= Heatmap.cg c ∧ Heatmap.cg c <= 1)
  ∧ (0 <= Heatmap.cb c ∧ Heatmap.cb c <= 1).
Proof.
  intros Hrange HR HG HB.
  assert (Hfrac : ∀ n : Z, (0 <= n <= 255)%Z →
                           0 <= inject_Z n / 255 ∧ inject_Z n / 255 <= 1).
  { intros n [Hn0 Hn1]. rewrite Zle_Qle in Hn0, Hn1.
    assert (E : inject_Z n / 255 == inject_Z n * (1 # 255)) by field.
    rewrite E. change (inject_Z 0) with 0 in Hn0.
    change (inject_Z 255) with 255 in Hn1. split; lra. }
  cbn [Heatmap.hex Heatmap.cr Heatmap.cg Heatmap.cb].
  repeat split; apply Hrange; by apply Hfrac.
Qed.

(** Whatever the intensity, the three channels of its colour are valid,
    each lying between 0 and 1, for every conversion to the working
    colour space that keeps a channel between 0 and 1. *)
Theorem intensityToColor_channels_in_range (toWorking : Q → Q) (x : Q) :
  (∀ c : Q, 0 <= c → c <= 1 → 0 <= toWorking c ∧ toWorking c <= 1) →
  let c := Heatmap.intensityToColor toWorking x in
  (0 <= Heatmap.cr c ∧ Heatmap.cr c <= 1)
  ∧ (0 <= Heatmap.cg c ∧ Heatmap.cg c <= 1)
  ∧ (0 <= Heatmap.cb c ∧ Heatmap.cb c <= 1).
Proof.
  intros Hrange.
  destruct (intensityToColor_clamped toWorking x)
    as (t & Ht0 & Ht1 & _ & _ & _ & ->).
  pose proof (div_quarter t) as Hq0.
  pose proof (div_quarter (t - 0.25)) as Hq1.
  pose proof (div_quarter (t - 0.5)) as Hq2.
  pose proof (div_quarter (t - 0.75)) as Hq3.
  pose proof (hex_in_range toWorking 147 197 253 Hrange
                ltac:(lia) ltac:(lia) ltac:(lia)) as (? & ? & ?).
  pose proof (hex_in_range toWorking 110 231 183 Hrange
                ltac:(lia) ltac:(lia) ltac:(lia)) as (? & ? & ?).
  pose proof (hex_in_range toWorking 253 224 71 Hrange
                ltac:(lia) ltac:(lia) ltac:(lia)) as (? & ? & ?).
  pose proof (hex_in_range toWorking 251 146 60 Hrange
                ltac:(lia) ltac:(lia) ltac:(lia)) as (? & ? & ?).
  pose proof (hex_in_range toWorking 239 68 68 Hrange
                ltac:(lia) ltac:(lia) ltac:(lia)) as (? & ? & ?).
  destruct (JS.ltb t 0.25) eqn:E1;
    [apply ltb_lt in E1 | apply ltb_ge in E1;
     destruct (JS.ltb t 0.5) eqn:E2;
     [apply ltb_lt in E2 | apply ltb_ge in E2;
      destruct (JS.ltb t 0.75) eqn:E3;
      [apply ltb_lt in E3 | apply ltb_ge in E3]]].
  all: cbn [Heatmap.lerp Heatmap.cr Heatmap.cg Heatmap.cb].
  all: repeat split; apply lerp_in_range; tauto || lra.
Qed.

(** With colour management off, an intensity beyond the scale. *)
Lemma intensityToColor_channels_in_range_witness :
  let c := Heatmap.intensityToColor (fun c => c) 12 in
  (0 <= Heatmap.cr c ∧ Heatmap.cr c <= 1)
  ∧ (0 <= Heatmap.cg c ∧ Heatmap.cg c <= 1)
  ∧ (0 <= Heatmap.cb c ∧ Heatmap.cb c <= 1).
Proof.
  apply (intensityToColor_channels_in_range (fun c => c) 12).
  intros c H0 H1. split; assumption.
Defined.
